(** * Derivgrind: derivative propagation and linearized expressions

    A shallow embedding of the differentiation engine of Derivgrind
    ([none/nl_main.c], [derivgrind/dg_bar.c], [dg_main.c], [bar/dg_bar.c])
    and the properties of it that the design document states.

    Conventions of the embedding:
    - a C [int] or [ULong] is a [Z]; unsigned arithmetic wraps, and a signed
      overflow (undefined in C) makes the embedded function return [None];
    - [Scalar] is C's [double], embedded as Rocq's binary64 [float];
    - a [LinExpr*] is a block identifier with an element offset, so that the
      pointers into a buffer that [newLinExpr] has freed are told apart from
      the pointers into the live buffer;
    - a function that can run into undefined behaviour returns an [option];
      a function that can fail a [tl_assert] returns an [outcome]. *)

From Stdlib Require Import ZArith Lia Floats Ascii.
From stdpp Require Import base list numbers option strings pretty.

Open Scope Z_scope.

Set Warnings "-register-all".

(** ** C integers *)

Definition INT_MAX : Z := 2147483647.
Definition INT_MIN : Z := -2147483648.

(** A value of C's [int] arithmetic: defined only inside the range. *)
Definition int_of (z : Z) : option Z :=
  if (INT_MIN <=? z) && (z <=? INT_MAX) then Some z else None.

Definition wrap (w : Z) (z : Z) : Z := z mod 2 ^ w.

(** * Linearized expressions ([derivgrind/dg_bar.c], lines 49 to 197) *)

Module LinExprs.

(** [typedef void* Identifier; typedef double Scalar;] An identifier is
    compared by its address. *)
Abbreviation Identifier := Z (only parsing).
Abbreviation Scalar := float (only parsing).

(** Maximal number of linear dependencies of a linearized expression. *)
Definition MAX_NDEP : Z := 100.

(** Representation of a value with linear dependencies. The two arrays have
    [MAX_NDEP] elements each. *)
Record LinExpr := mkLinExpr {
  value : Scalar;
  ndep : Z;
  identifier : list Identifier;
  jacobian : list Scalar
}.

Definition set_value (v : Scalar) (e : LinExpr) : LinExpr :=
  mkLinExpr v (ndep e) (identifier e) (jacobian e).
Definition set_ndep (n : Z) (e : LinExpr) : LinExpr :=
  mkLinExpr (value e) n (identifier e) (jacobian e).
Definition set_identifier (ids : list Identifier) (e : LinExpr) : LinExpr :=
  mkLinExpr (value e) (ndep e) ids (jacobian e).
Definition set_jacobian (js : list Scalar) (e : LinExpr) : LinExpr :=
  mkLinExpr (value e) (ndep e) (identifier e) js.

(** [arr[i]] on an array of [MAX_NDEP] elements; an index outside of the
    array is undefined behaviour. *)
Definition rd {A} (arr : list A) (i : Z) : option A :=
  if (0 <=? i) && (i <? MAX_NDEP) then arr !! Z.to_nat i else None.

(** [arr[i] = v]. *)
Definition wr {A} (arr : list A) (i : Z) (v : A) : option (list A) :=
  if (0 <=? i) && (i <? MAX_NDEP) && bool_decide (Z.to_nat i < length arr)%nat
  then Some (<[Z.to_nat i := v]> arr) else None.

(** The pairs (identifier, partial derivative) that a linearized expression
    holds: the first [ndep] entries of its two arrays. *)
Definition dependencies (e : LinExpr) : list (Identifier * Scalar) :=
  take (Z.to_nat (ndep e)) (zip (identifier e) (jacobian e)).

(** The storage for all linearized expressions: the block that
    [buffer_linexpr] points to and its elements (as many as were allocated),
    the number [n_linexpr] of elements in use and the number [max_linexpr]
    of elements for which space has been allocated. *)
Record Store := mkStore {
  block : nat;
  buffer_linexpr : list LinExpr;
  n_linexpr : Z;
  max_linexpr : Z
}.

(** At program start: [buffer_linexpr] is a null pointer, the counters are 0. *)
Definition initial_store : Store := mkStore 0 [] 0 0.

(** A [LinExpr*]: the block and the element offset inside the block. *)
Definition Ptr : Type := nat * Z.

(** [p + j], as in [p[j]]. *)
Definition shift (p : Ptr) (j : Z) : Ptr := (p.1, p.2 + j).

(** [*p] as an rvalue. The pointer must point into the live block. *)
Definition deref (s : Store) (p : Ptr) : option LinExpr :=
  if bool_decide (p.1 = block s) && (0 <=? p.2)
  then buffer_linexpr s !! Z.to_nat p.2 else None.

(** [*p = e]. *)
Definition assign (s : Store) (p : Ptr) (e : LinExpr) : option Store :=
  if bool_decide (p.1 = block s) && (0 <=? p.2)
     && bool_decide (Z.to_nat p.2 < length (buffer_linexpr s))%nat
  then Some (mkStore (block s) (<[Z.to_nat p.2 := e]> (buffer_linexpr s))
                     (n_linexpr s) (max_linexpr s))
  else None.

(** [p->field = ...] for each field. *)
Definition update (s : Store) (p : Ptr) (f : LinExpr -> option LinExpr)
  : option Store :=
  e ← deref s p; e' ← f e; assign s p e'.

Definition store_value (s : Store) (p : Ptr) (v : Scalar) : option Store :=
  update s p (fun e => Some (set_value v e)).
Definition store_ndep (s : Store) (p : Ptr) (n : Z) : option Store :=
  update s p (fun e => Some (set_ndep n e)).
Definition store_identifier (s : Store) (p : Ptr) (i : Z) (v : Identifier)
  : option Store :=
  update s p (fun e => ids ← wr (identifier e) i v; Some (set_identifier ids e)).
Definition store_jacobian (s : Store) (p : Ptr) (i : Z) (v : Scalar)
  : option Store :=
  update s p (fun e => js ← wr (jacobian e) i v; Some (set_jacobian js e)).

Definition load_value (s : Store) (p : Ptr) : option Scalar :=
  value <$> deref s p.
Definition load_ndep (s : Store) (p : Ptr) : option Z :=
  ndep <$> deref s p.
Definition load_identifier (s : Store) (p : Ptr) (i : Z) : option Identifier :=
  e ← deref s p; rd (identifier e) i.
Definition load_jacobian (s : Store) (p : Ptr) (i : Z) : option Scalar :=
  e ← deref s p; rd (jacobian e) i.

(** What [VG_(malloc)] hands out is not initialised: the bytes found in
    element [i] of block [b] are whatever [Garbage] says. *)
Record Garbage := mkGarbage {
  g_value : nat -> Z -> Scalar;
  g_ndep : nat -> Z -> Z;
  g_identifier : nat -> Z -> Z -> Identifier;
  g_jacobian : nat -> Z -> Z -> Scalar
}.

Definition uninitialised (g : Garbage) (b : nat) (i : Z) : LinExpr :=
  mkLinExpr (g_value g b i) (g_ndep g b i)
            (g_identifier g b i <$> seqZ 0 MAX_NDEP)
            (g_jacobian g b i <$> seqZ 0 MAX_NDEP).

Section Code.

Variable g : Garbage.

(** [newLinExpr]: provide space for a new linearized expression. *)
Definition newLinExpr (s : Store) : option (Ptr * Store) :=
  s1 ← (if n_linexpr s =? max_linexpr s then
          (* new_buffer_linexpr = malloc(sizeof(LinExpr)*(2*n_linexpr+1)) *)
          size ← int_of (2 * n_linexpr s + 1);
          (* if(n_linexpr>0) memcpy(new_buffer_linexpr, buffer_linexpr, ...) *)
          copied ← (if 0 <? n_linexpr s then
                      if bool_decide (Z.to_nat (n_linexpr s)
                                      <= length (buffer_linexpr s))%nat
                      then Some (take (Z.to_nat (n_linexpr s)) (buffer_linexpr s))
                      else None
                    else Some []);
          (* free(buffer_linexpr); buffer_linexpr = new_buffer_linexpr;
             max_linexpr = 2*max_linexpr+1 *)
          new_max ← int_of (2 * max_linexpr s + 1);
          Some (mkStore (S (block s))
                  (copied ++ (uninitialised g (S (block s))
                                <$> seqZ (n_linexpr s) (size - n_linexpr s)))
                  (n_linexpr s) new_max)
        else Some s);
  (* buffer_linexpr[n_linexpr].ndep = 0; return &buffer_linexpr[n_linexpr++] *)
  let p : Ptr := (block s1, n_linexpr s1) in
  s2 ← store_ndep s1 p 0;
  n' ← int_of (n_linexpr s2 + 1);
  Some (p, mkStore (block s2) (buffer_linexpr s2) n' (max_linexpr s2)).

(** [deleteAllLinExpr]: discard all linearized expressions. *)
Definition deleteAllLinExpr (s : Store) : Store :=
  mkStore (block s) (buffer_linexpr s) 0 (max_linexpr s).

(** [for(int i=i0; cond(i); i++) body(i)], with the condition evaluated in
    the current store before each round. Every loop of this file reads or
    writes element [i] of an array of [MAX_NDEP] elements in its body, so
    [MAX_NDEP + 1] rounds of fuel are never used up by a run that stays
    inside the arrays. *)
Fixpoint for_loop (fuel : nat) (cond : Z -> Store -> option bool)
    (body : Z -> Store -> option Store) (i : Z) (s : Store) : option Store :=
  match fuel with
  | O => None
  | S fuel' =>
      c ← cond i s;
      if c : bool then s' ← body i s; for_loop fuel' cond body (i + 1) s'
      else Some s
  end.

Definition loop_fuel : nat := Z.to_nat (MAX_NDEP + 1).

(** [linearCombinationOfDependencies]: form the linear combination
    [k*a + l*b] of the linear dependencies. The value is not set. *)
Definition linearCombinationOfDependencies
    (k : Scalar) (a : Ptr) (l : Scalar) (b : Ptr) (s : Store)
  : option (Ptr * Store) :=
  '(res, s) ← newLinExpr s;
  na ← load_ndep s a; nb ← load_ndep s b;
  n ← int_of (na + nb);
  s ← store_ndep s res n;
  s ← for_loop loop_fuel
        (fun i s => na ← load_ndep s a; Some (i <? na))
        (fun i s =>
           id ← load_identifier s a i;
           s ← store_identifier s res i id;
           j ← load_jacobian s a i;
           store_jacobian s res i (k * j)%float)
        0 s;
  s ← for_loop loop_fuel
        (fun i s => nb ← load_ndep s b; Some (i <? nb))
        (fun i s =>
           id ← load_identifier s b i;
           na ← load_ndep s a;
           s ← store_identifier s res (na + i) id;
           j ← load_jacobian s b i;
           na ← load_ndep s a;
           store_jacobian s res (na + i) (l * j)%float)
        0 s;
  Some (res, s).

Definition addLinExpr (a b : Ptr) (s : Store) : option (Ptr * Store) :=
  '(sum, s) ← linearCombinationOfDependencies 1%float a 1%float b s;
  va ← load_value s a; vb ← load_value s b;
  s ← store_value s sum (va + vb)%float;
  Some (sum, s).

Definition subLinExpr (a b : Ptr) (s : Store) : option (Ptr * Store) :=
  '(difference, s) ← linearCombinationOfDependencies 1%float a (-1)%float b s;
  va ← load_value s a; vb ← load_value s b;
  s ← store_value s difference (va - vb)%float;
  Some (difference, s).

Definition mulLinExpr (a b : Ptr) (s : Store) : option (Ptr * Store) :=
  vb ← load_value s b; va ← load_value s a;
  '(product, s) ← linearCombinationOfDependencies vb a va b s;
  va ← load_value s a; vb ← load_value s b;
  s ← store_value s product (va * vb)%float;
  Some (product, s).

Definition divLinExpr (a b : Ptr) (s : Store) : option (Ptr * Store) :=
  vb ← load_value s b; va ← load_value s a;
  '(quotient, s) ←
    linearCombinationOfDependencies (-1 / vb)%float a
                                    (va / (vb * vb))%float b s;
  va ← load_value s a; vb ← load_value s b;
  s ← store_value s quotient (va / vb)%float;
  Some (quotient, s).

(** The merging loop of [mergesortLinExpr]: [tmp[i] = a[from_m++]] or
    [tmp[i] = a[sep_m++]] for [i] from [from] up to [to]. As [a] and [tmp]
    are of type [LinExpr*], [a[j]] and [tmp[i]] are the elements [j] and [i]
    of the arrays of linearized expressions that start at [a] and at [tmp];
    the assignment copies a whole [LinExpr]. *)
Fixpoint merge_loop (a : Ptr) (sep to : Z) (tmp : Ptr) (ix : list Z)
    (from_m sep_m : Z) (s : Store) : option Store :=
  match ix with
  | [] => Some s
  | i :: ix' =>
      take_left ←
        (if to <=? sep_m then Some true
         else if from_m <? sep then
           x ← load_identifier s a from_m;
           y ← load_identifier s a sep_m;
           Some (x <? y)
         else Some false);
      if take_left : bool then
        e ← deref s (shift a from_m);
        s ← assign s (shift tmp i) e;
        merge_loop a sep to tmp ix' (from_m + 1) sep_m s
      else
        e ← deref s (shift a sep_m);
        s ← assign s (shift tmp i) e;
        merge_loop a sep to tmp ix' from_m (sep_m + 1) s
  end.

(** The copying loop of [mergesortLinExpr]: [a[i] = tmp[i]]. *)
Fixpoint copy_back (a tmp : Ptr) (ix : list Z) (s : Store) : option Store :=
  match ix with
  | [] => Some s
  | i :: ix' =>
      e ← deref s (shift tmp i);
      s ← assign s (shift a i) e;
      copy_back a tmp ix' s
  end.

(** [mergesortLinExpr]. The recursion is on [to - from], which at least
    halves in each call; [fuel] bounds the depth of the recursion. *)
Fixpoint mergesortLinExpr_rec (fuel : nat) (a : Ptr) (from to : Z) (tmp : Ptr)
    (s : Store) : option Store :=
  if to - from <=? 1 then Some s
  else match fuel with
  | O => None
  | S fuel' =>
      let sep := (from + to) `quot` 2 in
      s ← mergesortLinExpr_rec fuel' a from sep tmp s;
      s ← mergesortLinExpr_rec fuel' a sep to tmp s;
      s ← merge_loop a sep to tmp (seqZ from (to - from)) from sep s;
      copy_back a tmp (seqZ from (to - from)) s
  end.

Definition mergesortLinExpr (a : Ptr) (from to : Z) (tmp : Ptr) (s : Store)
  : option Store :=
  mergesortLinExpr_rec (Z.to_nat (to - from)) a from to tmp s.

(** The inner loop of [normalizeLinExpr]:
    [while(a->identifier[i]==id && i<a->ndep){ jacobian_sum += a->jacobian[i]; i++; }];
    it returns the sum and the index reached. The identifier is read before
    the index is compared with [a->ndep]. *)
Fixpoint sum_run (fuel : nat) (a : Ptr) (id : Identifier) (s : Store)
    (jacobian_sum : Scalar) (i : Z) : option (Scalar * Z) :=
  match fuel with
  | O => None
  | S fuel' =>
      x ← load_identifier s a i;
      n ← load_ndep s a;
      if (x =? id) && (i <? n) then
        j ← load_jacobian s a i;
        sum_run fuel' a id s (jacobian_sum + j)%float (i + 1)
      else Some (jacobian_sum, i)
  end.

(** The outer loop of [normalizeLinExpr]. *)
Fixpoint collect (fuel : nat) (a ret : Ptr) (i : Z) (s : Store) : option Store :=
  match fuel with
  | O => None
  | S fuel' =>
      n ← load_ndep s a;
      if i <? n then
        id ← load_identifier s a i;
        j ← load_jacobian s a i;
        '(jacobian_sum, i') ← sum_run loop_fuel a id s j (i + 1);
        k ← load_ndep s ret;
        s ← store_identifier s ret k id;
        k ← load_ndep s ret;
        s ← store_jacobian s ret k jacobian_sum;
        k ← load_ndep s ret;
        k' ← int_of (k + 1);
        s ← store_ndep s ret k';
        collect fuel' a ret i' s
      else Some s
  end.

(** [normalizeLinExpr]: in-place normalization of a linearized expression. *)
Definition normalizeLinExpr (a : Ptr) (s : Store) : option Store :=
  '(ret, s) ← newLinExpr s;
  n ← load_ndep s a;
  s ← mergesortLinExpr a 0 n ret s;
  s ← store_ndep s ret 0;
  v ← load_value s a;
  s ← store_value s ret v;
  s ← collect loop_fuel a ret 0 s;
  e ← deref s ret;
  assign s a e.

End Code.

(** [next_identifier] and [newid]: the counter is a [ULong]. *)
Definition next_identifier_init : Z := 1.

Definition newid (next_identifier : Z) : Z * Z :=
  (next_identifier, wrap 64 (next_identifier + 1)).

End LinExprs.

(** * The intermediate representation of libVEX

    The types of [libvex_ir.h] that the instrumentation works on. Of the
    operators of [IROp], those that the files name are listed; the families
    that the files generate with a macro over a suffix ([Iop_Add##suffix],
    [Iop_##Op##32]) take the suffix as an argument. *)

Module VEX.

Inductive IRType :=
| Ity_INVALID | Ity_I1 | Ity_I8 | Ity_I16 | Ity_I32 | Ity_I64 | Ity_I128
| Ity_F16 | Ity_F32 | Ity_F64 | Ity_D32 | Ity_D64 | Ity_D128 | Ity_F128
| Ity_V128 | Ity_V256.

#[global] Instance IRType_eq_dec : EqDecision IRType.
Proof. solve_decision. Defined.

(** [sizeofIRType]; it panics on the types it does not list. *)
Definition sizeofIRType (ty : IRType) : option Z :=
  match ty with
  | Ity_I8 => Some 1 | Ity_I16 => Some 2 | Ity_I32 => Some 4
  | Ity_I64 => Some 8 | Ity_I128 => Some 16
  | Ity_F16 => Some 2 | Ity_F32 => Some 4 | Ity_F64 => Some 8
  | Ity_F128 => Some 16
  | Ity_D32 => Some 4 | Ity_D64 => Some 8 | Ity_D128 => Some 16
  | Ity_V128 => Some 16 | Ity_V256 => Some 32
  | Ity_INVALID | Ity_I1 => None
  end.

Inductive IREndness := Iend_LE | Iend_BE.

(** An [IRTemp] is a [UInt]. *)
Definition IRTemp := Z.
Definition IRTemp_INVALID : IRTemp := 4294967295.
Definition add_IRTemp (t offset : IRTemp) : IRTemp := wrap 32 (t + offset).

(** The suffixes of the floating-point operators: [F64], [F32], [64Fx2],
    [64Fx4], [32Fx4], [32Fx8], [32Fx2]. *)
Inductive Suffix := sF64 | sF32 | s64Fx2 | s64Fx4 | s32Fx4 | s32Fx8 | s32Fx2.

(** The widths of the logical operators: [32], [64], [V128], [V256]. *)
Inductive Width := w32 | w64 | wV128 | wV256.

Inductive IROp :=
| Iop_Add (sfx : Suffix) | Iop_Sub (sfx : Suffix) | Iop_Mul (sfx : Suffix)
| Iop_Div (sfx : Suffix) | Iop_Sqrt (sfx : Suffix)
| Iop_And (w : Width) | Iop_Or (w : Width) | Iop_Xor (w : Width)
| Iop_NegF64 | Iop_NegF32 | Iop_AbsF64 | Iop_AbsF32
| Iop_CmpF64 | Iop_CmpF32
| Iop_AtanF64 | Iop_ScaleF64 | Iop_Yl2xF64 | Iop_Yl2xp1F64 | Iop_2xm1F64
| Iop_F64toF32 | Iop_F32toF64 | Iop_RoundF64toInt
| Iop_Add64F0x2 | Iop_Sub64F0x2 | Iop_Mul64F0x2 | Iop_Div64F0x2
| Iop_Add32F0x4 | Iop_Sub32F0x4 | Iop_Mul32F0x4 | Iop_Div32F0x4
| Iop_Min64F0x2 | Iop_Sqrt64F0x2 | Iop_Sqrt32F0x4
| Iop_I64StoF64 | Iop_I64UtoF64 | Iop_I64StoF32 | Iop_I64UtoF32
| Iop_I32StoF32 | Iop_I32UtoF32 | Iop_I32StoF64 | Iop_I32UtoF64
| Iop_ReinterpI64asF64 | Iop_ReinterpF64asI64
| Iop_ReinterpI32asF32 | Iop_ReinterpF32asI32
| Iop_64HLto128 | Iop_32HLto64 | Iop_16HLto32 | Iop_8HLto16
| Iop_64HLtoV128 | Iop_V128HLtoV256 | Iop_64x4toV256
| Iop_SetV128lo32 | Iop_SetV128lo64
| Iop_InterleaveHI8x16 | Iop_InterleaveHI16x8
| Iop_InterleaveHI32x4 | Iop_InterleaveHI64x2
| Iop_InterleaveLO8x16 | Iop_InterleaveLO16x8
| Iop_InterleaveLO32x4 | Iop_InterleaveLO64x2
| Iop_64to8 | Iop_32to8 | Iop_64to16 | Iop_16to8 | Iop_16HIto8
| Iop_32to16 | Iop_32HIto16 | Iop_64to32 | Iop_64HIto32 | Iop_32to1
| Iop_V128to64 | Iop_V128HIto64 | Iop_V128to32
| Iop_V256toV128_0 | Iop_V256toV128_1
| Iop_V256to64_0 | Iop_V256to64_1 | Iop_V256to64_2 | Iop_V256to64_3
| Iop_8Uto16 | Iop_8Uto32 | Iop_8Uto64 | Iop_16Uto32 | Iop_16Uto64
| Iop_32Uto64
| Iop_8Sto16 | Iop_8Sto32 | Iop_8Sto64 | Iop_16Sto32 | Iop_16Sto64
| Iop_32Sto64
| Iop_ZeroHI64ofV128 | Iop_ZeroHI96ofV128
| Iop_ZeroHI112ofV128 | Iop_ZeroHI120ofV128
| Iop_64UtoV128 | Iop_32UtoV128 | Iop_128HIto64 | Iop_128to64
| Iop_other (code : Z).

Abbreviation Iop_AddF64 := (Iop_Add sF64).
Abbreviation Iop_AddF32 := (Iop_Add sF32).
Abbreviation Iop_SubF64 := (Iop_Sub sF64).
Abbreviation Iop_SubF32 := (Iop_Sub sF32).
Abbreviation Iop_MulF64 := (Iop_Mul sF64).
Abbreviation Iop_MulF32 := (Iop_Mul sF32).
Abbreviation Iop_DivF64 := (Iop_Div sF64).
Abbreviation Iop_DivF32 := (Iop_Div sF32).
Abbreviation Iop_SqrtF64 := (Iop_Sqrt sF64).
Abbreviation Iop_SqrtF32 := (Iop_Sqrt sF32).

(** Rounding modes ([IRRoundingMode]). *)
Definition Irrm_NEAREST : Z := 0.
Definition Irrm_ZERO : Z := 3.

(** Constants. A [Float] payload is held as the [double] of the same value. *)
Inductive IRConst :=
| IRConst_U1 (b : bool) | IRConst_U8 (n : Z) | IRConst_U16 (n : Z)
| IRConst_U32 (n : Z) | IRConst_U64 (n : Z) | IRConst_U128 (n : Z)
| IRConst_F32 (f : float) | IRConst_F32i (n : Z)
| IRConst_F64 (f : float) | IRConst_F64i (n : Z)
| IRConst_V128 (n : Z) | IRConst_V256 (n : Z).

Record IRRegArray := mkIRRegArray { base : Z; elemTy : IRType; nElems : Z }.

(** Expressions, named by the functions that build them. [IRExpr_NULL] is
    the null pointer where a pointer to an expression is stored. *)
Inductive IRExpr :=
| IRExpr_Binder (binder : Z)
| IRExpr_Get (offset : Z) (ty : IRType)
| IRExpr_GetI (descr : IRRegArray) (ix : IRExpr) (bias : Z)
| IRExpr_RdTmp (tmp : IRTemp)
| IRExpr_Qop (op : IROp) (arg1 arg2 arg3 arg4 : IRExpr)
| IRExpr_Triop (op : IROp) (arg1 arg2 arg3 : IRExpr)
| IRExpr_Binop (op : IROp) (arg1 arg2 : IRExpr)
| IRExpr_Unop (op : IROp) (arg : IRExpr)
| IRExpr_Load (e : IREndness) (ty : IRType) (addr : IRExpr)
| IRExpr_Const (con : IRConst)
| IRExpr_ITE (cond iftrue iffalse : IRExpr)
| IRExpr_CCall (cee : string) (retty : IRType) (args : list IRExpr)
| IRExpr_VECRET
| IRExpr_GSPTR
| IRExpr_NULL.

(** [mkIRExprCCall(retty, regparms, name, addr, args)]: the callee is known
    by its name. *)
Definition mkIRExprCCall (retty : IRType) (name : string) (args : list IRExpr)
  : IRExpr := IRExpr_CCall name retty args.

(** A call to a helper with side effects: the callee (by name), the guard,
    the arguments and the temporary that receives the result. *)
Record IRDirty := mkIRDirty {
  cee : string;
  guard : IRExpr;
  d_args : list IRExpr;
  d_tmp : IRTemp
}.

Definition unsafeIRDirty_0_N (name : string) (args : list IRExpr) : IRDirty :=
  mkIRDirty name (IRExpr_Const (IRConst_U1 true)) args IRTemp_INVALID.
Definition unsafeIRDirty_1_N (dst : IRTemp) (name : string)
    (args : list IRExpr) : IRDirty :=
  mkIRDirty name (IRExpr_Const (IRConst_U1 true)) args dst.
Definition set_guard (gd : IRExpr) (di : IRDirty) : IRDirty :=
  mkIRDirty (cee di) gd (d_args di) (d_tmp di).

Record IRPutI := mkIRPutI {
  puti_descr : IRRegArray; puti_ix : IRExpr; puti_bias : Z; puti_data : IRExpr
}.
Record IRStoreG := mkIRStoreG {
  sg_end : IREndness; sg_addr : IRExpr; sg_data : IRExpr; sg_guard : IRExpr
}.
Inductive IRLoadGOp :=
| ILGop_INVALID | ILGop_IdentV128 | ILGop_Ident64 | ILGop_Ident32
| ILGop_16Uto32 | ILGop_16Sto32 | ILGop_8Uto32 | ILGop_8Sto32.
Record IRLoadG := mkIRLoadG {
  lg_end : IREndness; lg_cvt : IRLoadGOp; lg_dst : IRTemp;
  lg_addr : IRExpr; lg_alt : IRExpr; lg_guard : IRExpr
}.
Record IRCAS := mkIRCAS {
  oldHi : IRTemp; oldLo : IRTemp; cas_end : IREndness; cas_addr : IRExpr;
  expdHi : IRExpr; expdLo : IRExpr; dataHi : IRExpr; dataLo : IRExpr
}.

Inductive IRStmt :=
| IRStmt_NoOp
| IRStmt_IMark (addr len delta : Z)
| IRStmt_AbiHint (base : IRExpr) (len : Z) (nia : IRExpr)
| IRStmt_Put (offset : Z) (data : IRExpr)
| IRStmt_PutI (details : IRPutI)
| IRStmt_WrTmp (tmp : IRTemp) (data : IRExpr)
| IRStmt_Store (e : IREndness) (addr data : IRExpr)
| IRStmt_LoadG (details : IRLoadG)
| IRStmt_StoreG (details : IRStoreG)
| IRStmt_CAS (details : IRCAS)
| IRStmt_LLSC (e : IREndness) (result : IRTemp) (addr storedata : IRExpr)
| IRStmt_Dirty (details : IRDirty)
| IRStmt_MBE (event : Z)
| IRStmt_Exit (guard : IRExpr) (jk : Z) (dst : IRConst) (offsIP : Z).

Definition is_IMark (st : IRStmt) : bool :=
  match st with IRStmt_IMark _ _ _ => true | _ => false end.

(** A superblock: the types of its temporaries and its statements. *)
Record IRSB := mkIRSB { tyenv : list IRType; stmts : list IRStmt }.

(** [newIRTemp]: a new temporary of the given type, the next free one. *)
Definition newIRTemp (sb : IRSB) (ty : IRType) : IRTemp * IRSB :=
  (Z.of_nat (length (tyenv sb)), mkIRSB (tyenv sb ++ [ty]) (stmts sb)).

Definition addStmtToIRSB (sb : IRSB) (st : IRStmt) : IRSB :=
  mkIRSB (tyenv sb) (stmts sb ++ [st]).

(** [tyenv->types[t]]. *)
Definition typeOfIRTemp (sb : IRSB) (t : IRTemp) : option IRType :=
  if 0 <=? t then tyenv sb !! Z.to_nat t else None.

(** The result of a floating-point comparison ([IRCmpFResult]) and the
    32-bit value that encodes it. *)
Inductive IRCmpFResult := Ircr_UN | Ircr_LT | Ircr_GT | Ircr_EQ.

Definition IRCmpFResult_code (r : IRCmpFResult) : Z :=
  match r with
  | Ircr_UN => 0x45 | Ircr_LT => 0x01 | Ircr_GT => 0x00 | Ircr_EQ => 0x40
  end.

Definition cmpF (x y : float) : IRCmpFResult :=
  match PrimFloat.compare x y with
  | FEq => Ircr_EQ | FLt => Ircr_LT | FGt => Ircr_GT
  | FNotComparable => Ircr_UN
  end.

(** The values of the types that the rule for the absolute value touches. *)
Inductive Value :=
| V_F (ty : IRType) (f : float)
| V_I32 (n : Z)
| V_I1 (b : bool).

(** The value of an expression made of temporaries, floating-point
    constants, negation, comparison, [Iop_32to1] (which selects bit 0) and
    if-then-else; [None] for any other expression. *)
Fixpoint eval (tmps : IRTemp -> option Value) (e : IRExpr) : option Value :=
  match e with
  | IRExpr_RdTmp t => tmps t
  | IRExpr_Const (IRConst_F64 f) => Some (V_F Ity_F64 f)
  | IRExpr_Const (IRConst_F32 f) => Some (V_F Ity_F32 f)
  | IRExpr_Unop Iop_NegF64 a =>
      match eval tmps a with
      | Some (V_F Ity_F64 f) => Some (V_F Ity_F64 (- f)%float) | _ => None
      end
  | IRExpr_Unop Iop_NegF32 a =>
      match eval tmps a with
      | Some (V_F Ity_F32 f) => Some (V_F Ity_F32 (- f)%float) | _ => None
      end
  | IRExpr_Unop Iop_32to1 a =>
      match eval tmps a with
      | Some (V_I32 n) => Some (V_I1 (Z.testbit n 0)) | _ => None
      end
  | IRExpr_Binop Iop_CmpF64 a b =>
      match eval tmps a, eval tmps b with
      | Some (V_F Ity_F64 x), Some (V_F Ity_F64 y) =>
          Some (V_I32 (IRCmpFResult_code (cmpF x y)))
      | _, _ => None
      end
  | IRExpr_Binop Iop_CmpF32 a b =>
      match eval tmps a, eval tmps b with
      | Some (V_F Ity_F32 x), Some (V_F Ity_F32 y) =>
          Some (V_I32 (IRCmpFResult_code (cmpF x y)))
      | _, _ => None
      end
  | IRExpr_ITE c t f =>
      match eval tmps c with
      | Some (V_I1 true) => eval tmps t
      | Some (V_I1 false) => eval tmps f
      | _ => None
      end
  | _ => None
  end.

End VEX.

(** * Runs of the instrumentation

    The instrumentation changes objects that it reaches through pointers
    and globals (the output superblock, what was printed); a function of it
    is embedded as a function of the state of these objects. A run ends
    normally, or in a failed [tl_assert] (with the state reached), or in
    behaviour that C does not define. *)

Module Run.

Inductive outcome (S A : Type) :=
| Ok (a : A) (s : S)
| AssertionFailed (s : S)
| Undefined.
Arguments Ok {S A} a s.
Arguments AssertionFailed {S A} s.
Arguments Undefined {S A}.

Definition M (S A : Type) : Type := S -> outcome S A.

Definition ret {S A} (a : A) : M S A := fun s => Ok a s.
Definition bind {S A B} (m : M S A) (k : A -> M S B) : M S B :=
  fun s => match m s with
           | Ok a s' => k a s'
           | AssertionFailed s' => AssertionFailed s'
           | Undefined => Undefined
           end.
Definition tl_assert_False {S A} : M S A := fun s => AssertionFailed s.
Definition undefined {S A} : M S A := fun _ => Undefined.
Definition lift {S A} (o : option A) : M S A :=
  match o with Some a => ret a | None => undefined end.

(** [p == NULL] *)
Definition isNULL {A} (p : option A) : bool :=
  match p with None => true | Some _ => false end.

Module Notations.
Notation "x <- m ;; k" := (bind m (fun x => k))
  (at level 100, m at next level, right associativity).
Notation "m ;;; k" := (bind m (fun _ => k))
  (at level 100, right associativity).
End Notations.

End Run.

(** * Forward mode on top of Nulgrind ([none/nl_main.c]) *)

Module nl_main.
Import VEX Run Run.Notations.

(** What the instrumentation prints: a [VG_(printf)] with its format and
    its string arguments, or a [ppIRExpr] of a pointer to an expression. *)
Inductive Event :=
| Printf (format : string) (args : list string)
| PpIRExpr (e : option IRExpr).

(** The objects that the instrumentation of one superblock changes: the
    output superblock [sb_out], what was printed, and [stmt_counter]. *)
Record St := mkSt { sb_out : IRSB; output : list Event; stmt_counter : Z }.

Definition M (A : Type) : Type := Run.M St A.

Definition printf (format : string) (args : list string) : M unit :=
  fun s => Ok tt (mkSt (sb_out s) (output s ++ [Printf format args])
                       (stmt_counter s)).
(** [ppIRExpr(e)] of libVEX prints the expression that [e] points to: it
    reads [e->tag] without testing [e], which C does not define for a null
    pointer. *)
Definition ppIRExpr (e : option IRExpr) : M unit :=
  match e with
  | Some _ =>
      fun s => Ok tt (mkSt (sb_out s) (output s ++ [PpIRExpr e])
                           (stmt_counter s))
  | None => undefined
  end.
Definition new_temp (ty : IRType) : M IRTemp :=
  fun s => let '(t, sb) := newIRTemp (sb_out s) ty in
           Ok t (mkSt sb (output s) (stmt_counter s)).
Definition add_stmt (st : IRStmt) : M unit :=
  fun s => Ok tt (mkSt (addStmtToIRSB (sb_out s) st) (output s)
                       (stmt_counter s)).

(** ** The helpers that the generated code calls

    The shadow memory library ([shadow-memory/src/shadow.h]) is not among
    the files. It keeps one [U8] for each [SM_Addr]:
    [shadow_set_bits(sm, a, v)] sets it and [shadow_get_bits(sm, a, &v)]
    reads it. An [SM_Addr] is an unsigned integer of [addr_bits] bits. *)

Section Shadow_memory.

Variable ShadowMap : Type.
Variable shadow_set_bits : ShadowMap -> Z -> Z -> ShadowMap.
Variable shadow_get_bits : ShadowMap -> Z -> Z.
Variable addr_bits : Z.

(** The eight bytes of a [ULong] in memory, on the little-endian hosts of
    the tool (x86 and amd64): the byte at [(U8* )&x + i] is element [i]. *)
Definition U8s_of_ULong (x : Z) : list Z :=
  (fun i => (x `div` 2 ^ (8 * i)) `mod` 256) <$> seqZ 0 8.

Definition ULong_of_U8s (bs : list Z) : Z :=
  foldr (fun b x => b + 256 * x) 0 bs.

(** [nl_Store_diff]: store the first [size] bytes of [derivative] in the
    shadow memory at [addr]. The loop is
    [for(int i=0; i<size; i++) shadow_set_bits(my_sm, ((SM_Addr)addr)+i, byte i of derivative)];
    a byte behind the eight bytes of [derivative] cannot be read. *)
Definition nl_Store_diff (addr derivative size : Z) (my_sm : ShadowMap)
  : option ShadowMap :=
  foldl (fun sm i =>
           sm ← sm;
           b ← U8s_of_ULong derivative !! Z.to_nat i;
           Some (shadow_set_bits sm (wrap addr_bits (addr + i)) b))
        (Some my_sm) (seqZ 0 size).

Definition nl_Store_diff1 (addr derivative : Z) := nl_Store_diff addr derivative 1.
Definition nl_Store_diff2 (addr derivative : Z) := nl_Store_diff addr derivative 2.
Definition nl_Store_diff4 (addr derivative : Z) := nl_Store_diff addr derivative 4.
Definition nl_Store_diff8 (addr derivative : Z) := nl_Store_diff addr derivative 8.

(** [nl_Load_diff]: load [size] bytes from the shadow memory at [addr] into
    the first bytes of [derivative], which starts as 0; the second loop,
    [for(int i=size; i<8; i++)], sets the other bytes to 0. A byte behind
    the eight bytes of [derivative] cannot be written. *)
Definition nl_Load_diff (addr size : Z) (my_sm : ShadowMap) : option Z :=
  let derivative := U8s_of_ULong 0 in
  derivative ←
    foldl (fun d i =>
             d ← d;
             if bool_decide (Z.to_nat i < length d)%nat then
               Some (<[Z.to_nat i :=
                         shadow_get_bits my_sm (wrap addr_bits (addr + i))]> d)
             else None)
          (Some derivative) (seqZ 0 size);
  let derivative :=
    foldl (fun d i => <[Z.to_nat i := 0]> d) derivative
          (seqZ size (8 - size)) in
  Some (ULong_of_U8s derivative).

Definition nl_Load_diff1 (addr : Z) := nl_Load_diff addr 1.
Definition nl_Load_diff2 (addr : Z) := nl_Load_diff addr 2.
Definition nl_Load_diff4 (addr : Z) := nl_Load_diff addr 4.
Definition nl_Load_diff8 (addr : Z) := nl_Load_diff addr 8.

End Shadow_memory.

(** [canConvertToI64]: whether the type can be reinterpreted as integer. *)
Definition canConvertToI64 (type : IRType) : M bool :=
  match type with
  | Ity_I8 | Ity_I16 | Ity_I32 | Ity_I64 | Ity_F32 | Ity_F64 => ret true
  | Ity_INVALID =>
      printf "Invalid type encountered in canConvertToI64.\n" [] ;;;
      tl_assert_False
  | _ => ret false
  end.

(** [convertToInteger]: reinterpret an expression as 8-byte integer. *)
Definition convertToInteger (expr : IRExpr) (type : IRType) : M IRExpr :=
  match type with
  | Ity_F32 =>
      ret (IRExpr_Unop Iop_32Uto64 (IRExpr_Unop Iop_ReinterpF32asI32 expr))
  | Ity_F64 => ret (IRExpr_Unop Iop_ReinterpF64asI64 expr)
  | Ity_I8 => ret (IRExpr_Unop Iop_8Uto64 expr)
  | Ity_I16 => ret (IRExpr_Unop Iop_16Uto64 expr)
  | Ity_I32 => ret (IRExpr_Unop Iop_32Uto64 expr)
  | Ity_I64 => ret expr
  | _ => printf "Bad type encountered in convertToInteger.\n" [] ;;;
         tl_assert_False
  end.

(** [convertFromInteger]: reinterpret an 8-byte integer expression as
    another type. The [switch] has no default: for any other type the
    function ends without a [return]. *)
Definition convertFromInteger (expr : IRExpr) (type : IRType) : option IRExpr :=
  match type with
  | Ity_F32 => Some (IRExpr_Unop Iop_ReinterpI32asF32 expr)
  | Ity_F64 => Some (IRExpr_Unop Iop_ReinterpI64asF64 expr)
  | Ity_I8 => Some (IRExpr_Unop Iop_64to8 expr)
  | Ity_I16 => Some (IRExpr_Unop Iop_64to16 expr)
  | Ity_I32 => Some (IRExpr_Unop Iop_64to32 expr)
  | Ity_I64 => Some expr
  | _ => None
  end.

(** The helpers [nl_Load_diff1], ..., [nl_Load_diff8], chosen by
    [switch(sizeofIRType(type))]. *)
Definition load_helper (type : IRType) : M string :=
  match sizeofIRType type with
  | Some 1 => ret "nl_Load_diff1"%string
  | Some 2 => ret "nl_Load_diff2"%string
  | Some 4 => ret "nl_Load_diff4"%string
  | Some 8 => ret "nl_Load_diff8"%string
  | Some _ => tl_assert_False
  | None => undefined
  end.

Definition store_helper (type : IRType) : M string :=
  match sizeofIRType type with
  | Some 1 => ret "nl_Store_diff1"%string
  | Some 2 => ret "nl_Store_diff2"%string
  | Some 4 => ret "nl_Store_diff4"%string
  | Some 8 => ret "nl_Store_diff8"%string
  | Some _ => tl_assert_False
  | None => undefined
  end.

(** [DiffEnv]: the shadow offset for indices of temporaries and
    [layout->total_sizeB], the shadow offset for register indices. (The
    third member, [sb_out], is the superblock kept in the state.) *)
Record DiffEnv := mkDiffEnv { t_offset : IRTemp; total_sizeB : Z }.

(** The derivative of a constant: the zero of its type. *)
Definition zero_of (con : IRConst) : IRExpr :=
  match con with
  | IRConst_F64 _ => IRExpr_Const (IRConst_F64 0)
  | IRConst_F64i _ => IRExpr_Const (IRConst_F64i 0)
  | IRConst_F32 _ => IRExpr_Const (IRConst_F32 0)
  | IRConst_F32i _ => IRExpr_Const (IRConst_F32i 0)
  | IRConst_U1 _ => IRExpr_Const (IRConst_U1 false)
  | IRConst_U8 _ => IRExpr_Const (IRConst_U8 0)
  | IRConst_U16 _ => IRExpr_Const (IRConst_U16 0)
  | IRConst_U32 _ => IRExpr_Const (IRConst_U32 0)
  | IRConst_U64 _ => IRExpr_Const (IRConst_U64 0)
  | IRConst_U128 _ => IRExpr_Const (IRConst_U128 0)
  | IRConst_V128 _ => IRExpr_Const (IRConst_V128 0)
  | IRConst_V256 _ => IRExpr_Const (IRConst_V256 0)
  end.

(** [differentiate_expr]: the differentiated expression or [NULL] ([None]).
    The function might add helper statements to [sb_out]. *)
Fixpoint differentiate_expr (ex : IRExpr) (diffenv : DiffEnv)
  : M (option IRExpr) :=
  match ex with
  | IRExpr_Triop op arg1 arg2 arg3 =>
      d2 <- differentiate_expr arg2 diffenv ;;
      d3 <- differentiate_expr arg3 diffenv ;;
      match d2, d3 with
      | Some d2, Some d3 =>
          ret match op with
          | Iop_AddF64 => Some (IRExpr_Triop Iop_AddF64 arg1 d2 d3)
          | Iop_AddF32 => Some (IRExpr_Triop Iop_AddF32 arg1 d2 d3)
          | Iop_SubF64 => Some (IRExpr_Triop Iop_SubF64 arg1 d2 d3)
          | Iop_SubF32 => Some (IRExpr_Triop Iop_SubF32 arg1 d2 d3)
          | Iop_MulF64 =>
              Some (IRExpr_Triop Iop_AddF64 arg1
                      (IRExpr_Triop Iop_MulF64 arg1 d2 arg3)
                      (IRExpr_Triop Iop_MulF64 arg1 d3 arg2))
          | Iop_MulF32 =>
              Some (IRExpr_Triop Iop_AddF32 arg1
                      (IRExpr_Triop Iop_MulF32 arg1 d2 arg3)
                      (IRExpr_Triop Iop_MulF32 arg1 d3 arg2))
          | Iop_DivF64 =>
              Some (IRExpr_Triop Iop_DivF64 arg1
                      (IRExpr_Triop Iop_SubF64 arg1
                         (IRExpr_Triop Iop_MulF64 arg1 d2 arg3)
                         (IRExpr_Triop Iop_MulF64 arg1 d3 arg2))
                      (IRExpr_Triop Iop_MulF64 arg1 arg3 arg3))
          | Iop_DivF32 =>
              Some (IRExpr_Triop Iop_DivF32 arg1
                      (IRExpr_Triop Iop_SubF32 arg1
                         (IRExpr_Triop Iop_MulF32 arg1 d2 arg3)
                         (IRExpr_Triop Iop_MulF32 arg1 d3 arg2))
                      (IRExpr_Triop Iop_MulF32 arg1 arg3 arg3))
          | _ => None
          end
      | _, _ => ret None
      end
  | IRExpr_Binop op arg1 arg2 =>
      d2 <- differentiate_expr arg2 diffenv ;;
      match d2 with
      | None => ret None
      | Some d2 =>
          ret match op with
          | Iop_SqrtF64 =>
              let numerator := d2 in
              let consttwo := IRExpr_Const (IRConst_F64 2) in
              let denominator :=
                IRExpr_Triop Iop_MulF64 arg1 consttwo
                  (IRExpr_Binop Iop_SqrtF64 arg1 arg2) in
              Some (IRExpr_Triop Iop_DivF64 arg1 numerator denominator)
          | Iop_SqrtF32 =>
              let numerator := d2 in
              let consttwo := IRExpr_Const (IRConst_F32 2) in
              let denominator :=
                IRExpr_Triop Iop_MulF32 arg1 consttwo
                  (IRExpr_Binop Iop_SqrtF32 arg1 arg2) in
              Some (IRExpr_Triop Iop_DivF32 arg1 numerator denominator)
          | _ => None
          end
      end
  | IRExpr_Unop op arg =>
      d <- differentiate_expr arg diffenv ;;
      match d with
      | None => ret None
      | Some d =>
          ret match op with
          | Iop_NegF64 => Some (IRExpr_Unop Iop_NegF64 d)
          | Iop_NegF32 => Some (IRExpr_Unop Iop_NegF32 d)
          | Iop_AbsF64 =>
              let cond :=
                IRExpr_Binop Iop_CmpF64 arg (IRExpr_Const (IRConst_F64 0)) in
              let minus_d := IRExpr_Unop Iop_NegF64 d in
              Some (IRExpr_ITE (IRExpr_Unop Iop_32to1 cond) minus_d d)
          | Iop_AbsF32 =>
              let cond :=
                IRExpr_Binop Iop_CmpF32 arg (IRExpr_Const (IRConst_F32 0)) in
              let minus_d := IRExpr_Unop Iop_NegF32 d in
              Some (IRExpr_ITE (IRExpr_Unop Iop_32to1 cond) minus_d d)
          | _ => None
          end
      end
  | IRExpr_Const con => ret (Some (zero_of con))
  | IRExpr_ITE cond iftrue iffalse =>
      dtrue <- differentiate_expr iftrue diffenv ;;
      dfalse <- differentiate_expr iffalse diffenv ;;
      printf "generate ITE: iftrue=\n" [] ;;;
      ppIRExpr dtrue ;;;
      printf "\niffalse=\n" [] ;;;
      ppIRExpr dfalse ;;;
      printf "\n" [] ;;;
      match dtrue, dfalse with
      | Some dtrue, Some dfalse => ret (Some (IRExpr_ITE cond dtrue dfalse))
      | _, _ => ret None
      end
  | IRExpr_RdTmp tmp =>
      ret (Some (IRExpr_RdTmp (add_IRTemp tmp (t_offset diffenv))))
  | IRExpr_Get offset ty =>
      o <- lift (int_of (offset + total_sizeB diffenv)) ;;
      ret (Some (IRExpr_Get o ty))
  | IRExpr_GetI descr ix bias =>
      b <- lift (int_of (base descr + total_sizeB diffenv)) ;;
      let descr_diff := mkIRRegArray b (elemTy descr) (nElems descr) in
      bias' <- lift (int_of (bias + total_sizeB diffenv)) ;;
      ret (Some (IRExpr_GetI descr_diff ix bias'))
  | IRExpr_Load _ type addr =>
      c <- canConvertToI64 type ;;
      if c : bool then
        loadAddr <- new_temp Ity_I64 ;;
        fname <- load_helper type ;;
        let di := unsafeIRDirty_1_N loadAddr fname [addr] in
        add_stmt (IRStmt_Dirty di) ;;;
        loadAddr_reinterpreted <- new_temp type ;;
        e <- lift (convertFromInteger (IRExpr_RdTmp loadAddr) type) ;;
        add_stmt (IRStmt_WrTmp loadAddr_reinterpreted e) ;;;
        ret (Some (IRExpr_RdTmp loadAddr_reinterpreted))
      else ret None
  | IRExpr_NULL => undefined
  | _ => ret None
  end.

(** [differentiate_or_warn]: checks if the derivative is not [NULL], and
    possibly outputs a warning. *)
Definition differentiate_or_warn (expr : IRExpr) (diffenv : DiffEnv)
    (warn : bool) (operation : string) : M (option IRExpr) :=
  diff <- differentiate_expr expr diffenv ;;
  (if isNULL diff && warn then
     printf "Warning: Expression\n" [] ;;;
     ppIRExpr (Some expr) ;;;
     printf "could not be differentiated in %s.\n\n" [operation]
   else ret tt) ;;;
  ret diff.

Section Instrument.

(** [typeOfIRExpr(tyenv, e)] of libVEX. *)
Variable typeOfIRExpr : list IRType -> IRExpr -> IRType.

(** [type==Ity_F64||type==Ity_F32] *)
Definition is_float (type : IRType) : bool :=
  bool_decide (type = Ity_F64) || bool_decide (type = Ity_F32).

(** The instrumentation of [Ist_Store] and [Ist_StoreG]. *)
Definition instrument_store (sb_in : IRSB) (diffenv : DiffEnv)
    (addr data : IRExpr) (guarded : option IRExpr) : M unit :=
  let type := typeOfIRExpr (tyenv sb_in) data in
  c <- canConvertToI64 type ;;
  if c : bool then
    differentiated_expr <-
      differentiate_or_warn data diffenv (is_float type) "Store" ;;
    match differentiated_expr with
    | Some differentiated_expr =>
        differentiated_expr_reinterpreted <-
          convertToInteger differentiated_expr type ;;
        fname <- store_helper type ;;
        printf "Adding dirty: " [] ;;;
        ppIRExpr (Some differentiated_expr_reinterpreted) ;;;
        printf "\n" [] ;;;
        let di := unsafeIRDirty_0_N fname
                    [addr; differentiated_expr_reinterpreted] in
        let di := match guarded with
                  | Some gd => set_guard gd di
                  | None => di
                  end in
        add_stmt (IRStmt_Dirty di)
    | None => ret tt
    end
  else ret tt.

(** The body of the second loop of [nl_instrument], for one statement. *)
Definition instrument_stmt (sb_in : IRSB) (diffenv : DiffEnv)
    (st_orig : IRStmt) : M unit :=
  (fun s => Ok tt (mkSt (sb_out s) (output s)
                        (wrap 64 (stmt_counter s + 1)))) ;;;
  match st_orig with
  | IRStmt_WrTmp tmp data =>
      type <- lift (typeOfIRTemp sb_in tmp) ;;
      differentiated_expr <-
        differentiate_or_warn data diffenv (is_float type) "WrTmp" ;;
      match differentiated_expr with
      | Some differentiated_expr =>
          add_stmt (IRStmt_WrTmp (add_IRTemp tmp (t_offset diffenv))
                                 differentiated_expr)
      | None => ret tt
      end
  | IRStmt_Put offset data =>
      let type := typeOfIRExpr (tyenv sb_in) data in
      differentiated_expr <-
        differentiate_or_warn data diffenv (is_float type) "Put" ;;
      match differentiated_expr with
      | Some differentiated_expr =>
          o <- lift (int_of (offset + total_sizeB diffenv)) ;;
          add_stmt (IRStmt_Put o differentiated_expr)
      | None => ret tt
      end
  | IRStmt_PutI details =>
      let type := typeOfIRExpr (tyenv sb_in) (puti_data details) in
      differentiated_expr <-
        differentiate_or_warn (puti_data details) diffenv (is_float type)
                              "PutI" ;;
      match differentiated_expr with
      | Some differentiated_expr =>
          let descr := puti_descr details in
          b <- lift (int_of (base descr + total_sizeB diffenv)) ;;
          let descr_diff := mkIRRegArray b (elemTy descr) (nElems descr) in
          let bias := puti_bias details in
          let ix := puti_ix details in
          bias' <- lift (int_of (bias + total_sizeB diffenv)) ;;
          add_stmt (IRStmt_PutI
                      (mkIRPutI descr_diff ix bias' differentiated_expr))
      | None => ret tt
      end
  | IRStmt_Store _ addr data => instrument_store sb_in diffenv addr data None
  | IRStmt_StoreG details =>
      instrument_store sb_in diffenv (sg_addr details) (sg_data details)
                       (Some (sg_guard details))
  | IRStmt_LoadG det =>
      type <- lift (typeOfIRTemp sb_in (lg_dst det)) ;;
      c <- canConvertToI64 type ;;
      if c : bool then
        (if bool_decide (type = Ity_F64) then
           match lg_cvt det with
           | ILGop_Ident64 => ret tt | _ => tl_assert_False
           end
         else ret tt) ;;;
        (if bool_decide (type = Ity_F32) then
           match lg_cvt det with
           | ILGop_Ident32 => ret tt | _ => tl_assert_False
           end
         else ret tt) ;;;
        differentiated_expr_alt <-
          differentiate_or_warn (lg_alt det) diffenv (is_float type)
                                "alternative-LoadG" ;;
        match differentiated_expr_alt with
        | Some differentiated_expr_alt =>
            loadAddr <- new_temp Ity_I64 ;;
            fname <- load_helper type ;;
            let di := unsafeIRDirty_1_N loadAddr fname [lg_addr det] in
            add_stmt (IRStmt_Dirty di) ;;;
            loadAddr_reinterpreted <- new_temp type ;;
            e <- lift (convertFromInteger (IRExpr_RdTmp loadAddr) type) ;;
            add_stmt (IRStmt_WrTmp loadAddr_reinterpreted e) ;;;
            add_stmt (IRStmt_WrTmp
                        (add_IRTemp (lg_dst det) (t_offset diffenv))
                        (IRExpr_ITE (lg_guard det)
                           (IRExpr_RdTmp loadAddr_reinterpreted)
                           differentiated_expr_alt))
        | None => ret tt
        end
      else ret tt
  | IRStmt_CAS details =>
      printf "Did not instrument Ist_CAS statement.\n" [] ;;;
      add_stmt (IRStmt_WrTmp (add_IRTemp (oldLo details) (t_offset diffenv))
                             (IRExpr_Const (IRConst_F64 0))) ;;;
      if bool_decide (oldHi details <> IRTemp_INVALID) then
        add_stmt (IRStmt_WrTmp (add_IRTemp (oldHi details) (t_offset diffenv))
                               (IRExpr_Const (IRConst_F64 0)))
      else ret tt
  | IRStmt_LLSC _ _ _ _ =>
      printf "Did not instrument Ist_LLSC statement.\n" []
  | IRStmt_Dirty _ =>
      printf "Cannot instrument Ist_Dirty statement.\n" []
  | IRStmt_NoOp | IRStmt_IMark _ _ _ | IRStmt_AbiHint _ _ _ => ret tt
  | IRStmt_Exit _ _ _ _ | IRStmt_MBE _ => ret tt
  end ;;;
  add_stmt st_orig.

Fixpoint instrument_stmts (sb_in : IRSB) (diffenv : DiffEnv)
    (sts : list IRStmt) : M unit :=
  match sts with
  | [] => ret tt
  | st :: sts' =>
      instrument_stmt sb_in diffenv st ;;; instrument_stmts sb_in diffenv sts'
  end.

Fixpoint add_stmts (sts : list IRStmt) : M unit :=
  match sts with
  | [] => ret tt
  | st :: sts' => add_stmt st ;;; add_stmts sts'
  end.

(** The statements before the first [Ist_IMark], and the rest. *)
Fixpoint until_IMark (sts : list IRStmt) : list IRStmt * list IRStmt :=
  match sts with
  | [] => ([], [])
  | st :: sts' =>
      if is_IMark st then ([], sts)
      else let '(pre, rest) := until_IMark sts' in (st :: pre, rest)
  end.

(** [nl_instrument]: instrument a superblock. The output superblock starts
    as a copy of the input without its statements, and gets a second copy
    of the types of the temporaries. *)
Definition nl_instrument (sb_in : IRSB) (layout_total_sizeB : Z) : M IRSB :=
  let diffenv :=
    mkDiffEnv (Z.of_nat (length (tyenv sb_in))) layout_total_sizeB in
  (fun s => Ok tt (mkSt (mkIRSB (tyenv sb_in ++ tyenv sb_in) [])
                        (output s) (stmt_counter s))) ;;;
  let '(pre, rest) := until_IMark (stmts sb_in) in
  add_stmts pre ;;;
  instrument_stmts sb_in diffenv rest ;;;
  (fun s => Ok (sb_out s) s).

End Instrument.

End nl_main.

(** * Recording of expressions ([derivgrind/dg_bar.c], lines 184 to 661) *)

Module dg_bar.
Import VEX Run Run.Notations.

(** [DiffEnv], as far as [record_expr] reads it: [t_offset] and
    [layout->total_sizeB]. *)
Record DiffEnv := mkDiffEnv { t_offset : IRTemp; total_sizeB : Z }.

Section Record.

(** The state of the objects that the functions called by [record_expr]
    may change (the output superblock among them). *)
Variable W : Type.

(** [differentiate_expr(ex, diffenv)] with a [DiffEnv*]: the forward-mode
    differentiation of the tool, which [dg_bar.c] calls and does not define. *)
Variable differentiate_expr : IRExpr -> DiffEnv -> M W (option IRExpr).

(** [loadShadowMemory(diffenv->sb_out, addr, ty)], not defined in [dg_bar.c]. *)
Variable loadShadowMemory : IRExpr -> IRType -> M W (option IRExpr).

(** [mkIRConst_zero(type)], not defined in [dg_bar.c]. *)
Variable mkIRConst_zero : IRType -> IRExpr.

(** The branch of [record_expr] for [Iex_Triop] names [d2] and [d3] and
    does not declare them. *)
Variables d2 d3 : IRExpr.

(** A pointer to an expression that is used without a test against [NULL]. *)
Definition unchecked (p : option IRExpr) : IRExpr := default IRExpr_NULL p.

(** The selector of chunk [i] of a [V128] value and of a [V256] value. *)
Definition selector_V128 (i : nat) : IROp :=
  if bool_decide (i = 0%nat) then Iop_V128to64 else Iop_V128HIto64.
Definition selector_V256 (i : nat) : option IROp :=
  match i with
  | 0%nat => Some Iop_V256to64_0
  | 1%nat => Some Iop_V256to64_1
  | 2%nat => Some Iop_V256to64_2
  | 3%nat => Some Iop_V256to64_3
  | _ => None
  end.

(** The call of the helper for 64 bit, [dg_logical_and64] and the like. *)
Definition logical_call (helper : string) (arg1 d1 arg2 d2 : IRExpr) : IRExpr :=
  mkIRExprCCall Ity_I64 helper [arg1; d1; arg2; d2].

(** The body of the [for] loops of [DG_HANDLE_LOGICAL]: the helper on the
    parts of the operands and of their derivatives that [selector] selects. *)
Definition logical_part (helper : string) (selector : IROp)
    (arg1 d1 arg2 d2 : IRExpr) : IRExpr :=
  let arg1_part := IRExpr_Unop selector arg1 in
  let arg2_part := IRExpr_Unop selector arg2 in
  let d1_part := IRExpr_Unop selector d1 in
  let d2_part := IRExpr_Unop selector d2 in
  logical_call helper arg1_part d1_part arg2_part d2_part.

(** [DG_HANDLE_LOGICAL(Op, op)]: logical "and", "or", "xor" on 32, 64, 128
    and 256 bit; [helper] is the name ["dg_logical_" #op "64"]. The
    derivative [d1] of [arg1] is not tested against [NULL]. *)
Definition DG_HANDLE_LOGICAL (helper : string) (w : Width)
    (arg1 arg2 d2 : IRExpr) (diffenv : DiffEnv) : M W (option IRExpr) :=
  d1 <- differentiate_expr arg1 diffenv ;;
  let d1 := unchecked d1 in
  match w with
  | w32 =>
      let zero32 := IRExpr_Const (IRConst_U32 0) in
      let arg1_64 := IRExpr_Binop Iop_32HLto64 zero32 arg1 in
      let d1_64 := IRExpr_Binop Iop_32HLto64 zero32 d1 in
      let arg2_64 := IRExpr_Binop Iop_32HLto64 zero32 arg2 in
      let d2_64 := IRExpr_Binop Iop_32HLto64 zero32 d2 in
      let res := logical_call helper arg1_64 d1_64 arg2_64 d2_64 in
      ret (Some (IRExpr_Unop Iop_64to32 res))
  | w64 =>
      let res := logical_call helper arg1 d1 arg2 d2 in
      ret (Some res)
  | wV128 =>
      let res i := logical_part helper (selector_V128 i) arg1 d1 arg2 d2 in
      ret (Some (IRExpr_Binop Iop_64HLtoV128 (res 1%nat) (res 0%nat)))
  | wV256 =>
      let res i := selector ← selector_V256 i;
                   Some (logical_part helper selector arg1 d1 arg2 d2) in
      match res 0%nat, res 1%nat, res 2%nat, res 3%nat with
      | Some res0, Some res1, Some res2, Some res3 =>
          ret (Some (IRExpr_Qop Iop_64x4toV256 res3 res2 res1 res0))
      | _, _, _, _ => undefined
      end
  end.

Definition F64_two := IRExpr_Const (IRConst_F64 2).
Definition F32_two := IRExpr_Const (IRConst_F32 2).
Definition I64_of_F64_two := IRExpr_Unop Iop_ReinterpF64asI64 F64_two.
Definition I32_of_F32_two := IRExpr_Unop Iop_ReinterpF32asI32 F32_two.
Definition I64_of_F32_twos :=
  IRExpr_Binop Iop_32HLto64 I32_of_F32_two I32_of_F32_two.

(** The constant two of [DERIVATIVE_OF_BINOP_SQRT(suffix, consttwo)]. *)
Definition binop_sqrt_consttwo (sfx : Suffix) : option IRExpr :=
  match sfx with
  | sF64 => Some F64_two
  | sF32 => Some F32_two
  | s64Fx2 => Some (IRExpr_Binop Iop_64HLtoV128 I64_of_F64_two I64_of_F64_two)
  | s64Fx4 =>
      Some (IRExpr_Qop Iop_64x4toV256 I64_of_F64_two I64_of_F64_two
                       I64_of_F64_two I64_of_F64_two)
  | s32Fx4 =>
      Some (IRExpr_Binop Iop_64HLtoV128 I64_of_F32_twos I64_of_F32_twos)
  | s32Fx8 =>
      Some (IRExpr_Qop Iop_64x4toV256 I64_of_F32_twos I64_of_F32_twos
                       I64_of_F32_twos I64_of_F32_twos)
  | s32Fx2 => None
  end.

(** The constant two of [DERIVATIVE_OF_UNOP_SQRT(suffix, consttwo)]. *)
Definition unop_sqrt_consttwo (sfx : Suffix) : option IRExpr :=
  let consttwo_32 := I32_of_F32_two in
  let consttwo_32x2 := IRExpr_Binop Iop_32HLto64 consttwo_32 consttwo_32 in
  let consttwo_64 := I64_of_F64_two in
  match sfx with
  | s64Fx2 => Some (IRExpr_Binop Iop_64HLtoV128 consttwo_64 consttwo_64)
  | s64Fx4 =>
      Some (IRExpr_Qop Iop_64x4toV256 consttwo_64 consttwo_64
                       consttwo_64 consttwo_64)
  | s32Fx4 => Some (IRExpr_Binop Iop_64HLtoV128 consttwo_32x2 consttwo_32x2)
  | s32Fx8 =>
      Some (IRExpr_Qop Iop_64x4toV256 consttwo_32x2 consttwo_32x2
                       consttwo_32x2 consttwo_32x2)
  | _ => None
  end.

(** The constant [0.6931471805599453094172321214581], as a [double]. *)
Definition ln2 : float := 0x1.62e42fefa39efp-1%float.

(** The [switch] of the branch for [Iex_Triop]. *)
Definition record_triop (op : IROp) (arg1 arg2 arg3 : IRExpr) : option IRExpr :=
  let DERIVATIVE_OF_TRIOP_DIV sfx :=
    IRExpr_Triop (Iop_Div sfx) arg1
      (IRExpr_Triop (Iop_Sub sfx) arg1
         (IRExpr_Triop (Iop_Mul sfx) arg1 d2 arg3)
         (IRExpr_Triop (Iop_Mul sfx) arg1 d3 arg2))
      (IRExpr_Triop (Iop_Mul sfx) arg1 arg3 arg3) in
  match op with
  | Iop_Add sfx => Some (IRExpr_Triop (Iop_Add sfx) arg1 d2 d3)
  | Iop_Sub sfx => Some (IRExpr_Triop (Iop_Sub sfx) arg1 d2 d3)
  | Iop_Mul sfx =>
      Some (IRExpr_Triop (Iop_Add sfx) arg1
              (IRExpr_Triop (Iop_Mul sfx) arg1 d2 arg3)
              (IRExpr_Triop (Iop_Mul sfx) arg1 d3 arg2))
  | Iop_Div s32Fx2 => None (* there is no Iop_Div32Fx2 *)
  | Iop_Div sfx => Some (DERIVATIVE_OF_TRIOP_DIV sfx)
  | Iop_AtanF64 =>
      let fraction := IRExpr_Triop Iop_DivF64 arg1 arg2 arg3 in
      let fraction_d := DERIVATIVE_OF_TRIOP_DIV sF64 in
      Some (IRExpr_Triop Iop_DivF64 arg1 fraction_d
              (IRExpr_Triop Iop_AddF64 arg1 (IRExpr_Const (IRConst_F64 1))
                 (IRExpr_Triop Iop_MulF64 arg1 fraction fraction)))
  | Iop_ScaleF64 => Some (IRExpr_Triop Iop_ScaleF64 arg1 d2 arg3)
  | Iop_Yl2xF64 =>
      Some (IRExpr_Triop Iop_AddF64 arg1
              (IRExpr_Triop Iop_Yl2xF64 arg1 d2 arg3)
              (IRExpr_Triop Iop_DivF64 arg1
                 (IRExpr_Triop Iop_MulF64 arg1 arg2 d3)
                 (IRExpr_Triop Iop_MulF64 arg1
                    (IRExpr_Const (IRConst_F64 ln2)) arg3)))
  | Iop_Yl2xp1F64 =>
      Some (IRExpr_Triop Iop_AddF64 arg1
              (IRExpr_Triop Iop_Yl2xp1F64 arg1 d2 arg3)
              (IRExpr_Triop Iop_DivF64 arg1
                 (IRExpr_Triop Iop_MulF64 arg1 arg2 d3)
                 (IRExpr_Triop Iop_MulF64 arg1
                    (IRExpr_Const (IRConst_F64 ln2))
                    (IRExpr_Triop Iop_AddF64 arg1 arg3
                       (IRExpr_Const (IRConst_F64 1))))))
  | _ => None
  end.

(** The [switch] of the branch for [Iex_Binop]; [d2] here is the derivative
    of [arg2], which the branch has tested against [NULL]. *)
Definition record_binop (op : IROp) (arg1 arg2 d2 : IRExpr)
    (diffenv : DiffEnv) : M W (option IRExpr) :=
  let with_d1 (k : IRExpr -> IRExpr) : M W (option IRExpr) :=
    d1 <- differentiate_expr arg1 diffenv ;;
    match d1 with
    | None => ret None
    | Some d1 => ret (Some (k d1))
    end in
  match op with
  | Iop_And w => DG_HANDLE_LOGICAL "dg_logical_and64" w arg1 arg2 d2 diffenv
  | Iop_Or w => DG_HANDLE_LOGICAL "dg_logical_or64" w arg1 arg2 d2 diffenv
  | Iop_Xor w => DG_HANDLE_LOGICAL "dg_logical_xor64" w arg1 arg2 d2 diffenv
  | Iop_Sqrt sfx =>
      match binop_sqrt_consttwo sfx with
      | Some consttwo =>
          let numerator := d2 in
          let denominator :=
            IRExpr_Triop (Iop_Mul sfx) arg1 consttwo
              (IRExpr_Binop (Iop_Sqrt sfx) arg1 arg2) in
          ret (Some (IRExpr_Triop (Iop_Div sfx) arg1 numerator denominator))
      | None => ret None
      end
  | Iop_F64toF32 => ret (Some (IRExpr_Binop Iop_F64toF32 arg1 d2))
  | Iop_2xm1F64 =>
      ret (Some (IRExpr_Triop Iop_MulF64 arg1
                   (IRExpr_Triop Iop_MulF64 arg1
                      (IRExpr_Const (IRConst_F64 ln2)) d2)
                   (IRExpr_Triop Iop_AddF64 arg1
                      (IRExpr_Const (IRConst_F64 1))
                      (IRExpr_Binop Iop_2xm1F64 arg1 arg2))))
  | Iop_Mul64F0x2 =>
      with_d1 (fun d1 =>
        IRExpr_Binop Iop_Add64F0x2
          (IRExpr_Binop Iop_Mul64F0x2 d1 arg2)
          (IRExpr_Binop Iop_Mul64F0x2 arg1 d2))
  | Iop_Mul32F0x4 =>
      with_d1 (fun d1 =>
        IRExpr_Binop Iop_Add32F0x4
          (IRExpr_Binop Iop_Mul32F0x4 d1 arg2)
          (IRExpr_Binop Iop_Mul32F0x4 arg1 d2))
  | Iop_Div64F0x2 =>
      with_d1 (fun d1 =>
        IRExpr_Binop Iop_Div64F0x2
          (IRExpr_Binop Iop_Sub64F0x2
             (IRExpr_Binop Iop_Mul64F0x2 d1 arg2)
             (IRExpr_Binop Iop_Mul64F0x2 arg1 d2))
          (IRExpr_Binop Iop_Mul64F0x2 arg2 arg2))
  | Iop_Div32F0x4 =>
      with_d1 (fun d1 =>
        IRExpr_Binop Iop_Div32F0x4
          (IRExpr_Binop Iop_Sub32F0x4
             (IRExpr_Binop Iop_Mul32F0x4 d1 arg2)
             (IRExpr_Binop Iop_Mul32F0x4 arg1 d2))
          (IRExpr_Binop Iop_Mul32F0x4 arg2 arg2))
  | Iop_Min64F0x2 =>
      with_d1 (fun d1 =>
        let d1_lo := IRExpr_Unop Iop_V128to64 d1 in
        let d2_lo := IRExpr_Unop Iop_V128to64 d2 in
        let d1_hi := IRExpr_Unop Iop_V128HIto64 d1 in
        let arg1_lo_f :=
          IRExpr_Unop Iop_ReinterpI64asF64 (IRExpr_Unop Iop_V128to64 arg1) in
        let arg2_lo_f :=
          IRExpr_Unop Iop_ReinterpI64asF64 (IRExpr_Unop Iop_V128to64 arg2) in
        let cond := IRExpr_Binop Iop_CmpF64 arg1_lo_f arg2_lo_f in
        IRExpr_Binop Iop_64HLtoV128 d1_hi
          (IRExpr_ITE (IRExpr_Unop Iop_32to1 cond) d1_lo d2_lo))
  | Iop_I64StoF64 | Iop_I64UtoF64 | Iop_RoundF64toInt =>
      ret (Some (mkIRConst_zero Ity_F64))
  | Iop_I64StoF32 | Iop_I64UtoF32 | Iop_I32StoF32 | Iop_I32UtoF32 =>
      ret (Some (mkIRConst_zero Ity_F32))
  | Iop_64HLto128 | Iop_32HLto64 | Iop_16HLto32 | Iop_8HLto16
  | Iop_64HLtoV128 | Iop_V128HLtoV256
  | Iop_Add64F0x2 | Iop_Sub64F0x2 | Iop_Add32F0x4 | Iop_Sub32F0x4
  | Iop_SetV128lo32 | Iop_SetV128lo64
  | Iop_InterleaveHI8x16 | Iop_InterleaveHI16x8
  | Iop_InterleaveHI32x4 | Iop_InterleaveHI64x2
  | Iop_InterleaveLO8x16 | Iop_InterleaveLO16x8
  | Iop_InterleaveLO32x4 | Iop_InterleaveLO64x2 =>
      with_d1 (fun d1 => IRExpr_Binop op d1 d2)
  | _ => ret None
  end.

(** The [switch] of the branch for [Iex_Unop]; [d] is the derivative of
    [arg], which the branch has tested against [NULL]. *)
Definition record_unop (op : IROp) (arg d : IRExpr) : option IRExpr :=
  match op with
  | Iop_AbsF64 =>
      let cond := IRExpr_Binop Iop_CmpF64 arg (IRExpr_Const (IRConst_F64 0)) in
      let minus_d := IRExpr_Unop Iop_NegF64 d in
      Some (IRExpr_ITE (IRExpr_Unop Iop_32to1 cond) minus_d d)
  | Iop_AbsF32 =>
      let cond := IRExpr_Binop Iop_CmpF32 arg (IRExpr_Const (IRConst_F32 0)) in
      let minus_d := IRExpr_Unop Iop_NegF32 d in
      Some (IRExpr_ITE (IRExpr_Unop Iop_32to1 cond) minus_d d)
  | Iop_Sqrt sfx =>
      match unop_sqrt_consttwo sfx with
      | Some consttwo =>
          let numerator := d in
          let default_rounding := IRExpr_Const (IRConst_U32 Irrm_ZERO) in
          let denominator :=
            IRExpr_Triop (Iop_Mul sfx) default_rounding consttwo
              (IRExpr_Unop (Iop_Sqrt sfx) arg) in
          Some (IRExpr_Triop (Iop_Div sfx) default_rounding
                  numerator denominator)
      | None => None
      end
  | Iop_Sqrt64F0x2 =>
      let numerator := d in
      let consttwo_f64 := IRExpr_Const (IRConst_F64 2) in
      let consttwo_i64 := IRExpr_Unop Iop_ReinterpF64asI64 consttwo_f64 in
      let consttwo_v128 :=
        IRExpr_Binop Iop_64HLtoV128 consttwo_i64 consttwo_i64 in
      let denominator :=
        IRExpr_Binop Iop_Mul64F0x2 consttwo_v128
          (IRExpr_Unop Iop_Sqrt64F0x2 arg) in
      Some (IRExpr_Binop Iop_Div64F0x2 numerator denominator)
  | Iop_Sqrt32F0x4 =>
      let numerator := d in
      let consttwo_f32 := IRExpr_Const (IRConst_F32 2) in
      let consttwo_i32 := IRExpr_Unop Iop_ReinterpF32asI32 consttwo_f32 in
      let consttwo_i64 := IRExpr_Binop Iop_32HLto64 consttwo_i32 consttwo_i32 in
      let consttwo_v128 :=
        IRExpr_Binop Iop_64HLtoV128 consttwo_i64 consttwo_i64 in
      let denominator :=
        IRExpr_Binop Iop_Mul32F0x4 consttwo_v128
          (IRExpr_Unop Iop_Sqrt32F0x4 arg) in
      Some (IRExpr_Binop Iop_Div32F0x4 numerator denominator)
  | Iop_I32StoF64 | Iop_I32UtoF64 => Some (IRExpr_Const (IRConst_F64 0))
  | Iop_F32toF64
  | Iop_ReinterpI64asF64 | Iop_ReinterpF64asI64
  | Iop_ReinterpI32asF32 | Iop_ReinterpF32asI32
  | Iop_NegF64 | Iop_NegF32
  | Iop_64to8 | Iop_32to8 | Iop_64to16
  | Iop_16to8 | Iop_16HIto8
  | Iop_32to16 | Iop_32HIto16
  | Iop_64to32 | Iop_64HIto32
  | Iop_V128to64 | Iop_V128HIto64
  | Iop_V256toV128_0 | Iop_V256toV128_1
  | Iop_8Uto16 | Iop_8Uto32 | Iop_8Uto64
  | Iop_16Uto32 | Iop_16Uto64
  | Iop_32Uto64
  | Iop_8Sto16 | Iop_8Sto32 | Iop_8Sto64
  | Iop_16Sto32 | Iop_16Sto64
  | Iop_32Sto64
  | Iop_ZeroHI64ofV128 | Iop_ZeroHI96ofV128
  | Iop_ZeroHI112ofV128 | Iop_ZeroHI120ofV128
  | Iop_64UtoV128 | Iop_32UtoV128
  | Iop_V128to32
  | Iop_128HIto64
  | Iop_128to64 => Some (IRExpr_Unop op d)
  | _ => None
  end.

(** [record_expr]. Its result is declared as an [IRExpr8] and is built as
    an [IRExpr*] in all branches but the first; [nullexpr8()] and [NULL]
    are both [None] here, and [isnullexpr8] is [isNULL]. *)
Fixpoint record_expr (ex : IRExpr) (diffenv : DiffEnv) : M W (option IRExpr) :=
  match ex with
  | IRExpr_Qop _ _ _ _ _ => ret None
  | IRExpr_Triop op arg1 arg2 arg3 =>
      i2 <- record_expr arg2 diffenv ;;
      i3 <- record_expr arg3 diffenv ;;
      if isNULL i2 || isNULL i3 then ret None
      else ret (record_triop op arg1 arg2 arg3)
  | IRExpr_Binop op arg1 arg2 =>
      d2 <- differentiate_expr arg2 diffenv ;;
      match d2 with
      | None => ret None
      | Some d2 => record_binop op arg1 arg2 d2 diffenv
      end
  | IRExpr_Unop op arg =>
      d <- differentiate_expr arg diffenv ;;
      match d with
      | None => ret None
      | Some d => ret (record_unop op arg d)
      end
  | IRExpr_Const con => ret (Some (nl_main.zero_of con))
  | IRExpr_ITE cond iftrue iffalse =>
      dtrue <- differentiate_expr iftrue diffenv ;;
      dfalse <- differentiate_expr iffalse diffenv ;;
      match dtrue, dfalse with
      | Some dtrue, Some dfalse => ret (Some (IRExpr_ITE cond dtrue dfalse))
      | _, _ => ret None
      end
  | IRExpr_RdTmp tmp =>
      ret (Some (IRExpr_RdTmp (add_IRTemp tmp (t_offset diffenv))))
  | IRExpr_Get offset ty =>
      o <- lift (int_of (offset + total_sizeB diffenv)) ;;
      ret (Some (IRExpr_Get o ty))
  | IRExpr_GetI descr ix bias =>
      b <- lift (int_of (base descr + total_sizeB diffenv)) ;;
      let descr_diff := mkIRRegArray b (elemTy descr) (nElems descr) in
      bias' <- lift (int_of (bias + total_sizeB diffenv)) ;;
      ret (Some (IRExpr_GetI descr_diff ix bias'))
  | IRExpr_Load _ ty addr => loadShadowMemory addr ty
  | IRExpr_NULL => undefined
  | _ => ret None
  end.

End Record.

End dg_bar.

(** * The tape ([bar/dg_bar_tape.c], which is not among the files) *)

Module dg_bar_tape.

(** A tape entry: the indices of the two operands and the two partial
    derivatives. *)
Record TapeEntry := mkTapeEntry {
  index1 : Z; index2 : Z; diff1 : float; diff2 : float
}.

(** The tape, oldest entry first; the entry at position [i] (counted from
    1) has index [i]. The recorded values, when values are recorded. *)
Record Tape := mkTape { entries : list TapeEntry; values : list float }.

(** Modelled from the spec: [tapeAddStatement_noActivityAnalysis] is defined
    in [bar/dg_bar_tape.c], which is missing. The non-pruning variant always
    appends; indices are assigned sequentially starting at 1. *)
Definition tapeAddStatement_noActivityAnalysis
    (index1 index2 : Z) (diff1 diff2 : float) (t : Tape) : Z * Tape :=
  (Z.of_nat (length (entries t)) + 1,
   mkTape (entries t ++ [mkTapeEntry index1 index2 diff1 diff2]) (values t)).

(** Modelled from the spec: [tapeAddStatement] is defined in
    [bar/dg_bar_tape.c], which is missing. If both partial derivatives are
    exactly zero and both operand indices are 0, it returns 0 without
    appending; otherwise it appends. *)
Definition tapeAddStatement
    (index1 index2 : Z) (diff1 diff2 : float) (t : Tape) : Z * Tape :=
  if (index1 =? 0) && (index2 =? 0)
     && (diff1 =? 0)%float && (diff2 =? 0)%float
  then (0, t)
  else tapeAddStatement_noActivityAnalysis index1 index2 diff1 diff2 t.

(** Modelled from the spec: [valuesAddStatement] is defined in
    [bar/dg_bar_tape.c], which is missing. It appends to the parallel array
    of recorded primal values. *)
Definition valuesAddStatement (value : float) (t : Tape) : Tape :=
  mkTape (entries t) (values t ++ [value]).

End dg_bar_tape.

(** * The callers of the tape ([bar/dg_bar.c] and [dg_main.c]) *)

Module dg_main.
Import dg_bar_tape.

(** [*(double* )&bits]: the [double] with the given 64 bits. *)
Definition double_of_bits (bits : Z) : float :=
  let sign := Z.testbit bits 63 in
  let e := (bits `div` 2 ^ 52) `mod` 2 ^ 11 in
  let m := bits `mod` 2 ^ 52 in
  SF2Prim
    (if e =? 0 then
       if m =? 0 then S754_zero sign
       else S754_finite sign (Z.to_pos m) (-1074)
     else if e =? 2047 then
       if m =? 0 then S754_infinity sign else S754_nan
     else S754_finite sign (Z.to_pos (m + 2 ^ 52)) (e - 1075)).

(** [dg_bar_writeToTape_call]: assemble the 8-byte indices from the 4-byte
    beginnings in both shadow layers and add the statement to the tape. *)
Definition dg_bar_writeToTape_call
    (index1Lo index1Hi index2Lo index2Hi diff1 diff2 : Z) (t : Tape)
  : Z * Tape :=
  let index1 := wrap 32 index1Lo + 2 ^ 32 * wrap 32 index1Hi in
  let index2 := wrap 32 index2Lo + 2 ^ 32 * wrap 32 index2Hi in
  tapeAddStatement index1 index2 (double_of_bits diff1)
                   (double_of_bits diff2) t.

(** The globals of [dg_main.c] that the client requests for new indices
    read: the mode (['d'], ['b'] or ['t']) and whether values are recorded. *)
Record Settings := mkSettings { mode : ascii; bar_record_values : bool }.

(** What a [TapeBlockInfo] points to. *)
Record TapeBlockInfo := mkTapeBlockInfo {
  index1_at : Z; index2_at : Z; diff1_at : float; diff2_at : float;
  value_at : float
}.

(** The branch of [dg_handle_client_request] for [VG_USERREQ__NEW_INDEX]
    ([noActivityAnalysis = false]) and for
    [VG_USERREQ__NEW_INDEX_NOACTIVITYANALYSIS] ([true]); it returns what is
    stored at [newindexaddr], if anything, and the tape. *)
Definition new_index_request (cfg : Settings) (noActivityAnalysis : bool)
    (tbi : TapeBlockInfo) (t : Tape) : option Z * Tape :=
  if negb (bool_decide (mode cfg = "b"%char)) then (None, t)
  else
    let '(newindex, t) :=
      if noActivityAnalysis then
        tapeAddStatement_noActivityAnalysis
          (index1_at tbi) (index2_at tbi) (diff1_at tbi) (diff2_at tbi) t
      else
        tapeAddStatement
          (index1_at tbi) (index2_at tbi) (diff1_at tbi) (diff2_at tbi) t in
    let t := if bar_record_values cfg && negb (newindex =? 0)
             then valuesAddStatement (value_at tbi) t else t in
    (Some newindex, t).

(** ** [dg_post_clo_init]

    [VG_(strtok_r)(s, ",", &ssaveptr)] of the core of Valgrind works as
    [strtok_r] of C: it skips the delimiters at the start; if no character
    is left it returns [NULL]; otherwise the token goes up to the next
    delimiter, which it overwrites with the end of the string and behind
    which the next call goes on, or up to the end of the string. A call is
    embedded as a function of the characters that are left; it returns the
    token and the characters that are left behind it. *)

Fixpoint skip_delimiters (delim : ascii) (s : string) : string :=
  match s with
  | String c s' => if Ascii.eqb c delim then skip_delimiters delim s' else s
  | EmptyString => EmptyString
  end.

Fixpoint split_token (delim : ascii) (s : string) : string * string :=
  match s with
  | String c s' =>
      if Ascii.eqb c delim then (EmptyString, s')
      else let '(token, rest) := split_token delim s' in (String c token, rest)
  | EmptyString => (EmptyString, EmptyString)
  end.

Definition strtok_r (delim : ascii) (s : string) : option (string * string) :=
  match skip_delimiters delim s with
  | EmptyString => None
  | String c s' => Some (split_token delim (String c s'))
  end.

(** The globals of [dg_main.c] and of [bar/dg_bar.c] that
    [dg_post_clo_init] reads and writes, with what it has printed and
    which parts of the tool it has initialized. *)
Record Globals := mkGlobals {
  settings : Settings;
  typegrind : bool;
  recording_stop_indices_str : option string;
  recording_stop_indices : option (list Z);
  dg_disable : option (list Z);
  printed : list string;
  initialized : list string
}.

Section Post_clo_init.
Import Run Run.Notations.

(** [VG_(strtoull10)] of the core of Valgrind. *)
Variable strtoull10 : string -> Z.

(** What is found in the memory that [VG_(malloc)] hands out. *)
Variable garbage : Z -> Z.

(** The number of threads of Valgrind. *)
Variable VG_N_THREADS : Z.

Definition print (message : string) : M Globals unit :=
  fun g => Ok tt (mkGlobals (settings g) (typegrind g)
                    (recording_stop_indices_str g) (recording_stop_indices g)
                    (dg_disable g) (printed g ++ [message]) (initialized g)).

Definition initialize (part : string) : M Globals unit :=
  fun g => Ok tt (mkGlobals (settings g) (typegrind g)
                    (recording_stop_indices_str g) (recording_stop_indices g)
                    (dg_disable g) (printed g) (initialized g ++ [part])).

(** [indices[i] = v], in an array of as many elements as were allocated. *)
Definition store_index (indices : list Z) (i v : Z) : option (list Z) :=
  if (0 <=? i) && bool_decide (Z.to_nat i < length indices)%nat
  then Some (<[Z.to_nat i := v]> indices) else None.

(** The loop [while(indexstr){ indices[i] = VG_(strtoull10)(indexstr, NULL);
    i++; indexstr = VG_(strtok_r)(NULL, ",", &ssaveptr); }] and, behind it,
    [indices[i] = 0]. [indexstr] is the token found, with the characters
    that are left behind it. Every round takes a character at least, which
    bounds the number of rounds. *)
Fixpoint read_indices (fuel : nat) (indexstr : option (string * string))
    (i : Z) (indices : list Z) : option (list Z) :=
  match indexstr with
  | None => store_index indices i 0
  | Some (token, ssaveptr) =>
      match fuel with
      | O => None
      | S fuel' =>
          indices ← store_index indices i (strtoull10 token);
          i' ← int_of (i + 1);
          read_indices fuel' (strtok_r "," ssaveptr) i' indices
      end
  end.

(** The parsing of the comma-separated list of indices: the array
    [indices] has [maxsize = strlen/2+2] elements. *)
Definition parse_recording_stop_indices (recording_stop_indices_str : string)
  : option (list Z) :=
  let strlen := Z.of_nat (String.length recording_stop_indices_str) in
  maxsize ← int_of (strlen `div` 2 + 2);
  let indices := garbage <$> seqZ 0 maxsize in
  read_indices (S (String.length recording_stop_indices_str))
               (strtok_r "," recording_stop_indices_str) 0 indices.

Definition dg_post_clo_init : M Globals unit :=
  fun g =>
  let not_recording := negb (bool_decide (mode (settings g) = "b"%char)) in
  ((if typegrind g && not_recording then
      print "Option --typegrind=yes can only be used in recording mode (--record=path).\n" ;;;
      tl_assert_False
    else ret tt) ;;;
   (if bar_record_values (settings g) && not_recording then
      print "Option --record-values=yes can only be used in recording mode (--record=path).\n" ;;;
      tl_assert_False
    else ret tt) ;;;
   (if negb (isNULL (recording_stop_indices_str g)) && not_recording then
      print "Option --record-stop can only be used in recording mode (--record=path).\n" ;;;
      tl_assert_False
    else ret tt) ;;;
   (match recording_stop_indices_str g with
    | Some str =>
        indices <- lift (parse_recording_stop_indices str) ;;
        fun g => Ok tt (mkGlobals (settings g) (typegrind g)
                          (recording_stop_indices_str g) (Some indices)
                          (dg_disable g) (printed g) (initialized g))
    | None => ret tt
    end) ;;;
   (n <- lift (int_of (VG_N_THREADS + 1)) ;;
    fun g => Ok tt (mkGlobals (settings g) (typegrind g)
                      (recording_stop_indices_str g) (recording_stop_indices g)
                      (Some (replicate (Z.to_nat n) 0))
                      (printed g) (initialized g))) ;;;
   (if bool_decide (mode (settings g) = "d"%char) then
      initialize "dg_dot"
    else if bool_decide (mode (settings g) = "b"%char) then
      initialize "dg_bar" ;;; initialize "dg_bar_tape"
    else if bool_decide (mode (settings g) = "t"%char) then
      initialize "dg_trick"
    else ret tt)) g.

End Post_clo_init.

End dg_main.

(** * The handling of expressions in recording mode ([bar/dg_bar.c]) *)

Module bar_dg_bar.
Import VEX.

(** [DiffEnv] ([dg_utils.h], which is not among the files), as far as the
    files read it: the offset of the shadow temporaries, the offset of the
    shadow guest state, and the temporary that holds whether a CAS
    succeeded. The member [sb_out] is passed on its own. *)
Record DiffEnv := mkDiffEnv {
  tmp_offset : IRTemp; gs_offset : Z; cas_succeeded : IRTemp
}.

(** An expression of the recording mode: the two expressions for the lower
    and for the higher layer ([((IRExpr** )expr)[0]] and [[1]]). *)
Definition Layers : Type := IRExpr * IRExpr.

(** [dg_bar_wrtmp]. An [IRTemp] is a [UInt], whose arithmetic wraps. *)
Definition dg_bar_wrtmp (diffenv : DiffEnv) (temp : IRTemp) (expr : Layers)
    (sb_out : IRSB) : IRSB :=
  let spLo := IRStmt_WrTmp (wrap 32 (temp + tmp_offset diffenv)) expr.1 in
  let sb_out := addStmtToIRSB sb_out spLo in
  let spHi :=
    IRStmt_WrTmp (wrap 32 (temp + 2 * tmp_offset diffenv)) expr.2 in
  addStmtToIRSB sb_out spHi.

(** [dg_bar_rdtmp] *)
Definition dg_bar_rdtmp (diffenv : DiffEnv) (temp : IRTemp) : Layers :=
  let exLo := IRExpr_RdTmp (wrap 32 (temp + tmp_offset diffenv)) in
  let exHi := IRExpr_RdTmp (wrap 32 (temp + 2 * tmp_offset diffenv)) in
  (exLo, exHi).

(** [dg_bar_writeToTape]: add the dirty call that writes to the tape, and
    split the [I64] that it returns into the two layers. *)
Definition dg_bar_writeToTape
    (index1Lo index1Hi index2Lo index2Hi diff1 diff2 : IRExpr)
    (sb_out : IRSB) : Layers * IRSB :=
  let '(returnindex, sb_out) := newIRTemp sb_out Ity_I64 in
  let dd :=
    unsafeIRDirty_1_N returnindex "dg_bar_writeToTape_call"
      [index1Lo; index1Hi; index2Lo; index2Hi;
       IRExpr_Unop Iop_ReinterpF64asI64 diff1;
       IRExpr_Unop Iop_ReinterpF64asI64 diff2] in
  let sb_out := addStmtToIRSB sb_out (IRStmt_Dirty dd) in
  let exLo_i32 := IRExpr_Unop Iop_64to32 (IRExpr_RdTmp returnindex) in
  let exHi_i32 := IRExpr_Unop Iop_64HIto32 (IRExpr_RdTmp returnindex) in
  let exLo :=
    IRExpr_Binop Iop_32HLto64 (IRExpr_Const (IRConst_U32 0)) exLo_i32 in
  let exHi :=
    IRExpr_Binop Iop_32HLto64 (IRExpr_Const (IRConst_U32 0)) exHi_i32 in
  ((exLo, exHi), sb_out).

End bar_dg_bar.

(** * The instrumentation of a superblock by the tool ([dg_main.c]) *)

Module dg_instrumentation.
Import VEX Run Run.Notations bar_dg_bar.

Section Instrument.

(** [typeOfIRExpr(tyenv, e)] of libVEX. *)
Variable typeOfIRExpr : list IRType -> IRExpr -> IRType.

(** [addressesOfCAS(det, sb_out, &addr_Lo, &addr_Hi)], which is not among
    the files. *)
Variable addressesOfCAS : IRCAS -> M IRSB (IRExpr * IRExpr).

(** The handling of a statement in the three modes
    ([dg_dot_handle_statement], [dg_bar_handle_statement],
    [dg_trick_handle_statement]), which works on the output superblock and
    may set [diffenv->cas_succeeded]. *)
Variable dg_dot_handle_statement : DiffEnv -> IRStmt -> M IRSB DiffEnv.
Variable dg_bar_handle_statement : DiffEnv -> IRStmt -> M IRSB DiffEnv.
Variable dg_trick_handle_statement : DiffEnv -> IRStmt -> M IRSB DiffEnv.

Definition add_stmt (st : IRStmt) : M IRSB unit :=
  fun sb_out => Ok tt (addStmtToIRSB sb_out st).

(** [e == NULL] for a pointer to an expression. *)
Definition is_NULL_expr (e : IRExpr) : bool :=
  match e with IRExpr_NULL => true | _ => false end.

(** [dg_original_statement]: add what the original statement did to the
    output superblock. If the success of a CAS has been tested already,
    the result of this test is used. *)
Definition dg_original_statement (diffenv : DiffEnv) (st_orig : IRStmt)
  : M IRSB unit :=
  match st_orig with
  | IRStmt_CAS det =>
      if bool_decide (cas_succeeded diffenv <> IRTemp_INVALID) then
        fun sb_out =>
        (let type := typeOfIRExpr (tyenv sb_out) (expdLo det) in
         let double_element := negb (is_NULL_expr (expdHi det)) in
         addrs <- addressesOfCAS det ;;
         let addr_Lo := addrs.1 in
         let addr_Hi := addrs.2 in
         add_stmt (IRStmt_WrTmp (oldLo det)
                     (IRExpr_Load (cas_end det) type addr_Lo)) ;;;
         (if double_element then
            add_stmt (IRStmt_WrTmp (oldHi det)
                        (IRExpr_Load (cas_end det) type addr_Hi))
          else ret tt) ;;;
         let store_Lo :=
           IRExpr_ITE (IRExpr_RdTmp (cas_succeeded diffenv)) (dataLo det)
                      (IRExpr_Load (cas_end det) type addr_Lo) in
         add_stmt (IRStmt_Store (cas_end det) addr_Lo store_Lo) ;;;
         (if double_element then
            let store_Hi :=
              IRExpr_ITE (IRExpr_RdTmp (cas_succeeded diffenv)) (dataHi det)
                         (IRExpr_Load (cas_end det) type addr_Hi) in
            add_stmt (IRStmt_Store (cas_end det) addr_Hi store_Hi)
          else ret tt)) sb_out
      else add_stmt st_orig
  | _ => add_stmt st_orig
  end.

(** The second loop of [dg_instrument], for the statements from the first
    instruction mark on; it counts the statements. *)
Fixpoint instrument_stmts (mode : ascii) (diffenv : DiffEnv)
    (sts : list IRStmt) (stmt_counter : Z) : M IRSB Z :=
  match sts with
  | [] => ret stmt_counter
  | st_orig :: sts' =>
      let stmt_counter := wrap 64 (stmt_counter + 1) in
      let diffenv :=
        mkDiffEnv (tmp_offset diffenv) (gs_offset diffenv) IRTemp_INVALID in
      diffenv <-
        (if bool_decide (mode = "d"%char) then
           dg_dot_handle_statement diffenv st_orig
         else if bool_decide (mode = "b"%char) then
           dg_bar_handle_statement diffenv st_orig
         else if bool_decide (mode = "t"%char) then
           dg_trick_handle_statement diffenv st_orig
         else ret diffenv) ;;
      dg_original_statement diffenv st_orig ;;;
      instrument_stmts mode diffenv sts' stmt_counter
  end.

(** [dg_instrument]: the output superblock starts as a copy of the input
    without its statements; it gets a second copy of the types of the
    temporaries, and a third one in recording mode and in bit-trick-finding
    mode. The function returns the output superblock; the state of a run
    is the output superblock, and [stmt_counter] is passed on. *)
Definition dg_instrument (mode : ascii) (sb_in : IRSB)
    (layout_total_sizeB : Z) (stmt_counter : Z) : outcome IRSB Z :=
  let nTmp := Z.of_nat (length (tyenv sb_in)) in
  let shadow_types :=
    if bool_decide (mode = "b"%char) || bool_decide (mode = "t"%char)
    then tyenv sb_in ++ tyenv sb_in else tyenv sb_in in
  let sb_out := mkIRSB (tyenv sb_in ++ shadow_types) [] in
  let diffenv := mkDiffEnv nTmp layout_total_sizeB IRTemp_INVALID in
  let '(pre, rest) := nl_main.until_IMark (stmts sb_in) in
  instrument_stmts mode diffenv rest stmt_counter
                   (mkIRSB (tyenv sb_out) (stmts sb_out ++ pre)).

End Instrument.

End dg_instrumentation.
(** * Properties of the linearized expressions *)

Section LinExpr_properties.
Import LinExprs.

Lemma int_of_in_range z : INT_MIN <= z <= INT_MAX -> int_of z = Some z.
Proof.
  intros [Hlo Hhi]. unfold int_of.
  apply Z.leb_le in Hlo. apply Z.leb_le in Hhi. now rewrite Hlo, Hhi.
Qed.

Lemma deref_in_block s i :
  0 <= i -> deref s (block s, i) = buffer_linexpr s !! Z.to_nat i.
Proof.
  intros Hi. unfold deref. cbn [fst snd].
  rewrite bool_decide_eq_true_2 by reflexivity.
  apply Z.leb_le in Hi. now rewrite Hi.
Qed.

Lemma store_ndep_in_block s i e :
  0 <= i -> buffer_linexpr s !! Z.to_nat i = Some e ->
  store_ndep s (block s, i) 0
  = Some (mkStore (block s)
            (<[Z.to_nat i := set_ndep 0 e]> (buffer_linexpr s))
            (n_linexpr s) (max_linexpr s)).
Proof.
  intros Hi He. unfold store_ndep, update.
  rewrite deref_in_block, He by assumption. cbn [mbind option_bind].
  unfold assign. cbn [fst snd].
  rewrite bool_decide_eq_true_2 by reflexivity.
  apply lookup_lt_Some in He.
  rewrite bool_decide_eq_true_2 by assumption.
  apply Z.leb_le in Hi. now rewrite Hi.
Qed.

(** The buffer that [newLinExpr] allocates when the old one is full. *)
Definition grown_buffer (g : Garbage) (s : Store) : list LinExpr :=
  take (Z.to_nat (n_linexpr s)) (buffer_linexpr s)
  ++ (uninitialised g (S (block s))
        <$> seqZ (n_linexpr s) (n_linexpr s + 1)).

Lemma grown_buffer_length g s :
  0 <= n_linexpr s ->
  (Z.to_nat (n_linexpr s) <= length (buffer_linexpr s))%nat ->
  length (grown_buffer g s) = Z.to_nat (2 * n_linexpr s + 1).
Proof.
  intros Hn Hlen. unfold grown_buffer.
  rewrite length_app, length_take, length_fmap, length_seqZ. lia.
Qed.

Lemma grown_buffer_fresh g s :
  0 <= n_linexpr s ->
  (Z.to_nat (n_linexpr s) <= length (buffer_linexpr s))%nat ->
  grown_buffer g s !! Z.to_nat (n_linexpr s)
  = Some (uninitialised g (S (block s)) (n_linexpr s)).
Proof.
  intros Hn Hlen. unfold grown_buffer.
  rewrite lookup_app_r by (rewrite length_take; lia).
  rewrite length_take, Nat.min_l, Nat.sub_diag by lia.
  rewrite list_lookup_fmap, lookup_seqZ_lt by lia.
  cbn. now rewrite Z.add_0_r.
Qed.

(** C7. When the buffer is full ([n_linexpr] equals [max_linexpr], and as
    many elements are allocated), [newLinExpr] moves to a buffer of capacity
    [2*n_linexpr+1], the first [n_linexpr] entries of which are the entries
    of the old buffer; the number of entries grows by one, and the entry
    returned, the one at the old [n_linexpr], has [ndep] equal to 0. *)
Theorem newLinExpr_full_buffer_grows (g : Garbage) (s : Store) :
  n_linexpr s = max_linexpr s ->
  length (buffer_linexpr s) = Z.to_nat (max_linexpr s) ->
  0 <= n_linexpr s ->
  2 * n_linexpr s + 1 <= INT_MAX ->
  exists (p : Ptr) (s' : Store) (e : LinExpr),
    newLinExpr g s = Some (p, s')
    /\ max_linexpr s' = 2 * n_linexpr s + 1
    /\ length (buffer_linexpr s') = Z.to_nat (2 * n_linexpr s + 1)
    /\ take (Z.to_nat (n_linexpr s)) (buffer_linexpr s')
       = buffer_linexpr s
    /\ n_linexpr s' = n_linexpr s + 1
    /\ p = (block s', n_linexpr s)
    /\ deref s' p = Some e
    /\ ndep e = 0.
Proof.
  intros Hfull Hlen Hn Hmax.
  assert (Hle : (Z.to_nat (n_linexpr s) <= length (buffer_linexpr s))%nat)
    by (rewrite Hlen, Hfull; lia).
  pose (fresh := uninitialised g (S (block s)) (n_linexpr s)).
  pose (s1 := mkStore (S (block s)) (grown_buffer g s) (n_linexpr s)
                      (2 * max_linexpr s + 1)).
  assert (Hs1 : (if n_linexpr s =? max_linexpr s then
                   size ← int_of (2 * n_linexpr s + 1);
                   copied ← (if 0 <? n_linexpr s then
                               if bool_decide (Z.to_nat (n_linexpr s)
                                               <= length (buffer_linexpr s))%nat
                               then Some (take (Z.to_nat (n_linexpr s))
                                               (buffer_linexpr s))
                               else None
                             else Some []);
                   new_max ← int_of (2 * max_linexpr s + 1);
                   Some (mkStore (S (block s))
                           (copied ++ (uninitialised g (S (block s))
                                         <$> seqZ (n_linexpr s)
                                                  (size - n_linexpr s)))
                           (n_linexpr s) new_max)
                 else Some s) = Some s1).
  { rewrite Hfull at 1. rewrite Z.eqb_refl.
    rewrite int_of_in_range by (unfold INT_MIN; lia).
    cbn [mbind option_bind].
    rewrite bool_decide_eq_true_2 by assumption.
    rewrite <- Hfull.
    rewrite int_of_in_range by (unfold INT_MIN; lia).
    destruct (0 <? n_linexpr s) eqn:Hpos; cbn [mbind option_bind];
      replace (2 * n_linexpr s + 1 - n_linexpr s) with (n_linexpr s + 1) by lia;
      unfold s1, grown_buffer; rewrite <- Hfull.
    - reflexivity.
    - apply Z.ltb_ge in Hpos. assert (n_linexpr s = 0) as H0 by lia.
      rewrite H0. reflexivity. }
  assert (Hstore : store_ndep s1 (block s1, n_linexpr s1) 0
                   = Some (mkStore (block s1)
                             (<[Z.to_nat (n_linexpr s) := set_ndep 0 fresh]>
                                (grown_buffer g s))
                             (n_linexpr s) (2 * max_linexpr s + 1))).
  { apply (store_ndep_in_block s1 (n_linexpr s) fresh Hn).
    now apply grown_buffer_fresh. }
  exists (S (block s), n_linexpr s).
  exists (mkStore (S (block s))
            (<[Z.to_nat (n_linexpr s) := set_ndep 0 fresh]> (grown_buffer g s))
            (n_linexpr s + 1) (2 * max_linexpr s + 1)).
  exists (set_ndep 0 fresh).
  split.
  { unfold newLinExpr. rewrite Hs1. cbn [mbind option_bind].
    rewrite Hstore. cbn [mbind option_bind n_linexpr block buffer_linexpr
                         max_linexpr s1].
    rewrite int_of_in_range by (unfold INT_MIN; lia). reflexivity. }
  cbn [max_linexpr buffer_linexpr n_linexpr block].
  split; [lia|].
  split; [rewrite length_insert; now apply grown_buffer_length|].
  split.
  { rewrite take_insert_ge by lia. unfold grown_buffer.
    rewrite take_app_le by (rewrite length_take; lia).
    rewrite take_take, Nat.min_id.
    apply take_ge. lia. }
  split; [reflexivity|].
  split; [reflexivity|].
  split; [|reflexivity].
  pose (s2 := mkStore (S (block s))
                (<[Z.to_nat (n_linexpr s) := set_ndep 0 fresh]>
                   (grown_buffer g s))
                (n_linexpr s + 1) (2 * max_linexpr s + 1)).
  change (deref s2 (block s2, n_linexpr s) = Some (set_ndep 0 fresh)).
  rewrite deref_in_block by assumption. unfold s2. cbn [buffer_linexpr].
  apply list_lookup_insert_eq.
  rewrite grown_buffer_length by assumption. lia.
Qed.

(** Memory that happens to be filled with zeros. *)
Definition zero_garbage : Garbage :=
  mkGarbage (fun _ _ => 0%float) (fun _ _ => 0) (fun _ _ _ => 0)
            (fun _ _ _ => 0%float).

(** A full buffer with one entry. *)
Definition one_entry_store : Store :=
  mkStore 1 [mkLinExpr 1%float 1 (replicate 100 5) (replicate 100 1%float)] 1 1.

Lemma newLinExpr_full_buffer_grows_witness :
  (n_linexpr one_entry_store = max_linexpr one_entry_store
   /\ length (buffer_linexpr one_entry_store)
      = Z.to_nat (max_linexpr one_entry_store))
  /\ exists (p : Ptr) (s' : Store) (e : LinExpr),
       newLinExpr zero_garbage one_entry_store = Some (p, s')
       /\ max_linexpr s' = 2 * n_linexpr one_entry_store + 1
       /\ length (buffer_linexpr s')
          = Z.to_nat (2 * n_linexpr one_entry_store + 1)
       /\ take (Z.to_nat (n_linexpr one_entry_store)) (buffer_linexpr s')
          = buffer_linexpr one_entry_store
       /\ n_linexpr s' = n_linexpr one_entry_store + 1
       /\ p = (block s', n_linexpr one_entry_store)
       /\ deref s' p = Some e
       /\ ndep e = 0.
Proof.
  split; [split; reflexivity|].
  apply (newLinExpr_full_buffer_grows zero_garbage one_entry_store).
  - reflexivity.
  - reflexivity.
  - cbn. lia.
  - cbn. unfold INT_MAX. lia.
Defined.

(** The value of [next_identifier] after [k] calls of [newid]. *)
Definition next_identifier_after (k : N) : Z :=
  N.iter k (fun next_identifier => snd (newid next_identifier))
         next_identifier_init.

(** What call number [k] of [newid] returns, counting the calls from 1. *)
Definition newid_call (k : N) : Z :=
  fst (newid (next_identifier_after (N.pred k))).

Lemma next_identifier_after_spec (k : N) :
  next_identifier_after k = (1 + Z.of_N k) mod 2 ^ 64.
Proof.
  unfold next_identifier_after.
  induction k as [|k IH] using N.peano_ind.
  - reflexivity.
  - rewrite N.iter_succ, IH. cbn [newid snd]. unfold wrap.
    rewrite N2Z.inj_succ.
    rewrite Zplus_mod_idemp_l. f_equal. lia.
Qed.

(** C9, as amended. The counter starts at 1; a call of [newid] returns the
    current value of the counter and adds one to the counter, modulo 2^64;
    for every [k] from 1 below 2^64, call number [k] returns [k], which is
    not 0. *)
Theorem newid_sequential_below_2_64 :
  next_identifier_init = 1
  /\ (forall c : Z, newid c = (c, (c + 1) mod 2 ^ 64))
  /\ forall k : N,
       (1 <= k)%N -> (k < 2 ^ 64)%N ->
       newid_call k = Z.of_N k /\ newid_call k <> 0.
Proof.
  split; [reflexivity|]. split; [reflexivity|].
  intros k Hk1 Hk2.
  assert (newid_call k = Z.of_N k) as Hcall.
  { unfold newid_call. cbn [newid fst].
    rewrite next_identifier_after_spec, N2Z.inj_pred by lia.
    replace (1 + Z.pred (Z.of_N k)) with (Z.of_N k) by lia.
    apply Z.mod_small. split; [lia|].
    change (2 ^ 64) with (Z.of_N (2 ^ 64)). lia. }
  split; [exact Hcall|]. rewrite Hcall. lia.
Qed.

Lemma newid_sequential_below_2_64_witness :
  ((1 <= 3)%N /\ (3 < 2 ^ 64)%N)
  /\ newid_call 3 = 3 /\ newid_call 3 <> 0.
Proof.
  split; [split; [lia | reflexivity]|].
  apply (proj2 (proj2 newid_sequential_below_2_64) 3%N).
  - lia.
  - reflexivity.
Defined.

(** C9 as stated fails: the counter is a 64-bit unsigned integer, and call
    number 2^64 of [newid] returns 0. *)
Lemma newid_call_2_64_returns_0 : newid_call (2 ^ 64) = 0.
Proof.
  unfold newid_call. cbn [newid fst].
  rewrite next_identifier_after_spec. reflexivity.
Qed.

(** ** Runs on small inputs *)

(** The caller makes [p] a variable: the value [v], and one dependency, on
    [id], with partial derivative 1. *)
Definition make_variable (p : Ptr) (v : Scalar) (id : Identifier) (s : Store)
  : option Store :=
  s ← store_value s p v;
  s ← store_ndep s p 1;
  s ← store_identifier s p 0 id;
  store_jacobian s p 0 1%float.

(** The store after four calls of [newLinExpr] from the start of the
    program, with the pointer that the fourth call returned. The buffer then
    has room for seven expressions, so that the next three calls leave it
    where it is. *)
Definition fourth_allocation (g : Garbage) : option (Ptr * Store) :=
  '(_, s) ← newLinExpr g initial_store;
  '(_, s) ← newLinExpr g s;
  '(_, s) ← newLinExpr g s;
  newLinExpr g s.

(** [a] is a variable of value 1 and identifier 1, [b] is a variable of
    value 2 and identifier 2, and [q = divLinExpr(a,b)]. The result is
    [*a], [*b] and [*q] after the call. *)
Definition quotient_example (g : Garbage) : option (LinExpr * LinExpr * LinExpr) :=
  '(a, s) ← fourth_allocation g;
  s ← make_variable a 1%float 1 s;
  '(b, s) ← newLinExpr g s;
  s ← make_variable b 2%float 2 s;
  '(q, s) ← divLinExpr g a b s;
  ea ← deref s a; eb ← deref s b; eq ← deref s q;
  Some (ea, eb, eq).

(** The dependencies that the quotient rule gives to [a/b], in the words of
    the design document: the dependencies of [a] each scaled by
    [1/b.value], followed by the dependencies of [b] each scaled by
    [-a.value/(b.value*b.value)]. *)
Definition quotient_rule_dependencies (a b : LinExpr)
  : list (Identifier * Scalar) :=
  (prod_map id (fun j => (1 / value b * j)%float) <$> dependencies a)
  ++ (prod_map id (fun j => (- value a / (value b * value b) * j)%float)
        <$> dependencies b).

(** C1, on [divLinExpr]: the code departs from the quotient rule. For the
    variables [a = 1] and [b = 2], [divLinExpr(a,b)] has the value 0.5 and
    the partial derivatives -0.5 with respect to [a] and 0.25 with respect
    to [b]; the quotient rule gives 0.5 and -0.25. *)
Theorem divLinExpr_partial_derivatives_negated (g : Garbage) :
  exists a b q : LinExpr,
    quotient_example g = Some (a, b, q)
    /\ value a = 1%float /\ dependencies a = [(1, 1%float)]
    /\ value b = 2%float /\ dependencies b = [(2, 1%float)]
    /\ value q = 0.5%float
    /\ dependencies q = [(1, (-0.5)%float); (2, 0.25%float)]
    /\ quotient_rule_dependencies a b = [(1, 0.5%float); (2, (-0.25)%float)]
    /\ dependencies q <> quotient_rule_dependencies a b.
Proof.
  eexists _, _, _. split; [vm_compute; reflexivity|].
  repeat (split; [vm_compute; reflexivity|]).
  intros H.
  apply (f_equal (fun l => match l with
                           | (_, j) :: _ => (j <? 0)%float
                           | [] => false
                           end)) in H.
  vm_compute in H. discriminate H.
Qed.

(** [x] is a variable of value 1 and identifier 1, [sum = addLinExpr(x,x)],
    and then [normalizeLinExpr(sum)]. The result is [*sum] before and after
    the normalization. *)
Definition normalize_example (g : Garbage) : option (LinExpr * LinExpr) :=
  '(x, s) ← fourth_allocation g;
  s ← make_variable x 1%float 1 s;
  '(sum, s) ← addLinExpr g x x s;
  before ← deref s sum;
  s ← normalizeLinExpr g sum s;
  after ← deref s sum;
  Some (before, after).

(** C10: the code does not normalize. For [sum = x + x], which has the
    value 2 and depends twice on the identifier 1 with partial derivative 1,
    the normalized expression should have the value 2 and depend once on
    the identifier 1, with partial derivative 2. After [normalizeLinExpr],
    [sum] has no dependency at all, and its value is the uninitialised value
    of the entry that [normalizeLinExpr] allocated. *)
Theorem normalizeLinExpr_drops_dependencies (g : Garbage) :
  exists before after : LinExpr,
    normalize_example g = Some (before, after)
    /\ value before = 2%float
    /\ dependencies before = [(1, 1%float); (1, 1%float)]
    /\ ndep after = 0
    /\ dependencies after = []
    /\ value after = g_value g 3 5.
Proof.
  eexists _, _. split; [vm_compute; reflexivity|].
  repeat split; vm_compute; reflexivity.
Qed.

End LinExpr_properties.

(** * Properties of the differentiation of expressions *)

Section Expression_properties.
Import VEX Run.

(** ** Conditional select *)







(** A state to start from: an empty output superblock, nothing printed. *)
Definition empty_St : nl_main.St := nl_main.mkSt (mkIRSB [] []) [] 0.

(** A forward-mode differentiation to call [record_expr] with: it knows
    temporaries and constants only, and changes nothing. *)
Definition differentiate_atoms (ex : IRExpr) (diffenv : dg_bar.DiffEnv)
  : M unit (option IRExpr) :=
  ret match ex with
      | IRExpr_RdTmp tmp =>
          Some (IRExpr_RdTmp (add_IRTemp tmp (dg_bar.t_offset diffenv)))
      | IRExpr_Const con => Some (nl_main.zero_of con)
      | _ => None
      end.

Definition record_with_atoms : IRExpr -> dg_bar.DiffEnv -> M unit (option IRExpr) :=
  dg_bar.record_expr unit differentiate_atoms (fun _ _ => ret None)
    (fun _ => IRExpr_NULL) IRExpr_NULL IRExpr_NULL.



(** ** Absolute value *)

Lemma SFcompare_finite_refl s m e :
  SFcompare (S754_finite s m e) (S754_finite s m e) = Some Eq.
Proof.
  cbn. destruct s; rewrite Z.compare_refl, Pos.compare_cont_refl; reflexivity.
Qed.

(** The comparison of a [double] with zero: less than zero, not a number,
    or neither. *)
Lemma compare_with_zero (x : float) :
  match (x ?= 0)%float with
  | FLt => (x <? 0)%float = true /\ is_nan x = false
  | FNotComparable => (x <? 0)%float = false /\ is_nan x = true
  | FEq | FGt => (x <? 0)%float = false /\ is_nan x = false
  end.
Proof.
  unfold is_nan.
  rewrite FloatAxioms.compare_spec, FloatAxioms.ltb_spec, FloatAxioms.eqb_spec.
  change (Prim2SF 0) with (S754_zero false).
  unfold SFltb, SFeqb.
  destruct (Prim2SF x) as [s|s| |s m e].
  - cbn. destruct s; auto.
  - destruct s; cbn; auto.
  - cbn; auto.
  - rewrite SFcompare_finite_refl. destruct s; cbn; auto.
Qed.

Lemma eqb_zero_not_less (x : float) :
  (x =? 0)%float = true -> (x <? 0)%float = false /\ is_nan x = false.
Proof.
  intros Heq. pose proof (compare_with_zero x) as H.
  rewrite FloatAxioms.eqb_spec in Heq.
  rewrite FloatAxioms.compare_spec in H.
  unfold SFeqb in Heq.
  destruct (SFcompare (Prim2SF x) (Prim2SF 0)) as [[]|]; cbn in H;
    try discriminate; exact H.
Qed.

(** The operators and the zero for the two floating-point types: the
    absolute value, the comparison, the negation, the constant zero. *)
Definition abs_operators (ty : IRType) : option (IROp * IROp * IROp * IRConst) :=
  match ty with
  | Ity_F64 =>
      Some (Iop_AbsF64, Iop_CmpF64, Iop_NegF64, IRConst_F64 0)
  | Ity_F32 =>
      Some (Iop_AbsF32, Iop_CmpF32, Iop_NegF32, IRConst_F32 0)
  | _ => None
  end.

(** The select that is the derivative of an absolute value. *)
Definition abs_select (cmp neg : IROp) (zero : IRConst) (arg d : IRExpr)
  : IRExpr :=
  IRExpr_ITE
    (IRExpr_Unop Iop_32to1 (IRExpr_Binop cmp arg (IRExpr_Const zero)))
    (IRExpr_Unop neg d) d.

Lemma abs_select_value ty abs cmp neg zero arg d tmps x dx :
  abs_operators ty = Some (abs, cmp, neg, zero) ->
  eval tmps arg = Some (V_F ty x) ->
  eval tmps d = Some (V_F ty dx) ->
  eval tmps (abs_select cmp neg zero arg d)
  = Some (V_F ty (if (x <? 0)%float || is_nan x then (- dx)%float else dx)).
Proof.
  intros Hops Harg Hd. pose proof (compare_with_zero x) as Hx.
  destruct ty; try discriminate Hops;
    injection Hops as <- <- <- <-;
    cbn [abs_select eval]; rewrite Harg, Hd; unfold cmpF;
    destruct (x ?= 0)%float; destruct Hx as [-> ->]; reflexivity.
Qed.

(** C2, as amended. For [AbsF64(x)] and [AbsF32(x)] with the derivative [d]
    of [x] available, [differentiate_expr] of [nl_main.c] and [record_expr]
    of [dg_bar.c] return the select [ITE(32to1(Cmp(x, 0)), Neg(d), d)]. Its
    value is [-d] when [x] is less than zero or not a number, and [d]
    otherwise; for [x] equal to zero it is [d]. *)
Theorem abs_derivative_select ty abs cmp neg zero :
  abs_operators ty = Some (abs, cmp, neg, zero) ->
  forall arg d : IRExpr,
    (forall diffenv s s',
       nl_main.differentiate_expr arg diffenv s = Ok (Some d) s' ->
       nl_main.differentiate_expr (IRExpr_Unop abs arg) diffenv s
       = Ok (Some (abs_select cmp neg zero arg d)) s')
    /\ (forall (W : Type) differentiate_expr loadShadowMemory mkIRConst_zero
          d2 d3 diffenv s s',
          differentiate_expr arg diffenv s = Ok (Some d) s' ->
          dg_bar.record_expr W differentiate_expr loadShadowMemory
            mkIRConst_zero d2 d3 (IRExpr_Unop abs arg) diffenv s
          = Ok (Some (abs_select cmp neg zero arg d)) s')
    /\ (forall tmps x dx,
          eval tmps arg = Some (V_F ty x) ->
          eval tmps d = Some (V_F ty dx) ->
          eval tmps (abs_select cmp neg zero arg d)
          = Some (V_F ty (if (x <? 0)%float || is_nan x
                          then (- dx)%float else dx))
          /\ ((x =? 0)%float = true ->
              eval tmps (abs_select cmp neg zero arg d) = Some (V_F ty dx))).
Proof.
  intros Hops arg d. split; [|split].
  - intros diffenv s s' Hd.
    destruct ty; try discriminate Hops; injection Hops as <- <- <- <-;
      cbn [nl_main.differentiate_expr]; unfold bind; rewrite Hd; reflexivity.
  - intros W de lsm mkz d2 d3 diffenv s s' Hd.
    destruct ty; try discriminate Hops; injection Hops as <- <- <- <-;
      cbn [dg_bar.record_expr]; unfold bind; rewrite Hd; reflexivity.
  - intros tmps x dx Harg Hd.
    rewrite (abs_select_value ty abs cmp neg zero arg d tmps x dx Hops Harg Hd).
    split; [reflexivity|].
    intros Hzero. destruct (eqb_zero_not_less x Hzero) as [-> ->]. reflexivity.
Qed.

(** Temporary 0 holds [x], temporary 1 holds its derivative [dx]. *)
Definition two_temporaries (x dx : float) (t : IRTemp) : option Value :=
  if t =? 0 then Some (V_F Ity_F64 x)
  else if t =? 1 then Some (V_F Ity_F64 dx)
  else None.

Lemma abs_derivative_select_witness :
  abs_operators Ity_F64
  = Some (Iop_AbsF64, Iop_CmpF64, Iop_NegF64, IRConst_F64 0)
  /\ nl_main.differentiate_expr (IRExpr_Unop Iop_AbsF64 (IRExpr_RdTmp 0))
       (nl_main.mkDiffEnv 1 100) empty_St
     = Ok (Some (abs_select Iop_CmpF64 Iop_NegF64 (IRConst_F64 0)
                   (IRExpr_RdTmp 0) (IRExpr_RdTmp 1))) empty_St
  /\ eval (two_temporaries (-2) 3)
       (abs_select Iop_CmpF64 Iop_NegF64 (IRConst_F64 0)
          (IRExpr_RdTmp 0) (IRExpr_RdTmp 1))
     = Some (V_F Ity_F64 (-3))
  /\ eval (two_temporaries 0 3)
       (abs_select Iop_CmpF64 Iop_NegF64 (IRConst_F64 0)
          (IRExpr_RdTmp 0) (IRExpr_RdTmp 1))
     = Some (V_F Ity_F64 3).
Proof.
  pose proof (abs_derivative_select Ity_F64 Iop_AbsF64 Iop_CmpF64 Iop_NegF64
                (IRConst_F64 0) eq_refl (IRExpr_RdTmp 0) (IRExpr_RdTmp 1))
    as [Hnl [_ Hval]].
  split; [reflexivity|]. split; [|split].
  - apply (Hnl (nl_main.mkDiffEnv 1 100) empty_St empty_St). reflexivity.
  - apply (proj1 (Hval (two_temporaries (-2) 3) (-2)%float 3%float
                    eq_refl eq_refl)).
  - apply (proj2 (Hval (two_temporaries 0 3) 0%float 3%float
                    eq_refl eq_refl)). reflexivity.
Defined.

(** C2 as stated fails for an [x] that is not a number: the comparison is
    unordered, its code 0x45 has bit 0 set, and the select yields [-d],
    though [x] is not less than zero. *)
Lemma abs_derivative_of_nan_is_negated :
  nl_main.differentiate_expr (IRExpr_Unop Iop_AbsF64 (IRExpr_RdTmp 0))
    (nl_main.mkDiffEnv 1 100) empty_St
  = Ok (Some (abs_select Iop_CmpF64 Iop_NegF64 (IRConst_F64 0)
                (IRExpr_RdTmp 0) (IRExpr_RdTmp 1))) empty_St
  /\ eval (two_temporaries nan 1) (IRExpr_RdTmp 0) = Some (V_F Ity_F64 nan)
  /\ eval (two_temporaries nan 1) (IRExpr_RdTmp 1) = Some (V_F Ity_F64 1)
  /\ (nan <? 0)%float = false
  /\ eval (two_temporaries nan 1)
       (abs_select Iop_CmpF64 Iop_NegF64 (IRConst_F64 0)
          (IRExpr_RdTmp 0) (IRExpr_RdTmp 1))
     = Some (V_F Ity_F64 (-1))
  /\ eval (two_temporaries nan 1)
       (abs_select Iop_CmpF64 Iop_NegF64 (IRConst_F64 0)
          (IRExpr_RdTmp 0) (IRExpr_RdTmp 1))
     <> Some (V_F Ity_F64 (if (nan <? 0)%float then (- 1)%float else 1%float)).
Proof.
  repeat (split; [reflexivity|]).
  intros H.
  apply (f_equal (fun v => match v with
                           | Some (V_F _ f) => (f <? 0)%float
                           | _ => false
                           end)) in H.
  vm_compute in H. discriminate H.
Qed.

(** ** Memory load *)

(** The types that can be reinterpreted as integer: the integers of 1, 2, 4
    and 8 bytes and the floating-point numbers of 32 and 64 bit. *)
Definition convertible (ty : IRType) : bool :=
  match ty with
  | Ity_I8 | Ity_I16 | Ity_I32 | Ity_I64 | Ity_F32 | Ity_F64 => true
  | _ => false
  end.

(** The state after the two temporaries and the two statements of a shadow
    load were added to the output superblock. *)
Definition with_shadow_load (s : nl_main.St) (ty : IRType)
    (helper : string) (addr conv : IRExpr) : nl_main.St :=
  let t := Z.of_nat (length (tyenv (nl_main.sb_out s))) in
  nl_main.mkSt
    (mkIRSB (tyenv (nl_main.sb_out s) ++ [Ity_I64; ty])
            (stmts (nl_main.sb_out s)
             ++ [IRStmt_Dirty (unsafeIRDirty_1_N t helper [addr]);
                 IRStmt_WrTmp (t + 1) conv]))
    (nl_main.output s) (nl_main.stmt_counter s).

(** The types of the argument and of the result of the conversions between
    the integers and the floating-point numbers of up to 8 bytes, as
    [libvex_ir.h] gives them. *)
Definition typeOfConversion (op : IROp) : option (IRType * IRType) :=
  match op with
  | Iop_64to8 => Some (Ity_I64, Ity_I8)
  | Iop_64to16 => Some (Ity_I64, Ity_I16)
  | Iop_64to32 => Some (Ity_I64, Ity_I32)
  | Iop_8Uto64 => Some (Ity_I8, Ity_I64)
  | Iop_16Uto64 => Some (Ity_I16, Ity_I64)
  | Iop_32Uto64 => Some (Ity_I32, Ity_I64)
  | Iop_ReinterpI64asF64 => Some (Ity_I64, Ity_F64)
  | Iop_ReinterpF64asI64 => Some (Ity_F64, Ity_I64)
  | Iop_ReinterpI32asF32 => Some (Ity_I32, Ity_F32)
  | Iop_ReinterpF32asI32 => Some (Ity_F32, Ity_I32)
  | _ => None
  end.

(** The type of an expression that applies such conversions to a temporary
    of the superblock; there is none if a conversion is applied to an
    argument of another type than its own. *)
Fixpoint typeOfConverted (sb : IRSB) (e : IRExpr) : option IRType :=
  match e with
  | IRExpr_RdTmp t => typeOfIRTemp sb t
  | IRExpr_Unop op arg =>
      match typeOfConversion op, typeOfConverted sb arg with
      | Some (from, to), Some ty =>
          if bool_decide (ty = from) then Some to else None
      | _, _ => None
      end
  | _ => None
  end.


Lemma with_shadow_load_types s ty helper addr conv :
  let t := Z.of_nat (length (tyenv (nl_main.sb_out s))) in
  let sb := nl_main.sb_out (with_shadow_load s ty helper addr conv) in
  typeOfIRTemp sb t = Some Ity_I64 /\ typeOfIRTemp sb (t + 1) = Some ty.
Proof.
  intros t sb. subst t sb. unfold typeOfIRTemp, with_shadow_load.
  cbn [nl_main.sb_out tyenv].
  set (tys := tyenv (nl_main.sb_out s)).
  replace (0 <=? Z.of_nat (length tys)) with true
    by (symmetry; apply Z.leb_le; lia).
  replace (0 <=? Z.of_nat (length tys) + 1) with true
    by (symmetry; apply Z.leb_le; lia).
  replace (Z.to_nat (Z.of_nat (length tys) + 1)) with (S (length tys)) by lia.
  rewrite Nat2Z.id. split.
  - apply list_lookup_middle. reflexivity.
  - rewrite lookup_app_r by lia.
    replace (S (length tys) - length tys)%nat with 1%nat by lia. reflexivity.
Qed.



(** A load of a [float], one of the six types: the statement that is added
    applies [Iop_ReinterpI32asF32], a conversion from [I32], to the
    temporary of type [I64] that holds the result of the helper, with no
    [Iop_64to32] in between as in the conversion for [Ity_I32]. *)
Theorem load_of_F32_converts_the_I64_temporary (e : IREndness)
    (addr : IRExpr) (diffenv : nl_main.DiffEnv) (s : nl_main.St) :
  let t := Z.of_nat (length (tyenv (nl_main.sb_out s))) in
  let conv := IRExpr_Unop Iop_ReinterpI32asF32 (IRExpr_RdTmp t) in
  let s' := with_shadow_load s Ity_F32 "nl_Load_diff4" addr conv in
  nl_main.differentiate_expr (IRExpr_Load e Ity_F32 addr) diffenv s
  = Ok (Some (IRExpr_RdTmp (t + 1))) s'
  /\ typeOfIRTemp (nl_main.sb_out s') t = Some Ity_I64
  /\ typeOfConverted (nl_main.sb_out s') conv = None
  /\ typeOfConverted (nl_main.sb_out s')
       (IRExpr_Unop Iop_ReinterpI32asF32
          (IRExpr_Unop Iop_64to32 (IRExpr_RdTmp t)))
     = Some Ity_F32.
Proof.
  intros t conv s'.
  pose proof (with_shadow_load_types s Ity_F32 "nl_Load_diff4" addr conv)
    as [Ht _].
  fold t in Ht. fold s' in Ht.
  split; [|split; [exact Ht|]].
  - subst s' conv t. unfold with_shadow_load. cbn. unfold bind. cbn.
    rewrite length_app, Nat2Z.inj_add.
    unfold ret, addStmtToIRSB. cbn [tyenv stmts].
    rewrite <- !app_assoc. reflexivity.
  - subst conv. cbn [typeOfConverted typeOfConversion]. rewrite Ht.
    split; reflexivity.
Qed.


End Expression_properties.

(** * Properties of the instrumentation of statements *)

Section Statement_properties.
Import VEX Run.

Variable typeOfIRExpr : list IRType -> IRExpr -> IRType.

(** [det->cvt] passes the assertions of the instrumentation of [Ist_LoadG]. *)
Definition cvt_accepted (type : IRType) (cvt : IRLoadGOp) : bool :=
  match type, cvt with
  | Ity_F64, ILGop_Ident64 => true
  | Ity_F64, _ => false
  | Ity_F32, ILGop_Ident32 => true
  | Ity_F32, _ => false
  | _, _ => true
  end.

(** For a statement whose instrumentation differentiates an expression: the
    expression, the type of the destination of the statement, and the word
    for the statement in the warning. *)
Definition differentiated (sb_in : IRSB) (st : IRStmt)
  : option (IRExpr * IRType * string) :=
  match st with
  | IRStmt_WrTmp tmp data =>
      type ← typeOfIRTemp sb_in tmp; Some (data, type, "WrTmp"%string)
  | IRStmt_Put _ data =>
      Some (data, typeOfIRExpr (tyenv sb_in) data, "Put"%string)
  | IRStmt_PutI details =>
      Some (puti_data details,
            typeOfIRExpr (tyenv sb_in) (puti_data details), "PutI"%string)
  | IRStmt_Store _ _ data =>
      let type := typeOfIRExpr (tyenv sb_in) data in
      if convertible type then Some (data, type, "Store"%string) else None
  | IRStmt_StoreG details =>
      let type := typeOfIRExpr (tyenv sb_in) (sg_data details) in
      if convertible type then Some (sg_data details, type, "Store"%string)
      else None
  | IRStmt_LoadG det =>
      type ← typeOfIRTemp sb_in (lg_dst det);
      if convertible type && cvt_accepted type (lg_cvt det)
      then Some (lg_alt det, type, "alternative-LoadG"%string) else None
  | _ => None
  end.

(** The warning for an expression that could not be differentiated. *)
Definition warning (expr : IRExpr) (operation : string) : list nl_main.Event :=
  [nl_main.Printf "Warning: Expression\n" [];
   nl_main.PpIRExpr (Some expr);
   nl_main.Printf "could not be differentiated in %s.\n\n" [operation]].

(** The state when the instrumentation of a statement begins to look at the
    statement: [stmt_counter] has been incremented. *)
Definition counted (s : nl_main.St) : nl_main.St :=
  nl_main.mkSt (nl_main.sb_out s) (nl_main.output s)
               (wrap 64 (nl_main.stmt_counter s + 1)).

Lemma canConvertToI64_convertible type s :
  convertible type = true -> nl_main.canConvertToI64 type s = Ok true s.
Proof. destruct type; (discriminate || reflexivity). Qed.

Lemma differentiate_or_warn_NULL expr diffenv warn operation s s1 :
  nl_main.differentiate_expr expr diffenv s = Ok None s1 ->
  nl_main.differentiate_or_warn expr diffenv warn operation s
  = Ok None (nl_main.mkSt (nl_main.sb_out s1)
               (nl_main.output s1
                ++ (if warn then warning expr operation else []))
               (nl_main.stmt_counter s1)).
Proof.
  intros Hdiff. unfold nl_main.differentiate_or_warn, bind. rewrite Hdiff.
  destruct warn; cbn.
  - rewrite <- !app_assoc. reflexivity.
  - rewrite app_nil_r. now destruct s1.
Qed.

(** C3. Whenever the instrumentation of a statement differentiates an
    expression and the derivative is [NULL]: the output superblock gets the
    original statement and no other statement after what the
    differentiation itself has left there, so nothing writes to the shadow
    of the destination; and the warning is printed if and only if the type
    of the destination is [Ity_F64] or [Ity_F32], nothing being printed for
    the other types. *)
Theorem unsupported_expression_no_shadow_write
    (sb_in : IRSB) (diffenv : nl_main.DiffEnv) (st : IRStmt)
    (data : IRExpr) (type : IRType) (operation : string)
    (s s1 : nl_main.St) :
  differentiated sb_in st = Some (data, type, operation) ->
  nl_main.differentiate_expr data diffenv (counted s) = Ok None s1 ->
  nl_main.instrument_stmt typeOfIRExpr sb_in diffenv st s
  = Ok tt (nl_main.mkSt
             (mkIRSB (tyenv (nl_main.sb_out s1))
                     (stmts (nl_main.sb_out s1) ++ [st]))
             (nl_main.output s1
              ++ (if nl_main.is_float type then warning data operation
                  else []))
             (nl_main.stmt_counter s1))
  /\ (nl_main.is_float type = true <-> type = Ity_F64 \/ type = Ity_F32).
Proof.
  intros Hst Hdiff. split.
  - destruct st; try discriminate Hst; cbn in Hst.
    + (* Put *)
      injection Hst as <- <- <-.
      unfold nl_main.instrument_stmt, bind at 1 2. fold (counted s).
      unfold bind at 1.
      rewrite (differentiate_or_warn_NULL _ _ _ _ _ _ Hdiff). reflexivity.
    + (* PutI *)
      injection Hst as <- <- <-.
      unfold nl_main.instrument_stmt, bind at 1 2. fold (counted s).
      unfold bind at 1.
      rewrite (differentiate_or_warn_NULL _ _ _ _ _ _ Hdiff). reflexivity.
    + (* WrTmp *)
      destruct (typeOfIRTemp sb_in tmp) as [ty|] eqn:Hty;
        [|discriminate Hst].
      injection Hst as <- <- <-.
      unfold nl_main.instrument_stmt, bind at 1 2. fold (counted s).
      rewrite Hty. unfold lift, bind at 1, ret at 1. unfold bind at 1.
      rewrite (differentiate_or_warn_NULL _ _ _ _ _ _ Hdiff). reflexivity.
    + (* Store *)
      destruct (convertible (typeOfIRExpr (tyenv sb_in) data0)) eqn:Hconv;
        [|discriminate Hst].
      injection Hst as <- <- <-.
      unfold nl_main.instrument_stmt, bind at 1 2. fold (counted s).
      unfold nl_main.instrument_store, bind at 1.
      rewrite (canConvertToI64_convertible _ _ Hconv).
      unfold bind at 1.
      rewrite (differentiate_or_warn_NULL _ _ _ _ _ _ Hdiff). reflexivity.
    + (* LoadG *)
      destruct (typeOfIRTemp sb_in (lg_dst details)) as [ty|] eqn:Hty;
        [|discriminate Hst]. cbn in Hst.
      destruct (convertible ty) eqn:Hconv; [|discriminate Hst].
      destruct (cvt_accepted ty (lg_cvt details)) eqn:Hcvt;
        [|discriminate Hst].
      injection Hst as <- <- <-.
      unfold nl_main.instrument_stmt, bind at 1 2. fold (counted s).
      rewrite Hty. unfold lift, bind at 1, ret at 1. unfold bind at 1.
      rewrite (canConvertToI64_convertible _ _ Hconv).
      destruct ty; try discriminate Hconv;
        destruct (lg_cvt details); try discriminate Hcvt;
        unfold bind;
        repeat first [ rewrite bool_decide_eq_false_2 by discriminate
                     | rewrite bool_decide_eq_true_2 by reflexivity ];
        unfold ret, tl_assert_False;
        rewrite (differentiate_or_warn_NULL _ _ _ _ _ _ Hdiff); reflexivity.
    + (* StoreG *)
      destruct (convertible (typeOfIRExpr (tyenv sb_in) (sg_data details)))
        eqn:Hconv; [|discriminate Hst].
      injection Hst as <- <- <-.
      unfold nl_main.instrument_stmt, bind at 1 2. fold (counted s).
      unfold nl_main.instrument_store, bind at 1.
      rewrite (canConvertToI64_convertible _ _ Hconv).
      unfold bind at 1.
      rewrite (differentiate_or_warn_NULL _ _ _ _ _ _ Hdiff). reflexivity.
  - unfold nl_main.is_float. rewrite orb_true_iff, !bool_decide_eq_true.
    reflexivity.
Qed.

End Statement_properties.

(** A superblock whose temporary 0 is of type [F32] and whose temporary 1
    is of type [F64]. *)
Definition two_float_temporaries : VEX.IRSB :=
  VEX.mkIRSB [VEX.Ity_F32; VEX.Ity_F64] [].

(** A conversion, which [differentiate_expr] of [nl_main.c] does not know. *)
Definition widened_temporary : VEX.IRExpr :=
  VEX.IRExpr_Unop VEX.Iop_F32toF64 (VEX.IRExpr_RdTmp 0).

Lemma unsupported_expression_no_shadow_write_witness :
  (differentiated (fun _ _ => VEX.Ity_I64) two_float_temporaries
     (VEX.IRStmt_WrTmp 1 widened_temporary)
   = Some (widened_temporary, VEX.Ity_F64, "WrTmp"%string)
   /\ nl_main.differentiate_expr widened_temporary (nl_main.mkDiffEnv 2 100)
        (counted empty_St)
      = Run.Ok None (counted empty_St))
  /\ nl_main.instrument_stmt (fun _ _ => VEX.Ity_I64) two_float_temporaries
       (nl_main.mkDiffEnv 2 100) (VEX.IRStmt_WrTmp 1 widened_temporary)
       empty_St
     = Run.Ok tt
         (nl_main.mkSt
            (VEX.mkIRSB [] [VEX.IRStmt_WrTmp 1 widened_temporary])
            (warning widened_temporary "WrTmp") 1).
Proof.
  split; [split; reflexivity|].
  apply (proj1 (unsupported_expression_no_shadow_write
                  (fun _ _ => VEX.Ity_I64) two_float_temporaries
                  (nl_main.mkDiffEnv 2 100)
                  (VEX.IRStmt_WrTmp 1 widened_temporary)
                  widened_temporary VEX.Ity_F64 "WrTmp"
                  empty_St (counted empty_St) eq_refl eq_refl)).
Defined.

(** * Properties of the logical operations *)

Section Logical_properties.
Import VEX Run.

(** The logical operators, each with the name of its helper for 64 bit. *)
Definition logical_operators : list ((Width -> IROp) * string) :=
  [(Iop_And, "dg_logical_and64"%string);
   (Iop_Or, "dg_logical_or64"%string);
   (Iop_Xor, "dg_logical_xor64"%string)].

(** The call of the helper on the 64-bit chunks that [selector] selects
    from the operands and from their derivatives. *)
Definition helper_on_chunk (helper : string) (selector : IROp)
    (arg1 d1 arg2 d2 : IRExpr) : IRExpr :=
  IRExpr_CCall helper Ity_I64
    [IRExpr_Unop selector arg1; IRExpr_Unop selector d1;
     IRExpr_Unop selector arg2; IRExpr_Unop selector d2].

(** C8. For "and", "or" and "xor", with the derivatives [d1] and [d2] of the
    operands available: on 64 bit, [record_expr] calls the helper
    [dg_logical_*64] on the operands and their derivatives; on [V128] it
    calls the same helper on the low halves and on the high halves, and
    puts the two results together with [Iop_64HLtoV128], the result for the
    high halves as the high half; on [V256] it calls the same helper on
    each of the four quarters, and puts the four results together with
    [Iop_64x4toV256], from quarter 3, the highest, down to quarter 0. The
    selectors are those that [selector_V128] and [selector_V256] give for
    the chunks 0, 1 (and 2, 3). *)
Theorem logical_wide_operands_by_chunks
    (W : Type) differentiate_expr loadShadowMemory mkIRConst_zero d2' d3'
    (Op : Width -> IROp) (helper : string)
    (arg1 arg2 d1 d2 : IRExpr) (diffenv : dg_bar.DiffEnv) (s s1 s2 : W) :
  (Op, helper) ∈ logical_operators ->
  differentiate_expr arg2 diffenv s = Ok (Some d2) s1 ->
  differentiate_expr arg1 diffenv s1 = Ok (Some d1) s2 ->
  let record_expr :=
    dg_bar.record_expr W differentiate_expr loadShadowMemory mkIRConst_zero
      d2' d3' in
  let chunk selector := helper_on_chunk helper selector arg1 d1 arg2 d2 in
  record_expr (IRExpr_Binop (Op w64) arg1 arg2) diffenv s
  = Ok (Some (IRExpr_CCall helper Ity_I64 [arg1; d1; arg2; d2])) s2
  /\ record_expr (IRExpr_Binop (Op wV128) arg1 arg2) diffenv s
     = Ok (Some (IRExpr_Binop Iop_64HLtoV128
                   (chunk Iop_V128HIto64) (chunk Iop_V128to64))) s2
  /\ record_expr (IRExpr_Binop (Op wV256) arg1 arg2) diffenv s
     = Ok (Some (IRExpr_Qop Iop_64x4toV256
                   (chunk Iop_V256to64_3) (chunk Iop_V256to64_2)
                   (chunk Iop_V256to64_1) (chunk Iop_V256to64_0))) s2
  /\ dg_bar.selector_V128 0 = Iop_V128to64
  /\ dg_bar.selector_V128 1 = Iop_V128HIto64
  /\ dg_bar.selector_V256 <$> [0; 1; 2; 3]%nat
     = Some <$> [Iop_V256to64_0; Iop_V256to64_1;
                 Iop_V256to64_2; Iop_V256to64_3].
Proof.
  intros Hop Hd2 Hd1 record_expr chunk.
  unfold logical_operators in Hop.
  rewrite !elem_of_cons, elem_of_nil in Hop.
  assert (forall w, dg_bar.record_binop W differentiate_expr mkIRConst_zero
                      (Op w) arg1 arg2 d2 diffenv s1
                    = dg_bar.DG_HANDLE_LOGICAL W differentiate_expr helper w
                        arg1 arg2 d2 diffenv s1) as Hbinop.
  { intros w.
    destruct Hop as [Hop|[Hop|[Hop|[]]]]; injection Hop as -> ->;
      reflexivity. }
  subst record_expr chunk.
  repeat split;
    cbn [dg_bar.record_expr]; unfold bind at 1; rewrite Hd2, Hbinop;
    unfold dg_bar.DG_HANDLE_LOGICAL, bind; rewrite Hd1; reflexivity.
Qed.

Lemma logical_wide_operands_by_chunks_witness :
  ((Iop_And, "dg_logical_and64"%string) ∈ logical_operators
   /\ differentiate_atoms (IRExpr_RdTmp 1) (dg_bar.mkDiffEnv 2 100) tt
      = Ok (Some (IRExpr_RdTmp 3)) tt
   /\ differentiate_atoms (IRExpr_RdTmp 0) (dg_bar.mkDiffEnv 2 100) tt
      = Ok (Some (IRExpr_RdTmp 2)) tt)
  /\ record_with_atoms
       (IRExpr_Binop (Iop_And wV128) (IRExpr_RdTmp 0) (IRExpr_RdTmp 1))
       (dg_bar.mkDiffEnv 2 100) tt
     = Ok (Some (IRExpr_Binop Iop_64HLtoV128
                   (helper_on_chunk "dg_logical_and64" Iop_V128HIto64
                      (IRExpr_RdTmp 0) (IRExpr_RdTmp 2)
                      (IRExpr_RdTmp 1) (IRExpr_RdTmp 3))
                   (helper_on_chunk "dg_logical_and64" Iop_V128to64
                      (IRExpr_RdTmp 0) (IRExpr_RdTmp 2)
                      (IRExpr_RdTmp 1) (IRExpr_RdTmp 3)))) tt.
Proof.
  assert ((Iop_And, "dg_logical_and64"%string) ∈ logical_operators) as Hop
    by (apply list_elem_of_here).
  split; [split; [exact Hop|split; reflexivity]|].
  apply (proj1 (proj2 (logical_wide_operands_by_chunks
                         unit differentiate_atoms (fun _ _ => ret None)
                         (fun _ => IRExpr_NULL) IRExpr_NULL IRExpr_NULL
                         Iop_And "dg_logical_and64"
                         (IRExpr_RdTmp 0) (IRExpr_RdTmp 1)
                         (IRExpr_RdTmp 2) (IRExpr_RdTmp 3)
                         (dg_bar.mkDiffEnv 2 100) tt tt tt
                         Hop eq_refl eq_refl))).
Defined.

End Logical_properties.

(** * Properties of the recording on the tape *)

Section Tape_properties.
Import dg_bar_tape dg_main.

Lemma tapeAddStatement_inactive d1 d2 t :
  (d1 =? 0)%float = true -> (d2 =? 0)%float = true ->
  tapeAddStatement 0 0 d1 d2 t = (0, t).
Proof.
  intros H1 H2. unfold tapeAddStatement. now rewrite H1, H2.
Qed.

(** C6. Recording an operation whose two partial derivatives are zero and
    whose two operand indices are 0 returns the index 0 and leaves the tape
    as it is, through [tapeAddStatement] itself, through
    [dg_bar_writeToTape_call] and through the client request for a new
    index; [tapeAddStatement_noActivityAnalysis] appends an entry for any
    arguments and returns its index, the new length of the tape, which is
    not 0; so does the client request without activity analysis. *)
Theorem activity_pruning_and_its_absence :
  (forall d1 d2 t,
     (d1 =? 0)%float = true -> (d2 =? 0)%float = true ->
     tapeAddStatement 0 0 d1 d2 t = (0, t))
  /\ (forall t, dg_bar_writeToTape_call 0 0 0 0 0 0 t = (0, t))
  /\ (forall cfg tbi t,
        mode cfg = "b"%char ->
        index1_at tbi = 0 -> index2_at tbi = 0 ->
        (diff1_at tbi =? 0)%float = true ->
        (diff2_at tbi =? 0)%float = true ->
        new_index_request cfg false tbi t = (Some 0, t))
  /\ (forall index1 index2 d1 d2 t,
        exists index t',
          tapeAddStatement_noActivityAnalysis index1 index2 d1 d2 t
          = (index, t')
          /\ entries t' = entries t ++ [mkTapeEntry index1 index2 d1 d2]
          /\ index = Z.of_nat (length (entries t'))
          /\ index <> 0
          /\ entries t' !! Z.to_nat (index - 1)
             = Some (mkTapeEntry index1 index2 d1 d2))
  /\ (forall cfg tbi t,
        mode cfg = "b"%char ->
        exists index t',
          new_index_request cfg true tbi t = (Some index, t')
          /\ entries t'
             = entries t ++ [mkTapeEntry (index1_at tbi) (index2_at tbi)
                                         (diff1_at tbi) (diff2_at tbi)]
          /\ index = Z.of_nat (length (entries t'))
          /\ index <> 0).
Proof.
  split; [exact tapeAddStatement_inactive|].
  split; [intros t; reflexivity|].
  split.
  { intros cfg tbi t Hmode H1 H2 Hd1 Hd2. unfold new_index_request.
    rewrite Hmode, bool_decide_eq_true_2 by reflexivity. cbn [negb].
    rewrite H1, H2, (tapeAddStatement_inactive _ _ _ Hd1 Hd2).
    cbn. now rewrite andb_false_r. }
  split.
  { intros index1 index2 d1 d2 t. eexists _, _.
    split; [reflexivity|]. cbn [entries].
    split; [reflexivity|].
    rewrite length_app. cbn [length].
    split; [lia|]. split; [lia|].
    replace (Z.to_nat (Z.of_nat (length (entries t)) + 1 - 1))
      with (length (entries t) + 0)%nat by lia.
    rewrite lookup_app_r, Nat.add_0_r, Nat.sub_diag by lia. reflexivity. }
  intros cfg tbi t Hmode. unfold new_index_request.
  rewrite Hmode, bool_decide_eq_true_2 by reflexivity. cbn [negb].
  unfold tapeAddStatement_noActivityAnalysis.
  destruct (bar_record_values cfg
            && negb (Z.of_nat (length (entries t)) + 1 =? 0));
    eexists _, _; (split; [reflexivity|]); cbn [entries valuesAddStatement];
    (split; [reflexivity|]); rewrite length_app; cbn [length]; lia.
Qed.

Lemma activity_pruning_and_its_absence_witness :
  ((0 =? 0)%float = true
   /\ mode (mkSettings "b" true) = "b"%char)
  /\ tapeAddStatement 0 0 0 0 (mkTape [mkTapeEntry 0 0 0 0] [4%float])
     = (0, mkTape [mkTapeEntry 0 0 0 0] [4%float])
  /\ new_index_request (mkSettings "b" true) false
       (mkTapeBlockInfo 0 0 0 0 64) (mkTape [mkTapeEntry 0 0 0 0] [4%float])
     = (Some 0, mkTape [mkTapeEntry 0 0 0 0] [4%float]).
Proof.
  split; [split; reflexivity|]. split.
  - apply (proj1 activity_pruning_and_its_absence); reflexivity.
  - apply (proj1 (proj2 (proj2 activity_pruning_and_its_absence)));
      reflexivity.
Defined.

End Tape_properties.

(** * The linear combination of dependencies, in general *)

Section Linear_combination.
Import LinExprs.

Variable g : Garbage.

(** The arrays of a linearized expression have [MAX_NDEP] elements. *)
Definition well_formed (e : LinExpr) : Prop :=
  length (identifier e) = Z.to_nat MAX_NDEP
  /\ length (jacobian e) = Z.to_nat MAX_NDEP.

(** Two stores with the same block, counters and number of elements. *)
Definition same_shape (s s' : Store) : Prop :=
  block s' = block s /\ n_linexpr s' = n_linexpr s
  /\ max_linexpr s' = max_linexpr s
  /\ length (buffer_linexpr s') = length (buffer_linexpr s).

Lemma same_shape_refl s : same_shape s s.
Proof. repeat split. Qed.

Lemma same_shape_trans s1 s2 s3 :
  same_shape s1 s2 -> same_shape s2 s3 -> same_shape s1 s3.
Proof.
  intros (?&?&?&?) (?&?&?&?). repeat split; congruence.
Qed.

Lemma deref_Some s p e :
  deref s p = Some e ->
  p.1 = block s /\ 0 <= p.2
  /\ buffer_linexpr s !! Z.to_nat p.2 = Some e.
Proof.
  unfold deref. intros H.
  destruct (bool_decide (p.1 = block s)) eqn:Hb; [|discriminate H].
  destruct (0 <=? p.2) eqn:Hz; [|discriminate H].
  apply bool_decide_eq_true in Hb. apply Z.leb_le in Hz. auto.
Qed.

Lemma update_spec s p f e e' :
  deref s p = Some e -> f e = Some e' ->
  exists s',
    update s p f = Some s'
    /\ deref s' p = Some e'
    /\ (forall q, q <> p -> deref s' q = deref s q)
    /\ same_shape s s'.
Proof.
  intros Hp Hf. destruct (deref_Some s p e Hp) as (Hb & Hz & Hl).
  pose proof (lookup_lt_Some _ _ _ Hl) as Hlt.
  exists (mkStore (block s) (<[Z.to_nat p.2 := e']> (buffer_linexpr s))
                  (n_linexpr s) (max_linexpr s)).
  split.
  { unfold update. rewrite Hp. cbn [mbind option_bind]. rewrite Hf.
    cbn [mbind option_bind]. unfold assign.
    rewrite !bool_decide_eq_true_2 by assumption.
    apply Z.leb_le in Hz. now rewrite Hz. }
  split.
  { unfold deref. cbn [block buffer_linexpr].
    rewrite bool_decide_eq_true_2 by assumption.
    apply Z.leb_le in Hz. rewrite Hz. cbn [andb].
    now apply list_lookup_insert_eq. }
  split.
  { intros q Hq. unfold deref. cbn [block buffer_linexpr].
    destruct (bool_decide (q.1 = block s)) eqn:Hqb; [|reflexivity].
    destruct (0 <=? q.2) eqn:Hqz; [|reflexivity]. cbn [andb].
    apply bool_decide_eq_true in Hqb. apply Z.leb_le in Hqz.
    apply list_lookup_insert_ne. intros Heq. apply Hq.
    destruct p, q; cbn in *. f_equal; [congruence|lia]. }
  repeat split. cbn [buffer_linexpr]. apply length_insert.
Qed.

Lemma rd_lookup {A} (arr : list A) (i : Z) :
  0 <= i < MAX_NDEP -> rd arr i = arr !! Z.to_nat i.
Proof.
  intros [Hlo Hhi]. unfold rd.
  apply Z.leb_le in Hlo. apply Z.ltb_lt in Hhi. now rewrite Hlo, Hhi.
Qed.

Lemma wr_insert {A} (arr : list A) (i : Z) (v : A) :
  0 <= i < MAX_NDEP -> length arr = Z.to_nat MAX_NDEP ->
  wr arr i v = Some (<[Z.to_nat i := v]> arr).
Proof.
  intros [Hlo Hhi] Hlen. unfold wr.
  rewrite bool_decide_eq_true_2 by lia.
  apply Z.leb_le in Hlo. apply Z.ltb_lt in Hhi. now rewrite Hlo, Hhi.
Qed.

(** A [for] loop that keeps an invariant [P] and counts up to [n]. *)
Lemma for_loop_invariant (P : Z -> Store -> Prop) cond body (n : Z) :
  (forall j s, P j s -> cond j s = Some (j <? n)) ->
  (forall j s, P j s -> j < n -> exists s', body j s = Some s' /\ P (j + 1) s') ->
  forall fuel i s,
    i <= n -> (Z.to_nat (n - i) < fuel)%nat -> P i s ->
    exists s', for_loop fuel cond body i s = Some s' /\ P n s'.
Proof.
  intros Hcond Hbody fuel.
  induction fuel as [|fuel IH]; intros i s Hi Hfuel HP; [lia|].
  cbn [for_loop]. rewrite (Hcond i s HP). cbn [mbind option_bind].
  destruct (i <? n) eqn:Hlt.
  - apply Z.ltb_lt in Hlt.
    destruct (Hbody i s HP Hlt) as (s' & Hs' & HP').
    rewrite Hs'. cbn [mbind option_bind].
    apply IH; [lia|lia|exact HP'].
  - apply Z.ltb_ge in Hlt. assert (i = n) as -> by lia.
    exists s. auto.
Qed.

Lemma take_S_insert {A} (l : list A) (i : nat) (x : A) :
  (i < length l)%nat -> take (S i) (<[i := x]> l) = take i l ++ [x].
Proof.
  intros Hi. rewrite (take_S_r _ _ x) by (now apply list_lookup_insert_eq).
  now rewrite take_insert_ge by lia.
Qed.

(** A pair (identifier, partial derivative) with the partial derivative
    multiplied by [c]. *)
Definition scaled (c : Scalar) : Identifier * Scalar -> Identifier * Scalar :=
  prod_map id (fun j => (c * j)%float).

Lemma zip_scaled (c : Scalar) (ids : list Identifier) (js : list Scalar) :
  zip ids ((fun j => (c * j)%float) <$> js) = scaled c <$> zip ids js.
Proof.
  revert js. induction ids as [|x ids IH]; intros [|j js]; cbn;
    [reflexivity..|]. now rewrite IH.
Qed.

(** [newLinExpr] when there is room in the buffer: the buffer stays where
    it is, and the entry behind the entries in use is handed out. *)
Lemma newLinExpr_room (s : Store) :
  0 <= n_linexpr s < max_linexpr s ->
  max_linexpr s <= INT_MAX ->
  length (buffer_linexpr s) = Z.to_nat (max_linexpr s) ->
  exists s' ef,
    newLinExpr g s = Some ((block s, n_linexpr s), s')
    /\ buffer_linexpr s !! Z.to_nat (n_linexpr s) = Some ef
    /\ deref s' (block s, n_linexpr s) = Some (set_ndep 0 ef)
    /\ (forall q, q <> (block s, n_linexpr s) -> deref s' q = deref s q)
    /\ block s' = block s /\ n_linexpr s' = n_linexpr s + 1
    /\ max_linexpr s' = max_linexpr s
    /\ length (buffer_linexpr s') = length (buffer_linexpr s).
Proof.
  intros Hn Hmax Hlen.
  destruct (lookup_lt_is_Some_2 (buffer_linexpr s) (Z.to_nat (n_linexpr s)))
    as [ef Hef]; [lia|].
  assert (deref s (block s, n_linexpr s) = Some ef) as Hderef
    by (rewrite deref_in_block by lia; exact Hef).
  destruct (update_spec s (block s, n_linexpr s)
              (fun e => Some (set_ndep 0 e)) ef (set_ndep 0 ef)
              Hderef eq_refl)
    as (s2 & Hupd & Hres & Hframe & Hb & Hn2 & Hm2 & Hl2).
  exists (mkStore (block s2) (buffer_linexpr s2) (n_linexpr s + 1)
                  (max_linexpr s2)), ef.
  split.
  { unfold newLinExpr.
    replace (n_linexpr s =? max_linexpr s) with false
      by (symmetry; apply Z.eqb_neq; lia).
    cbn [mbind option_bind]. unfold store_ndep. rewrite Hupd.
    cbn [mbind option_bind]. rewrite Hn2.
    rewrite int_of_in_range by (unfold INT_MIN; lia). reflexivity. }
  split; [exact Hef|].
  split; [exact Hres|].
  split; [exact Hframe|].
  cbn [block n_linexpr max_linexpr buffer_linexpr]. auto.
Qed.

Section Combination.

Variables (k l : Scalar) (s1 : Store) (a b res : Ptr) (ea eb : LinExpr).

Hypothesis a_not_res : a <> res.
Hypothesis b_not_res : b <> res.
Hypothesis deref_a : deref s1 a = Some ea.
Hypothesis deref_b : deref s1 b = Some eb.
Hypothesis well_formed_a : well_formed ea.
Hypothesis well_formed_b : well_formed eb.
Hypothesis ndep_a : 0 <= ndep ea.
Hypothesis ndep_b : 0 <= ndep eb.
Hypothesis ndep_sum : ndep ea + ndep eb <= MAX_NDEP.

(** The invariant of the two loops: the store is [s1] but for [*res], whose
    arrays begin with [ids] and [js]. *)
Definition prefix_inv (ids : list Identifier) (js : list Scalar) (s : Store)
  : Prop :=
  same_shape s1 s
  /\ (forall q, q <> res -> deref s q = deref s1 q)
  /\ exists er,
       deref s res = Some er /\ well_formed er
       /\ ndep er = ndep ea + ndep eb
       /\ take (length ids) (identifier er) = ids
       /\ take (length js) (jacobian er) = js.

Lemma prefix_step ids js s (m : Z) x y :
  prefix_inv ids js s ->
  Z.of_nat (length ids) = m -> Z.of_nat (length js) = m -> m < MAX_NDEP ->
  exists sA,
    store_identifier s res m x = Some sA
    /\ (forall q, q <> res -> deref sA q = deref s q)
    /\ exists sB,
         store_jacobian sA res m y = Some sB
         /\ prefix_inv (ids ++ [x]) (js ++ [y]) sB.
Proof.
  intros (Hshape & Hframe & er & Her & [Hwi Hwj] & Hnd & Hids & Hjs)
         Hlen_ids Hlen_js Hm.
  assert (0 <= m < MAX_NDEP) as Hrange by lia.
  destruct (update_spec s res
              (fun e => ids' ← wr (identifier e) m x;
                        Some (set_identifier ids' e))
              er (set_identifier (<[Z.to_nat m := x]> (identifier er)) er) Her)
    as (sA & HsA & HresA & HframeA & HshapeA).
  { now rewrite wr_insert. }
  exists sA. split; [exact HsA|]. split; [exact HframeA|].
  destruct (update_spec sA res
              (fun e => js' ← wr (jacobian e) m y; Some (set_jacobian js' e))
              _ (set_jacobian (<[Z.to_nat m := y]> (jacobian er))
                   (set_identifier (<[Z.to_nat m := x]> (identifier er)) er))
              HresA)
    as (sB & HsB & HresB & HframeB & HshapeB).
  { cbn [jacobian set_identifier]. now rewrite wr_insert. }
  exists sB. split; [exact HsB|].
  split; [eauto using same_shape_trans|].
  split.
  { intros q Hq. now rewrite HframeB, HframeA, Hframe. }
  eexists. split; [exact HresB|].
  unfold well_formed.
  cbn [identifier jacobian ndep set_identifier set_jacobian].
  rewrite !length_insert. split; [auto|].
  split; [exact Hnd|].
  rewrite !length_app. cbn [length]. rewrite !Nat.add_1_r.
  replace (length ids) with (Z.to_nat m) in * by lia.
  replace (length js) with (Z.to_nat m) in * by lia.
  unfold MAX_NDEP in *.
  rewrite !take_S_insert by lia. now rewrite Hids, Hjs.
Qed.

Lemma take_succ_lookup {A} (arr : list A) (j : Z) :
  0 <= j -> (Z.to_nat j < length arr)%nat ->
  exists x, arr !! Z.to_nat j = Some x
            /\ take (Z.to_nat (j + 1)) arr = take (Z.to_nat j) arr ++ [x].
Proof.
  intros Hj Hlt.
  destruct (lookup_lt_is_Some_2 arr (Z.to_nat j) Hlt) as [x Hx].
  exists x. split; [exact Hx|].
  replace (Z.to_nat (j + 1)) with (S (Z.to_nat j)) by lia.
  now apply take_S_r.
Qed.

(** The first loop of [linearCombinationOfDependencies]. *)
Lemma first_loop s :
  prefix_inv [] [] s ->
  exists s',
    for_loop loop_fuel
      (fun i s => na ← load_ndep s a; Some (i <? na))
      (fun i s =>
         id ← load_identifier s a i;
         s ← store_identifier s res i id;
         j ← load_jacobian s a i;
         store_jacobian s res i (k * j)%float)
      0 s = Some s'
    /\ prefix_inv (take (Z.to_nat (ndep ea)) (identifier ea))
         ((fun j => (k * j)%float) <$> take (Z.to_nat (ndep ea)) (jacobian ea))
         s'.
Proof.
  intros Hinv. destruct well_formed_a as [Hwi Hwj].
  pose proof ndep_sum as Hsum. pose proof ndep_a as Hna.
  pose proof ndep_b as Hnb. unfold MAX_NDEP in Hsum, Hwi, Hwj.
  pose (P := fun (j : Z) (s : Store) =>
               0 <= j <= ndep ea
               /\ prefix_inv (take (Z.to_nat j) (identifier ea))
                    ((fun j => (k * j)%float)
                       <$> take (Z.to_nat j) (jacobian ea)) s).
  destruct (for_loop_invariant P
              (fun i s => na ← load_ndep s a; Some (i <? na))
              (fun i s =>
                 id ← load_identifier s a i;
                 s ← store_identifier s res i id;
                 j ← load_jacobian s a i;
                 store_jacobian s res i (k * j)%float)
              (ndep ea)) with (fuel := loop_fuel) (i := 0) (s := s)
    as (s' & Hloop & _ & Hinv').
  - intros j s0 (_ & _ & Hframe & _). unfold load_ndep.
    now rewrite Hframe, deref_a by exact a_not_res.
  - intros j s0 (Hj & Hinv0) Hlt.
    destruct (take_succ_lookup (identifier ea) j) as (x & Hx & Htx);
      [lia|lia|].
    destruct (take_succ_lookup (jacobian ea) j) as (y & Hy & Hty);
      [lia|lia|].
    destruct (prefix_step _ _ s0 j x (k * y)%float Hinv0)
      as (sA & HsA & HframeA & sB & HsB & HinvB).
    { rewrite length_take_le by lia. lia. }
    { rewrite length_fmap, length_take_le by lia. lia. }
    { unfold MAX_NDEP. lia. }
    exists sB. split.
    + destruct Hinv0 as (_ & Hframe & _).
      assert (deref s0 a = Some ea) as Ha0
        by (rewrite (Hframe a a_not_res); exact deref_a).
      assert (deref sA a = Some ea) as HaA
        by (rewrite (HframeA a a_not_res); exact Ha0).
      unfold load_identifier, load_jacobian.
      rewrite Ha0. cbn [mbind option_bind].
      rewrite rd_lookup, Hx by (unfold MAX_NDEP; lia).
      cbn [mbind option_bind]. rewrite HsA. cbn [mbind option_bind].
      rewrite HaA. cbn [mbind option_bind].
      rewrite rd_lookup, Hy by (unfold MAX_NDEP; lia).
      cbn [mbind option_bind]. exact HsB.
    + split; [lia|]. rewrite Htx, Hty, fmap_app. exact HinvB.
  - lia.
  - unfold loop_fuel, MAX_NDEP in *. lia.
  - split; [lia|]. exact Hinv.
  - exists s'. split; [exact Hloop|exact Hinv'].
Qed.

(** The second loop of [linearCombinationOfDependencies]. *)
Lemma second_loop ids js s :
  Z.of_nat (length ids) = ndep ea -> Z.of_nat (length js) = ndep ea ->
  prefix_inv ids js s ->
  exists s',
    for_loop loop_fuel
      (fun i s => nb ← load_ndep s b; Some (i <? nb))
      (fun i s =>
         id ← load_identifier s b i;
         na ← load_ndep s a;
         s ← store_identifier s res (na + i) id;
         j ← load_jacobian s b i;
         na ← load_ndep s a;
         store_jacobian s res (na + i) (l * j)%float)
      0 s = Some s'
    /\ prefix_inv (ids ++ take (Z.to_nat (ndep eb)) (identifier eb))
         (js ++ ((fun j => (l * j)%float)
                   <$> take (Z.to_nat (ndep eb)) (jacobian eb)))
         s'.
Proof.
  intros Hlen_ids Hlen_js Hinv. destruct well_formed_b as [Hwi Hwj].
  pose proof ndep_sum as Hsum. pose proof ndep_a as Hna.
  pose proof ndep_b as Hnb. unfold MAX_NDEP in Hsum, Hwi, Hwj.
  pose (P := fun (j : Z) (s : Store) =>
               0 <= j <= ndep eb
               /\ prefix_inv (ids ++ take (Z.to_nat j) (identifier eb))
                    (js ++ ((fun j => (l * j)%float)
                              <$> take (Z.to_nat j) (jacobian eb))) s).
  destruct (for_loop_invariant P
              (fun i s => nb ← load_ndep s b; Some (i <? nb))
              (fun i s =>
                 id ← load_identifier s b i;
                 na ← load_ndep s a;
                 s ← store_identifier s res (na + i) id;
                 j ← load_jacobian s b i;
                 na ← load_ndep s a;
                 store_jacobian s res (na + i) (l * j)%float)
              (ndep eb)) with (fuel := loop_fuel) (i := 0) (s := s)
    as (s' & Hloop & _ & Hinv').
  - intros j s0 (_ & _ & Hframe & _). unfold load_ndep.
    now rewrite Hframe, deref_b by exact b_not_res.
  - intros j s0 (Hj & Hinv0) Hlt.
    destruct (take_succ_lookup (identifier eb) j) as (x & Hx & Htx);
      [lia|lia|].
    destruct (take_succ_lookup (jacobian eb) j) as (y & Hy & Hty);
      [lia|lia|].
    destruct (prefix_step _ _ s0 (ndep ea + j) x (l * y)%float Hinv0)
      as (sA & HsA & HframeA & sB & HsB & HinvB).
    { rewrite length_app, length_take_le by lia. lia. }
    { rewrite length_app, length_fmap, length_take_le by lia. lia. }
    { unfold MAX_NDEP. lia. }
    exists sB. split.
    + destruct Hinv0 as (_ & Hframe & _).
      assert (deref s0 a = Some ea) as Ha0
        by (rewrite (Hframe a a_not_res); exact deref_a).
      assert (deref s0 b = Some eb) as Hb0
        by (rewrite (Hframe b b_not_res); exact deref_b).
      assert (deref sA a = Some ea) as HaA
        by (rewrite (HframeA a a_not_res); exact Ha0).
      assert (deref sA b = Some eb) as HbA
        by (rewrite (HframeA b b_not_res); exact Hb0).
      unfold load_identifier, load_jacobian, load_ndep.
      rewrite Hb0. cbn [mbind option_bind].
      rewrite rd_lookup, Hx by (unfold MAX_NDEP; lia).
      cbn [mbind option_bind].
      rewrite Ha0. cbn [mbind option_bind fmap option_fmap option_map].
      rewrite HsA. cbn [mbind option_bind].
      rewrite HbA. cbn [mbind option_bind].
      rewrite rd_lookup, Hy by (unfold MAX_NDEP; lia).
      cbn [mbind option_bind].
      rewrite HaA. cbn [mbind option_bind fmap option_fmap option_map].
      exact HsB.
    + split; [lia|]. rewrite Htx, Hty, fmap_app, !app_assoc. exact HinvB.
  - lia.
  - unfold loop_fuel, MAX_NDEP in *. lia.
  - split; [lia|]. cbn. now rewrite !app_nil_r.
  - exists s'. split; [exact Hloop|exact Hinv'].
Qed.

End Combination.

(** The store as the callers of [newLinExpr] keep it: the buffer has
    [max_linexpr] elements, with arrays of [MAX_NDEP] elements, and one more
    entry fits. *)
Definition has_room (s : Store) : Prop :=
  0 <= n_linexpr s < max_linexpr s
  /\ max_linexpr s <= INT_MAX
  /\ length (buffer_linexpr s) = Z.to_nat (max_linexpr s)
  /\ Forall well_formed (buffer_linexpr s).

(** An entry in use. *)
Definition in_use (s : Store) (p : Ptr) (e : LinExpr) : Prop :=
  p.1 = block s /\ 0 <= p.2 < n_linexpr s /\ deref s p = Some e
  /\ 0 <= ndep e.

(** What [linearCombinationOfDependencies(k, a, l, b)] returns: a new entry
    whose dependencies are those of [a] with the partial derivatives
    multiplied by [k], followed by those of [b] with the partial derivatives
    multiplied by [l]. *)
Lemma linearCombinationOfDependencies_computes k l s a b ea eb :
  has_room s -> in_use s a ea -> in_use s b eb ->
  ndep ea + ndep eb <= MAX_NDEP ->
  exists s' e,
    linearCombinationOfDependencies g k a l b s
    = Some ((block s, n_linexpr s), s')
    /\ deref s' (block s, n_linexpr s) = Some e
    /\ well_formed e
    /\ ndep e = ndep ea + ndep eb
    /\ dependencies e
       = (scaled k <$> dependencies ea) ++ (scaled l <$> dependencies eb)
    /\ (forall q, q <> (block s, n_linexpr s) -> deref s' q = deref s q)
    /\ block s' = block s /\ n_linexpr s' = n_linexpr s + 1
    /\ max_linexpr s' = max_linexpr s
    /\ length (buffer_linexpr s') = length (buffer_linexpr s).
Proof.
  intros (Hn & Hmax & Hlen & Hwf) (Hab & Hai & Ha & Hna) (Hbb & Hbi & Hb & Hnb)
         Hsum.
  set (res := (block s, n_linexpr s)).
  assert (a <> res) as Har by (destruct a; unfold res; cbn in *; intros [=]; lia).
  assert (b <> res) as Hbr by (destruct b; unfold res; cbn in *; intros [=]; lia).
  assert (well_formed ea) as Hwa.
  { destruct (deref_Some _ _ _ Ha) as (_ & _ & Hl).
    exact (proj1 (Forall_lookup _ _) Hwf _ _ Hl). }
  assert (well_formed eb) as Hwb.
  { destruct (deref_Some _ _ _ Hb) as (_ & _ & Hl).
    exact (proj1 (Forall_lookup _ _) Hwf _ _ Hl). }
  destruct (newLinExpr_room s Hn Hmax Hlen)
    as (s1 & ef & Hnew & Hef & Hres1 & Hframe1 & Hb1 & Hn1 & Hm1 & Hl1).
  fold res in Hnew, Hres1, Hframe1.
  assert (well_formed ef) as Hwef
    by exact (proj1 (Forall_lookup _ _) Hwf _ _ Hef).
  assert (deref s1 a = Some ea) as Ha1 by (rewrite Hframe1; assumption).
  assert (deref s1 b = Some eb) as Hb1' by (rewrite Hframe1; assumption).
  destruct (update_spec s1 res
              (fun e => Some (set_ndep (ndep ea + ndep eb) e))
              _ (set_ndep (ndep ea + ndep eb) (set_ndep 0 ef)) Hres1 eq_refl)
    as (s2 & Hs2 & Hres2 & Hframe2 & Hshape2).
  assert (deref s2 a = Some ea) as Ha2 by (rewrite Hframe2; assumption).
  assert (deref s2 b = Some eb) as Hb2 by (rewrite Hframe2; assumption).
  assert (prefix_inv s2 res ea eb [] [] s2) as Hinv2.
  { split; [apply same_shape_refl|]. split; [reflexivity|].
    eexists. split; [exact Hres2|]. split; [exact Hwef|].
    split; [reflexivity|]. split; reflexivity. }
  destruct (first_loop k s2 a res ea eb Har Ha2 Hwa Hna Hnb Hsum s2 Hinv2)
    as (s3 & Hloop1 & Hinv3).
  destruct Hwa as [Hwai Hwaj]. destruct Hwb as [Hwbi Hwbj].
  pose proof Hsum as Hsum'. unfold MAX_NDEP in Hsum', Hwai, Hwaj, Hwbi, Hwbj.
  destruct (second_loop l s2 a b res ea eb Har Hbr Ha2 Hb2 (conj Hwbi Hwbj)
              Hna Hnb Hsum
              (take (Z.to_nat (ndep ea)) (identifier ea))
              ((fun j => (k * j)%float)
                 <$> take (Z.to_nat (ndep ea)) (jacobian ea)) s3)
    as (s4 & Hloop2 & Hinv4); [| |exact Hinv3|].
  { rewrite length_take_le by lia. lia. }
  { rewrite length_fmap, length_take_le by lia. lia. }
  destruct Hinv4 as (Hshape4 & Hframe4 & er & Hres4 & Hwer & Hnd4 & Hids & Hjs).
  exists s4, er.
  split.
  { unfold linearCombinationOfDependencies. rewrite Hnew.
    cbn [mbind option_bind].
    assert (load_ndep s1 a = Some (ndep ea)) as -> by (unfold load_ndep; now rewrite Ha1).
    assert (load_ndep s1 b = Some (ndep eb)) as -> by (unfold load_ndep; now rewrite Hb1'). cbn [mbind option_bind fmap option_fmap option_map].
    rewrite int_of_in_range by (unfold INT_MIN, INT_MAX; lia).
    cbn [mbind option_bind]. unfold store_ndep. rewrite Hs2.
    cbn [mbind option_bind]. rewrite Hloop1. cbn [mbind option_bind].
    rewrite Hloop2. reflexivity. }
  split; [exact Hres4|]. split; [exact Hwer|]. split; [exact Hnd4|].
  split.
  { unfold dependencies. rewrite Hnd4.
    rewrite !length_app, !length_take_le in Hids by lia.
    rewrite !length_app, !length_fmap, !length_take_le in Hjs by lia.
    replace (Z.to_nat (ndep ea + ndep eb))
      with (Z.to_nat (ndep ea) + Z.to_nat (ndep eb))%nat by lia.
    rewrite zip_with_take, Hids, Hjs.
    rewrite zip_with_app
      by (rewrite length_fmap, !length_take_le by lia; reflexivity).
    rewrite !zip_scaled, <- !zip_with_take. reflexivity. }
  split.
  { intros q Hq. now rewrite Hframe4, Hframe2, Hframe1. }
  destruct Hshape2 as (?&?&?&?). destruct Hshape4 as (?&?&?&?).
  repeat split; congruence.
Qed.

(** The end of the four arithmetic operations: the linear combination, and
    then [res->value = f(a->value, b->value)]. *)
Lemma combination_with_value k l (f : Scalar -> Scalar -> Scalar)
    s a b ea eb :
  has_room s -> in_use s a ea -> in_use s b eb ->
  ndep ea + ndep eb <= MAX_NDEP ->
  exists s' e,
    ('(res, s1) ← linearCombinationOfDependencies g k a l b s;
     va ← load_value s1 a; vb ← load_value s1 b;
     s2 ← store_value s1 res (f va vb);
     Some (res, s2)) = Some ((block s, n_linexpr s), s')
    /\ deref s' (block s, n_linexpr s) = Some e
    /\ value e = f (value ea) (value eb)
    /\ dependencies e
       = (scaled k <$> dependencies ea) ++ (scaled l <$> dependencies eb)
    /\ deref s' a = Some ea /\ deref s' b = Some eb.
Proof.
  intros Hroom Ha Hb Hsum.
  destruct (linearCombinationOfDependencies_computes k l s a b ea eb
              Hroom Ha Hb Hsum)
    as (s1 & e1 & Hcomb & Hres1 & _ & _ & Hdeps & Hframe1 & _).
  destruct Ha as (Hab & Hai & Ha & _). destruct Hb as (Hbb & Hbi & Hb & _).
  set (res := (block s, n_linexpr s)) in *.
  assert (a <> res) as Har by (destruct a; unfold res; cbn in *; intros [=]; lia).
  assert (b <> res) as Hbr by (destruct b; unfold res; cbn in *; intros [=]; lia).
  destruct (update_spec s1 res
              (fun e => Some (set_value (f (value ea) (value eb)) e))
              e1 _ Hres1 eq_refl)
    as (s2 & Hs2 & Hres2 & Hframe2 & _).
  exists s2. eexists. split.
  { rewrite Hcomb. cbn [mbind option_bind]. unfold load_value.
    rewrite !Hframe1, Ha, Hb by assumption.
    cbn [mbind option_bind fmap option_fmap option_map].
    unfold store_value. rewrite Hs2. reflexivity. }
  split; [exact Hres2|]. split; [reflexivity|].
  split; [exact Hdeps|].
  rewrite !Hframe2, !Hframe1 by assumption. auto.
Qed.

Lemma load_value_in_use s p e : in_use s p e -> load_value s p = Some (value e).
Proof. intros (_ & _ & H & _). unfold load_value. now rewrite H. Qed.

(** What [addLinExpr(a, b)] returns: a new entry with the value
    [a.value + b.value], and with the dependencies of [a] followed by those
    of [b], the partial derivatives multiplied by 1; [*a] and [*b] are as
    before. *)
Theorem addLinExpr_spec s a b ea eb :
  has_room s -> in_use s a ea -> in_use s b eb ->
  ndep ea + ndep eb <= MAX_NDEP ->
  exists s' e,
    addLinExpr g a b s = Some ((block s, n_linexpr s), s')
    /\ deref s' (block s, n_linexpr s) = Some e
    /\ value e = (value ea + value eb)%float
    /\ dependencies e
       = (scaled 1%float <$> dependencies ea)
         ++ (scaled 1%float <$> dependencies eb)
    /\ deref s' a = Some ea /\ deref s' b = Some eb.
Proof.
  intros Hroom Ha Hb Hsum. unfold addLinExpr.
  exact (combination_with_value 1%float 1%float (fun x y => (x + y)%float)
           s a b ea eb Hroom Ha Hb Hsum).
Qed.

(** What [subLinExpr(a, b)] returns: a new entry with the value
    [a.value - b.value], and with the dependencies of [a], the partial
    derivatives multiplied by 1, followed by those of [b], the partial
    derivatives multiplied by -1. *)
Theorem subLinExpr_spec s a b ea eb :
  has_room s -> in_use s a ea -> in_use s b eb ->
  ndep ea + ndep eb <= MAX_NDEP ->
  exists s' e,
    subLinExpr g a b s = Some ((block s, n_linexpr s), s')
    /\ deref s' (block s, n_linexpr s) = Some e
    /\ value e = (value ea - value eb)%float
    /\ dependencies e
       = (scaled 1%float <$> dependencies ea)
         ++ (scaled (-1)%float <$> dependencies eb)
    /\ deref s' a = Some ea /\ deref s' b = Some eb.
Proof.
  intros Hroom Ha Hb Hsum. unfold subLinExpr.
  exact (combination_with_value 1%float (-1)%float (fun x y => (x - y)%float)
           s a b ea eb Hroom Ha Hb Hsum).
Qed.

(** What [mulLinExpr(a, b)] returns, the product rule: a new entry with the
    value [a.value * b.value], and with the dependencies of [a], the partial
    derivatives multiplied by [b.value], followed by those of [b], the
    partial derivatives multiplied by [a.value]. *)
Theorem mulLinExpr_spec s a b ea eb :
  has_room s -> in_use s a ea -> in_use s b eb ->
  ndep ea + ndep eb <= MAX_NDEP ->
  exists s' e,
    mulLinExpr g a b s = Some ((block s, n_linexpr s), s')
    /\ deref s' (block s, n_linexpr s) = Some e
    /\ value e = (value ea * value eb)%float
    /\ dependencies e
       = (scaled (value eb) <$> dependencies ea)
         ++ (scaled (value ea) <$> dependencies eb)
    /\ deref s' a = Some ea /\ deref s' b = Some eb.
Proof.
  intros Hroom Ha Hb Hsum. unfold mulLinExpr.
  rewrite (load_value_in_use _ _ _ Ha), (load_value_in_use _ _ _ Hb).
  cbn [mbind option_bind].
  exact (combination_with_value (value eb) (value ea)
           (fun x y => (x * y)%float) s a b ea eb Hroom Ha Hb Hsum).
Qed.

(** What [divLinExpr(a, b)] returns: a new entry with the value
    [a.value / b.value], and with the dependencies of [a], the partial
    derivatives multiplied by [-1/b.value], followed by those of [b], the
    partial derivatives multiplied by [a.value/(b.value*b.value)]. *)
Theorem divLinExpr_spec s a b ea eb :
  has_room s -> in_use s a ea -> in_use s b eb ->
  ndep ea + ndep eb <= MAX_NDEP ->
  exists s' e,
    divLinExpr g a b s = Some ((block s, n_linexpr s), s')
    /\ deref s' (block s, n_linexpr s) = Some e
    /\ value e = (value ea / value eb)%float
    /\ dependencies e
       = (scaled (-1 / value eb)%float <$> dependencies ea)
         ++ (scaled (value ea / (value eb * value eb))%float
               <$> dependencies eb)
    /\ deref s' a = Some ea /\ deref s' b = Some eb.
Proof.
  intros Hroom Ha Hb Hsum. unfold divLinExpr.
  rewrite (load_value_in_use _ _ _ Ha), (load_value_in_use _ _ _ Hb).
  cbn [mbind option_bind].
  exact (combination_with_value (-1 / value eb)%float
           (value ea / (value eb * value eb))%float
           (fun x y => (x / y)%float) s a b ea eb Hroom Ha Hb Hsum).
Qed.

End Linear_combination.

(** A variable as an entry of the buffer: the value [v] and one dependency,
    on [id], with partial derivative 1; the rest of the arrays is not in
    use. *)
Definition variable_entry (v : LinExprs.Scalar) (id : LinExprs.Identifier)
  : LinExprs.LinExpr :=
  LinExprs.mkLinExpr v 1 (id :: replicate 99 0)
                     (1%float :: replicate 99 0%float).

(** A buffer of three elements of which two are in use, for the variables
    [a = 1] and [b = 2]. *)
Definition two_variables_store : LinExprs.Store :=
  LinExprs.mkStore 1
    [variable_entry 1%float 1; variable_entry 2%float 2;
     variable_entry 0%float 0] 2 3.

Ltac two_variables_hypotheses :=
  lazymatch goal with
  | |- has_room _ =>
      split; [cbn; lia|]; split; [cbn; unfold INT_MAX; lia|];
      split; [reflexivity|]; repeat constructor
  | |- in_use _ _ _ =>
      split; [reflexivity|]; split; [cbn; lia|]; split; [reflexivity|];
      cbn; lia
  | |- _ => cbn; unfold LinExprs.MAX_NDEP; lia
  end.

Lemma addLinExpr_spec_witness :
  exists s' e,
    LinExprs.addLinExpr zero_garbage (1%nat, 0) (1%nat, 1) two_variables_store
    = Some ((1%nat, 2), s')
    /\ LinExprs.deref s' (1%nat, 2) = Some e
    /\ LinExprs.value e = (1 + 2)%float
    /\ LinExprs.dependencies e
       = (scaled 1%float
            <$> LinExprs.dependencies (variable_entry 1%float 1))
         ++ (scaled 1%float
               <$> LinExprs.dependencies (variable_entry 2%float 2))
    /\ LinExprs.deref s' (1%nat, 0) = Some (variable_entry 1%float 1)
    /\ LinExprs.deref s' (1%nat, 1) = Some (variable_entry 2%float 2).
Proof.
  apply (addLinExpr_spec zero_garbage two_variables_store (1%nat, 0)
           (1%nat, 1) (variable_entry 1%float 1) (variable_entry 2%float 2));
    two_variables_hypotheses.
Defined.

Lemma subLinExpr_spec_witness :
  exists s' e,
    LinExprs.subLinExpr zero_garbage (1%nat, 0) (1%nat, 1) two_variables_store
    = Some ((1%nat, 2), s')
    /\ LinExprs.deref s' (1%nat, 2) = Some e
    /\ LinExprs.value e = (1 - 2)%float
    /\ LinExprs.dependencies e
       = (scaled 1%float
            <$> LinExprs.dependencies (variable_entry 1%float 1))
         ++ (scaled (-1)%float
               <$> LinExprs.dependencies (variable_entry 2%float 2))
    /\ LinExprs.deref s' (1%nat, 0) = Some (variable_entry 1%float 1)
    /\ LinExprs.deref s' (1%nat, 1) = Some (variable_entry 2%float 2).
Proof.
  apply (subLinExpr_spec zero_garbage two_variables_store (1%nat, 0)
           (1%nat, 1) (variable_entry 1%float 1) (variable_entry 2%float 2));
    two_variables_hypotheses.
Defined.

Lemma mulLinExpr_spec_witness :
  exists s' e,
    LinExprs.mulLinExpr zero_garbage (1%nat, 0) (1%nat, 1) two_variables_store
    = Some ((1%nat, 2), s')
    /\ LinExprs.deref s' (1%nat, 2) = Some e
    /\ LinExprs.value e = (1 * 2)%float
    /\ LinExprs.dependencies e
       = (scaled 2%float
            <$> LinExprs.dependencies (variable_entry 1%float 1))
         ++ (scaled 1%float
               <$> LinExprs.dependencies (variable_entry 2%float 2))
    /\ LinExprs.deref s' (1%nat, 0) = Some (variable_entry 1%float 1)
    /\ LinExprs.deref s' (1%nat, 1) = Some (variable_entry 2%float 2).
Proof.
  apply (mulLinExpr_spec zero_garbage two_variables_store (1%nat, 0)
           (1%nat, 1) (variable_entry 1%float 1) (variable_entry 2%float 2));
    two_variables_hypotheses.
Defined.

Lemma divLinExpr_spec_witness :
  exists s' e,
    LinExprs.divLinExpr zero_garbage (1%nat, 0) (1%nat, 1) two_variables_store
    = Some ((1%nat, 2), s')
    /\ LinExprs.deref s' (1%nat, 2) = Some e
    /\ LinExprs.value e = (1 / 2)%float
    /\ LinExprs.dependencies e
       = (scaled (-1 / 2)%float
            <$> LinExprs.dependencies (variable_entry 1%float 1))
         ++ (scaled (1 / (2 * 2))%float
               <$> LinExprs.dependencies (variable_entry 2%float 2))
    /\ LinExprs.deref s' (1%nat, 0) = Some (variable_entry 1%float 1)
    /\ LinExprs.deref s' (1%nat, 1) = Some (variable_entry 2%float 2).
Proof.
  apply (divLinExpr_spec zero_garbage two_variables_store (1%nat, 0)
           (1%nat, 1) (variable_entry 1%float 1) (variable_entry 2%float 2));
    two_variables_hypotheses.
Defined.

(** * The buffer of linearized expressions: pointers, bounds, composition *)

Section Buffer.
Import LinExprs.

Variable g : Garbage.

Lemma update_Some s p f s' :
  update s p f = Some s' ->
  exists e e', deref s p = Some e /\ f e = Some e'
               /\ deref s' p = Some e'
               /\ (forall q, q <> p -> deref s' q = deref s q)
               /\ same_shape s s'.
Proof.
  intros H. unfold update in H.
  destruct (deref s p) as [e|] eqn:He; [|discriminate H].
  cbn [mbind option_bind] in H.
  destruct (f e) as [e'|] eqn:Hf; [|discriminate H].
  cbn [mbind option_bind] in H.
  destruct (update_spec s p f e e' He Hf) as (s'' & Hs'' & Hres & Hframe & Hsh).
  assert (s'' = s') as ->.
  { unfold update in Hs''. rewrite He in Hs''. cbn [mbind option_bind] in Hs''.
    rewrite Hf in Hs''. cbn [mbind option_bind] in Hs''. congruence. }
  exists e, e'. auto.
Qed.

(** An access to element [i] of one of the arrays of a linearized
    expression with [i] outside of [0 .. MAX_NDEP-1] is not defined. *)
Lemma store_identifier_outside s p i v :
  i < 0 \/ MAX_NDEP <= i -> store_identifier s p i v = None.
Proof.
  intros Hi. unfold store_identifier, update.
  destruct (deref s p) as [e|]; [|reflexivity]. cbn [mbind option_bind].
  unfold wr.
  replace ((0 <=? i) && (i <? MAX_NDEP)) with false; [reflexivity|].
  symmetry. apply andb_false_iff.
  destruct Hi; [left; apply Z.leb_gt|right; apply Z.ltb_ge]; lia.
Qed.

Lemma load_identifier_outside s p i :
  i < 0 \/ MAX_NDEP <= i -> load_identifier s p i = None.
Proof.
  intros Hi. unfold load_identifier.
  destruct (deref s p) as [e|]; [|reflexivity]. cbn [mbind option_bind].
  unfold rd.
  replace ((0 <=? i) && (i <? MAX_NDEP)) with false; [reflexivity|].
  symmetry. apply andb_false_iff.
  destruct Hi; [left; apply Z.leb_gt|right; apply Z.ltb_ge]; lia.
Qed.

(** A [for] loop one of whose rounds is not defined. *)
Lemma for_loop_undefined (P : Z -> Store -> Prop) cond body (n j : Z) :
  (forall i s, P i s -> cond i s = Some (i <? n)) ->
  (forall i s s', P i s -> body i s = Some s' -> P (i + 1) s') ->
  (forall s, P j s -> body j s = None) ->
  j < n ->
  forall fuel i s, i <= j -> P i s -> for_loop fuel cond body i s = None.
Proof.
  intros Hcond Hbody Hfail Hj fuel.
  induction fuel as [|fuel IH]; intros i s Hi HP; [reflexivity|].
  cbn [for_loop]. rewrite (Hcond i s HP). cbn [mbind option_bind].
  replace (i <? n) with true by (symmetry; apply Z.ltb_lt; lia).
  destruct (body i s) as [s'|] eqn:Hb; [|reflexivity].
  cbn [mbind option_bind].
  destruct (Z.eq_dec i j) as [->|Hne].
  - rewrite (Hfail s HP) in Hb. discriminate Hb.
  - apply IH; [lia|]. exact (Hbody i s s' HP Hb).
Qed.

(** [newLinExpr] while there is room: the entry behind the entries in use
    is handed out with [ndep = 0], the buffer stays where it is, and every
    other entry, and so every pointer handed out before, is as it was. *)
Theorem newLinExpr_with_room_keeps_pointers (s : Store) :
  0 <= n_linexpr s < max_linexpr s ->
  max_linexpr s <= INT_MAX ->
  length (buffer_linexpr s) = Z.to_nat (max_linexpr s) ->
  exists s',
    newLinExpr g s = Some ((block s, n_linexpr s), s')
    /\ load_ndep s' (block s, n_linexpr s) = Some 0
    /\ (forall q, q <> (block s, n_linexpr s) -> deref s' q = deref s q)
    /\ block s' = block s
    /\ n_linexpr s' = n_linexpr s + 1
    /\ max_linexpr s' = max_linexpr s.
Proof.
  intros Hn Hmax Hlen.
  destruct (newLinExpr_room g s Hn Hmax Hlen)
    as (s' & ef & Hnew & _ & Hres & Hframe & Hb & Hn' & Hm & _).
  exists s'. split; [exact Hnew|]. split.
  { unfold load_ndep. now rewrite Hres. }
  auto.
Qed.

Lemma newLinExpr_full_block s p s' :
  n_linexpr s = max_linexpr s -> newLinExpr g s = Some (p, s') ->
  block s' = S (block s).
Proof.
  intros Hfull Hnew. unfold newLinExpr in Hnew.
  rewrite Hfull, Z.eqb_refl in Hnew.
  destruct (int_of (2 * max_linexpr s + 1)) as [size|]; [|discriminate Hnew].
  cbn [mbind option_bind] in Hnew.
  destruct (if 0 <? max_linexpr s then _ else _) as [copied|];
    [|discriminate Hnew].
  cbn [mbind option_bind] in Hnew.
  match type of Hnew with
  | context [store_ndep ?s1 ?q 0] =>
      destruct (store_ndep s1 q 0) as [s2|] eqn:Hs2; [|discriminate Hnew];
      apply update_Some in Hs2;
      destruct Hs2 as (e & e' & _ & _ & _ & _ & Hb & _)
  end.
  cbn [mbind option_bind] in Hnew.
  destruct (int_of (n_linexpr s2 + 1)); [|discriminate Hnew].
  cbn [mbind option_bind] in Hnew.
  injection Hnew as _ <-. cbn [block] in *. exact Hb.
Qed.

(** [newLinExpr] on a full buffer frees the buffer: no pointer that was
    handed out before the call can be dereferenced after it. *)
Theorem newLinExpr_full_buffer_invalidates_pointers (s s' : Store) (p q : Ptr) :
  n_linexpr s = max_linexpr s ->
  newLinExpr g s = Some (p, s') ->
  (q.1 <= block s)%nat ->
  deref s' q = None.
Proof.
  intros Hfull Hnew Hq.
  pose proof (newLinExpr_full_block s p s' Hfull Hnew) as Hb.
  unfold deref. rewrite bool_decide_eq_false_2 by lia. reflexivity.
Qed.

Lemma linearCombinationOfDependencies_full k a l b s :
  n_linexpr s = max_linexpr s ->
  (a.1 <= block s)%nat \/ (b.1 <= block s)%nat ->
  linearCombinationOfDependencies g k a l b s = None.
Proof.
  intros Hfull Hab. unfold linearCombinationOfDependencies.
  destruct (newLinExpr g s) as [[res s1]|] eqn:Hnew; [|reflexivity].
  cbn [mbind option_bind].
  pose proof (newLinExpr_full_block s res s1 Hfull Hnew) as Hb.
  assert (forall q : Ptr, (q.1 <= block s)%nat -> load_ndep s1 q = None)
    as Hold.
  { intros q Hq. unfold load_ndep, deref.
    rewrite bool_decide_eq_false_2 by lia. reflexivity. }
  destruct Hab as [Ha|Hb'].
  - rewrite (Hold a Ha). reflexivity.
  - rewrite (Hold b Hb'). destruct (load_ndep s1 a); reflexivity.
Qed.

(** The arithmetic operations on a full buffer: [newLinExpr] frees the
    buffer that the operands point into before the operands are read, so
    that no operation has a defined result. *)
Theorem arithmetic_on_full_buffer_undefined (s : Store) (a b : Ptr) :
  n_linexpr s = max_linexpr s ->
  (a.1 <= block s)%nat \/ (b.1 <= block s)%nat ->
  addLinExpr g a b s = None /\ subLinExpr g a b s = None
  /\ mulLinExpr g a b s = None /\ divLinExpr g a b s = None.
Proof.
  intros Hfull Hab.
  pose proof (fun k l => linearCombinationOfDependencies_full k a l b s
                           Hfull Hab) as H.
  unfold addLinExpr, subLinExpr, mulLinExpr, divLinExpr.
  rewrite !H. repeat split; try reflexivity.
  - destruct (load_value s b); [|reflexivity]. cbn [mbind option_bind].
    destruct (load_value s a); [|reflexivity]. cbn [mbind option_bind].
    now rewrite H.
  - destruct (load_value s b); [|reflexivity]. cbn [mbind option_bind].
    destruct (load_value s a); [|reflexivity]. cbn [mbind option_bind].
    now rewrite H.
Qed.

Lemma for_loop_keeps (Q : Store -> Prop) cond body :
  (forall i s s', Q s -> body i s = Some s' -> Q s') ->
  forall fuel i s s',
    Q s -> for_loop fuel cond body i s = Some s' -> Q s'.
Proof.
  intros Hbody fuel.
  induction fuel as [|fuel IH]; intros i s s' HQ H; [discriminate H|].
  cbn [for_loop] in H.
  destruct (cond i s) as [[|]|]; cbn [mbind option_bind] in H;
    [|congruence|discriminate H].
  destruct (body i s) as [s1|] eqn:Hb; [|discriminate H].
  cbn [mbind option_bind] in H.
  exact (IH _ _ _ (Hbody i s s1 HQ Hb) H).
Qed.

(** The two operands are read as before while the result is written. *)
Definition operands_kept (a b : Ptr) (na nb : Z) (s : Store) : Prop :=
  load_ndep s a = Some na /\ load_ndep s b = Some nb.

Lemma operands_kept_update a b na nb res f s s' :
  a <> res -> b <> res ->
  operands_kept a b na nb s -> update s res f = Some s' ->
  operands_kept a b na nb s'.
Proof.
  intros Ha Hb [Hna Hnb] Hupd.
  destruct (update_Some s res f s' Hupd) as (_ & _ & _ & _ & _ & Hframe & _).
  unfold operands_kept, load_ndep in *. now rewrite !Hframe.
Qed.

Lemma linearCombinationOfDependencies_overflow k l s a b ea eb :
  has_room s -> in_use s a ea -> in_use s b eb ->
  MAX_NDEP < ndep ea + ndep eb ->
  linearCombinationOfDependencies g k a l b s = None.
Proof.
  intros (Hn & Hmax & Hlen & Hwf) (Hab & Hai & Ha & Hna) (Hbb & Hbi & Hb & Hnb)
         Hsum.
  set (res := (block s, n_linexpr s)).
  assert (a <> res) as Har by (destruct a; unfold res; cbn in *; intros [=]; lia).
  assert (b <> res) as Hbr by (destruct b; unfold res; cbn in *; intros [=]; lia).
  destruct (newLinExpr_room g s Hn Hmax Hlen)
    as (s1 & ef & Hnew & _ & _ & Hframe1 & _).
  fold res in Hnew, Hframe1.
  assert (operands_kept a b (ndep ea) (ndep eb) s1) as Hk1.
  { unfold operands_kept, load_ndep. rewrite !Hframe1 by assumption.
    now rewrite Ha, Hb. }
  unfold linearCombinationOfDependencies. rewrite Hnew.
  cbn [mbind option_bind].
  destruct Hk1 as [Hna1 Hnb1]. rewrite Hna1. cbn [mbind option_bind].
  rewrite Hnb1. cbn [mbind option_bind].
  destruct (int_of (ndep ea + ndep eb)) as [n|]; [|reflexivity].
  cbn [mbind option_bind].
  destruct (store_ndep s1 res n) as [s2|] eqn:Hs2; [|reflexivity].
  cbn [mbind option_bind].
  assert (operands_kept a b (ndep ea) (ndep eb) s2) as Hk2
    by exact (operands_kept_update a b _ _ res _ s1 s2 Har Hbr
                (conj Hna1 Hnb1) Hs2).
  match goal with
  | |- context [for_loop loop_fuel ?c ?bd 0 s2] =>
      set (cond1 := c); set (body1 := bd)
  end.
  assert (forall i s s', operands_kept a b (ndep ea) (ndep eb) s ->
                         body1 i s = Some s' ->
                         operands_kept a b (ndep ea) (ndep eb) s') as Hbody1.
  { intros i t t' Hk Hbd. unfold body1 in Hbd.
    destruct (load_identifier t a i); [|discriminate Hbd].
    cbn [mbind option_bind] in Hbd.
    destruct (store_identifier t res i _) as [t1|] eqn:Ht1;
      [|discriminate Hbd].
    cbn [mbind option_bind] in Hbd.
    destruct (load_jacobian t1 a i); [|discriminate Hbd].
    cbn [mbind option_bind] in Hbd.
    eapply operands_kept_update; [exact Har|exact Hbr| |exact Hbd].
    eapply operands_kept_update; [exact Har|exact Hbr|exact Hk|exact Ht1]. }
  destruct (Z_lt_le_dec MAX_NDEP (ndep ea)) as [Hbig|Hsmall].
  - (* the first loop reads [a->identifier[MAX_NDEP]] *)
    rewrite (for_loop_undefined
               (fun _ => operands_kept a b (ndep ea) (ndep eb))
               cond1 body1 (ndep ea) MAX_NDEP); try reflexivity.
    + intros i t [Hta _]. unfold cond1. now rewrite Hta.
    + intros i t t'. apply Hbody1.
    + intros t _. unfold body1.
      rewrite load_identifier_outside by lia. reflexivity.
    + exact Hbig.
    + unfold MAX_NDEP. lia.
    + exact Hk2.
  - destruct (for_loop loop_fuel cond1 body1 0 s2) as [s3|] eqn:Hloop1;
      [|reflexivity].
    cbn [mbind option_bind].
    assert (operands_kept a b (ndep ea) (ndep eb) s3) as Hk3
      by exact (for_loop_keeps _ cond1 body1 Hbody1 _ _ _ _ Hk2 Hloop1).
    match goal with
    | |- context [for_loop loop_fuel ?c ?bd 0 s3] =>
        set (cond2 := c); set (body2 := bd)
    end.
    rewrite (for_loop_undefined
               (fun _ => operands_kept a b (ndep ea) (ndep eb))
               cond2 body2 (ndep eb) (MAX_NDEP - ndep ea)); try reflexivity.
    + intros i t [_ Htb]. unfold cond2. now rewrite Htb.
    + intros i t t' Hk Hbd. unfold body2 in Hbd.
      destruct (load_identifier t b i); [|discriminate Hbd].
      cbn [mbind option_bind] in Hbd.
      destruct (load_ndep t a); [|discriminate Hbd].
      cbn [mbind option_bind] in Hbd.
      destruct (store_identifier t res _ _) as [t1|] eqn:Ht1;
        [|discriminate Hbd].
      cbn [mbind option_bind] in Hbd.
      destruct (load_jacobian t1 b i); [|discriminate Hbd].
      cbn [mbind option_bind] in Hbd.
      destruct (load_ndep t1 a); [|discriminate Hbd].
      cbn [mbind option_bind] in Hbd.
      eapply operands_kept_update; [exact Har|exact Hbr| |exact Hbd].
      eapply operands_kept_update; [exact Har|exact Hbr|exact Hk|exact Ht1].
    + intros t [Hta _]. unfold body2.
      destruct (load_identifier t b _); [|reflexivity].
      cbn [mbind option_bind]. rewrite Hta. cbn [mbind option_bind].
      rewrite store_identifier_outside by lia. reflexivity.
    + lia.
    + lia.
    + exact Hk3.
Qed.

(** The arithmetic operations when the operands have more than [MAX_NDEP]
    dependencies together: the loops of [linearCombinationOfDependencies]
    run over the end of the arrays of [MAX_NDEP] elements, and no operation
    has a defined result. *)
Theorem dependencies_beyond_MAX_NDEP_undefined (s : Store) (a b : Ptr)
    (ea eb : LinExpr) :
  has_room s -> in_use s a ea -> in_use s b eb ->
  MAX_NDEP < ndep ea + ndep eb ->
  addLinExpr g a b s = None /\ subLinExpr g a b s = None
  /\ mulLinExpr g a b s = None /\ divLinExpr g a b s = None.
Proof.
  intros Hroom Ha Hb Hsum.
  pose proof (fun k l => linearCombinationOfDependencies_overflow k l s a b
                           ea eb Hroom Ha Hb Hsum) as H.
  unfold addLinExpr, subLinExpr, mulLinExpr, divLinExpr.
  rewrite !H, (load_value_in_use _ _ _ Ha), (load_value_in_use _ _ _ Hb).
  cbn [mbind option_bind]. rewrite !H. auto.
Qed.

(** [deleteAllLinExpr] releases nothing: the buffer and its size stay, the
    next call of [newLinExpr] hands out the first element of the buffer
    again, and the other entries are still what they were. *)
Theorem deleteAllLinExpr_keeps_the_buffer (s : Store) :
  0 < max_linexpr s <= INT_MAX ->
  length (buffer_linexpr s) = Z.to_nat (max_linexpr s) ->
  exists s',
    newLinExpr g (deleteAllLinExpr s) = Some ((block s, 0), s')
    /\ (forall q, q <> (block s, 0) -> deref s' q = deref s q)
    /\ block s' = block s
    /\ max_linexpr s' = max_linexpr s
    /\ n_linexpr s' = 1.
Proof.
  intros Hmax Hlen.
  destruct (newLinExpr_room g (deleteAllLinExpr s))
    as (s' & ef & Hnew & _ & _ & Hframe & Hb & Hn' & Hm & _);
    cbn [deleteAllLinExpr n_linexpr max_linexpr buffer_linexpr];
    [lia|lia|exact Hlen|].
  exists s'. cbn [deleteAllLinExpr n_linexpr max_linexpr buffer_linexpr block]
    in *. auto.
Qed.

End Buffer.

Lemma newLinExpr_with_room_keeps_pointers_witness :
  exists s',
    LinExprs.newLinExpr zero_garbage two_variables_store
    = Some ((1%nat, 2), s')
    /\ LinExprs.load_ndep s' (1%nat, 2) = Some 0
    /\ (forall q, q <> (1%nat, 2) ->
                  LinExprs.deref s' q = LinExprs.deref two_variables_store q)
    /\ LinExprs.block s' = 1%nat
    /\ LinExprs.n_linexpr s' = 3
    /\ LinExprs.max_linexpr s' = 3.
Proof.
  apply (newLinExpr_with_room_keeps_pointers zero_garbage two_variables_store).
  - cbn. lia.
  - cbn. unfold INT_MAX. lia.
  - reflexivity.
Defined.

(** The store after the call of [newLinExpr] on [one_entry_store]. *)
Definition grown_one_entry_store : LinExprs.Store :=
  default LinExprs.initial_store
    (snd <$> LinExprs.newLinExpr zero_garbage one_entry_store).

Lemma newLinExpr_full_buffer_invalidates_pointers_witness :
  LinExprs.deref one_entry_store (1%nat, 0)
  = Some (LinExprs.mkLinExpr 1%float 1 (replicate 100 5)
                             (replicate 100 1%float))
  /\ LinExprs.deref grown_one_entry_store (1%nat, 0) = None.
Proof.
  split; [reflexivity|].
  apply (newLinExpr_full_buffer_invalidates_pointers zero_garbage
           one_entry_store grown_one_entry_store (2%nat, 1) (1%nat, 0)).
  - reflexivity.
  - vm_compute. reflexivity.
  - cbn. lia.
Defined.

Lemma arithmetic_on_full_buffer_undefined_witness :
  LinExprs.addLinExpr zero_garbage (1%nat, 0) (1%nat, 0) one_entry_store = None
  /\ LinExprs.subLinExpr zero_garbage (1%nat, 0) (1%nat, 0) one_entry_store
     = None
  /\ LinExprs.mulLinExpr zero_garbage (1%nat, 0) (1%nat, 0) one_entry_store
     = None
  /\ LinExprs.divLinExpr zero_garbage (1%nat, 0) (1%nat, 0) one_entry_store
     = None.
Proof.
  apply (arithmetic_on_full_buffer_undefined zero_garbage one_entry_store
           (1%nat, 0) (1%nat, 0)).
  - reflexivity.
  - left. cbn. lia.
Defined.

(** An entry with [MAX_NDEP] dependencies. *)
Definition full_entry : LinExprs.LinExpr :=
  LinExprs.mkLinExpr 1%float 100 (replicate 100 7) (replicate 100 1%float).

(** A buffer of three elements of which two are in use: an entry with
    [MAX_NDEP] dependencies and a variable. *)
Definition full_entry_store : LinExprs.Store :=
  LinExprs.mkStore 1
    [full_entry; variable_entry 2%float 2; variable_entry 0%float 0] 2 3.

Lemma dependencies_beyond_MAX_NDEP_undefined_witness :
  LinExprs.addLinExpr zero_garbage (1%nat, 0) (1%nat, 1) full_entry_store
  = None
  /\ LinExprs.subLinExpr zero_garbage (1%nat, 0) (1%nat, 1) full_entry_store
     = None
  /\ LinExprs.mulLinExpr zero_garbage (1%nat, 0) (1%nat, 1) full_entry_store
     = None
  /\ LinExprs.divLinExpr zero_garbage (1%nat, 0) (1%nat, 1) full_entry_store
     = None.
Proof.
  apply (dependencies_beyond_MAX_NDEP_undefined zero_garbage full_entry_store
           (1%nat, 0) (1%nat, 1) full_entry (variable_entry 2%float 2));
    two_variables_hypotheses.
Defined.

Lemma deleteAllLinExpr_keeps_the_buffer_witness :
  exists s',
    LinExprs.newLinExpr zero_garbage
      (LinExprs.deleteAllLinExpr two_variables_store)
    = Some ((1%nat, 0), s')
    /\ (forall q, q <> (1%nat, 0) ->
                  LinExprs.deref s' q = LinExprs.deref two_variables_store q)
    /\ LinExprs.block s' = 1%nat
    /\ LinExprs.max_linexpr s' = 3
    /\ LinExprs.n_linexpr s' = 1.
Proof.
  apply (deleteAllLinExpr_keeps_the_buffer zero_garbage two_variables_store).
  - cbn. unfold INT_MAX. lia.
  - reflexivity.
Defined.
Section Normalize.
Import LinExprs.

Variable g : Garbage.

Lemma assign_spec s p e0 e :
  deref s p = Some e0 ->
  exists s', assign s p e = Some s' /\ deref s' p = Some e
             /\ (forall q, q <> p -> deref s' q = deref s q)
             /\ same_shape s s'.
Proof.
  intros Hp.
  destruct (update_spec s p (fun _ => Some e) e0 e Hp eq_refl)
    as (s' & Hs' & H).
  exists s'. split; [|exact H].
  unfold update in Hs'. rewrite Hp in Hs'. exact Hs'.
Qed.

Lemma mergesortLinExpr_short a from to tmp s :
  to - from <= 1 -> mergesortLinExpr a from to tmp s = Some s.
Proof.
  intros H. unfold mergesortLinExpr.
  destruct (Z.to_nat (to - from)); cbn [mergesortLinExpr_rec];
    (replace (to - from <=? 1) with true by (symmetry; apply Z.leb_le; lia));
    reflexivity.
Qed.

Lemma load_ndep_Some s p e : deref s p = Some e -> load_ndep s p = Some (ndep e).
Proof. intros H. unfold load_ndep. now rewrite H. Qed.

Lemma load_value_Some s p e :
  deref s p = Some e -> load_value s p = Some (value e).
Proof. intros H. unfold load_value. now rewrite H. Qed.

Lemma load_identifier_Some s p e i :
  deref s p = Some e -> 0 <= i < MAX_NDEP ->
  load_identifier s p i = identifier e !! Z.to_nat i.
Proof.
  intros H Hi. unfold load_identifier. rewrite H. cbn [mbind option_bind].
  now apply rd_lookup.
Qed.

Lemma load_jacobian_Some s p e i :
  deref s p = Some e -> 0 <= i < MAX_NDEP ->
  load_jacobian s p i = jacobian e !! Z.to_nat i.
Proof.
  intros H Hi. unfold load_jacobian. rewrite H. cbn [mbind option_bind].
  now apply rd_lookup.
Qed.

Lemma collect_unfold fuel a ret i s :
  collect (S fuel) a ret i s
  = (n ← load_ndep s a;
     if i <? n then
       id ← load_identifier s a i;
       j ← load_jacobian s a i;
       '(jacobian_sum, i') ← sum_run loop_fuel a id s j (i + 1);
       k ← load_ndep s ret;
       s ← store_identifier s ret k id;
       k ← load_ndep s ret;
       s ← store_jacobian s ret k jacobian_sum;
       k ← load_ndep s ret;
       k' ← int_of (k + 1);
       s ← store_ndep s ret k';
       collect fuel a ret i' s
     else Some s).
Proof. reflexivity. Qed.

Lemma sum_run_unfold fuel a id s jacobian_sum i :
  sum_run (S fuel) a id s jacobian_sum i
  = (x ← load_identifier s a i;
     n ← load_ndep s a;
     if (x =? id) && (i <? n) then
       j ← load_jacobian s a i;
       sum_run fuel a id s (jacobian_sum + j)%float (i + 1)
     else Some (jacobian_sum, i)).
Proof. reflexivity. Qed.

Lemma loop_fuel_S : loop_fuel = S (S (Z.to_nat (MAX_NDEP - 1))).
Proof. reflexivity. Qed.

(** The loops of [normalizeLinExpr] on an expression with at most one
    dependency. *)
Lemma collect_at_most_one s a ret ea e0 :
  a <> ret -> deref s a = Some ea -> well_formed ea -> 0 <= ndep ea <= 1 ->
  deref s ret = Some e0 -> well_formed e0 -> ndep e0 = 0 ->
  exists s' e,
    collect loop_fuel a ret 0 s = Some s'
    /\ deref s' ret = Some e
    /\ value e = value e0
    /\ ndep e = ndep ea
    /\ dependencies e = dependencies ea
    /\ same_shape s s'.
Proof.
  intros Har Ha [Hwi Hwj] Hn Hret [H0i H0j] Hnd0.
  rewrite loop_fuel_S, collect_unfold, (load_ndep_Some _ _ _ Ha).
  cbn [mbind option_bind].
  destruct (Z.eq_dec (ndep ea) 0) as [Hz|Hnz].
  - rewrite Hz. cbn [Z.ltb Z.compare].
    exists s, e0. repeat split; try assumption; try congruence.
    unfold dependencies. now rewrite Hz, Hnd0.
  - assert (ndep ea = 1) as H1 by lia. rewrite H1. cbn [Z.ltb Z.compare].
    unfold MAX_NDEP in Hwi, Hwj, H0i, H0j.
    destruct (identifier ea) as [|id ids] eqn:Hids; [discriminate Hwi|].
    destruct (jacobian ea) as [|j js] eqn:Hjs; [discriminate Hwj|].
    destruct ids as [|id1 ids]; [discriminate Hwi|].
    rewrite (load_identifier_Some _ _ _ 0 Ha) by (unfold MAX_NDEP; lia).
    rewrite Hids. change ((id :: id1 :: ids) !! Z.to_nat 0) with (Some id).
    cbn [mbind option_bind].
    rewrite (load_jacobian_Some _ _ _ 0 Ha) by (unfold MAX_NDEP; lia).
    rewrite Hjs. change ((j :: js) !! Z.to_nat 0) with (Some j).
    cbn [mbind option_bind].
    rewrite loop_fuel_S, sum_run_unfold.
    rewrite (load_identifier_Some _ _ _ (0 + 1) Ha) by (unfold MAX_NDEP; lia).
    rewrite Hids.
    change ((id :: id1 :: ids) !! Z.to_nat (0 + 1)) with (Some id1).
    cbn [mbind option_bind].
    rewrite (load_ndep_Some _ _ _ Ha), H1. cbn [mbind option_bind].
    rewrite andb_false_r. cbn [mbind option_bind].
    rewrite (load_ndep_Some _ _ _ Hret), Hnd0. cbn [mbind option_bind].
    destruct (update_spec s ret
                (fun e => ids ← wr (identifier e) 0 id; Some (set_identifier ids e))
                e0 (set_identifier (<[0%nat := id]> (identifier e0)) e0) Hret)
      as (s1 & Hs1 & Hret1 & Hframe1 & Hsh1).
    { rewrite wr_insert by (unfold MAX_NDEP; lia). reflexivity. }
    unfold store_identifier. rewrite Hs1. cbn [mbind option_bind].
    rewrite (load_ndep_Some _ _ _ Hret1). cbn [ndep set_identifier].
    rewrite Hnd0. cbn [mbind option_bind].
    destruct (update_spec s1 ret
                (fun e => js ← wr (jacobian e) 0 j; Some (set_jacobian js e))
                _ (set_jacobian (<[0%nat := j]> (jacobian e0))
                     (set_identifier (<[0%nat := id]> (identifier e0)) e0))
                Hret1)
      as (s2 & Hs2 & Hret2 & Hframe2 & Hsh2).
    { cbn [jacobian set_identifier].
      rewrite wr_insert by (unfold MAX_NDEP; lia). reflexivity. }
    unfold store_jacobian. rewrite Hs2. cbn [mbind option_bind].
    rewrite (load_ndep_Some _ _ _ Hret2). cbn [ndep set_identifier set_jacobian].
    rewrite Hnd0. cbn [mbind option_bind Z.add].
    rewrite int_of_in_range by (unfold INT_MIN, INT_MAX; lia).
    cbn [mbind option_bind].
    destruct (update_spec s2 ret (fun e => Some (set_ndep 1 e)) _ _ Hret2
                eq_refl)
      as (s3 & Hs3 & Hret3 & Hframe3 & Hsh3).
    change (0 + 1) with 1.
    unfold store_ndep. rewrite Hs3. cbn [mbind option_bind].
    assert (deref s3 a = Some ea) as Ha3
      by (rewrite Hframe3, Hframe2, Hframe1 by assumption; exact Ha).
    rewrite collect_unfold, (load_ndep_Some _ _ _ Ha3), H1.
    cbn [mbind option_bind Z.ltb Z.compare Pos.compare Pos.compare_cont].
    eexists s3, _. split; [reflexivity|]. split; [exact Hret3|].
    split; [reflexivity|]. split; [reflexivity|].
    split.
    + unfold dependencies.
      cbn [ndep identifier jacobian set_ndep set_jacobian set_identifier].
      rewrite H1, Hids, Hjs.
      destruct (identifier e0) as [|x xs]; [discriminate H0i|].
      destruct (jacobian e0) as [|y ys]; [discriminate H0j|].
      reflexivity.
    + exact (same_shape_trans _ _ _ (same_shape_trans _ _ _ Hsh1 Hsh2) Hsh3).
Qed.

(** [normalizeLinExpr] on an expression with no dependency or with one
    dependency, where there is nothing to sort and nothing to merge: the
    value and the dependencies of the expression are as before, and one
    more entry of the buffer is in use. *)
Theorem normalizeLinExpr_at_most_one_dependency (s : Store) (a : Ptr)
    (ea : LinExpr) :
  has_room s -> in_use s a ea -> ndep ea <= 1 ->
  exists s' e,
    normalizeLinExpr g a s = Some s'
    /\ deref s' a = Some e
    /\ value e = value ea
    /\ ndep e = ndep ea
    /\ dependencies e = dependencies ea
    /\ n_linexpr s' = n_linexpr s + 1.
Proof.
  intros (Hn & Hmax & Hlen & Hwf) (Hab & Hai & Ha & Hna) Hone.
  set (ret := (block s, n_linexpr s)).
  assert (a <> ret) as Har by (destruct a; unfold ret; cbn in *; intros [=]; lia).
  assert (well_formed ea) as [Hwi Hwj].
  { destruct (deref_Some _ _ _ Ha) as (_ & _ & Hl).
    exact (proj1 (Forall_lookup _ _) Hwf _ _ Hl). }
  destruct (newLinExpr_room g s Hn Hmax Hlen)
    as (s1 & ef & Hnew & Hef & Hret1 & Hframe1 & Hb1 & Hn1 & _).
  fold ret in Hnew, Hret1, Hframe1.
  assert (well_formed ef) as [Hfi Hfj]
    by exact (proj1 (Forall_lookup _ _) Hwf _ _ Hef).
  assert (deref s1 a = Some ea) as Ha1 by (rewrite Hframe1; assumption).
  destruct (update_spec s1 ret (fun e => Some (set_ndep 0 e)) _ _ Hret1 eq_refl)
    as (s2 & Hs2 & Hret2 & Hframe2 & Hsh2).
  assert (deref s2 a = Some ea) as Ha2 by (rewrite Hframe2; assumption).
  destruct (update_spec s2 ret (fun e => Some (set_value (value ea) e)) _ _
              Hret2 eq_refl)
    as (s3 & Hs3 & Hret3 & Hframe3 & Hsh3).
  assert (deref s3 a = Some ea) as Ha3 by (rewrite Hframe3; assumption).
  unfold normalizeLinExpr. rewrite Hnew. cbn [mbind option_bind].
  rewrite (load_ndep_Some _ _ _ Ha1). cbn [mbind option_bind].
  rewrite mergesortLinExpr_short by lia. cbn [mbind option_bind].
  unfold store_ndep at 1. rewrite Hs2. cbn [mbind option_bind].
  rewrite (load_value_Some _ _ _ Ha2). cbn [mbind option_bind].
  unfold store_value. rewrite Hs3. cbn [mbind option_bind].
  assert (well_formed (set_value (value ea) (set_ndep 0 (set_ndep 0 ef))))
    as Hw3 by (split; assumption).
  destruct (collect_at_most_one s3 a ret ea _ Har Ha3 (conj Hwi Hwj)
              (conj Hna Hone) Hret3 Hw3 eq_refl)
    as (s4 & e4 & Hcoll & Hret4 & Hv4 & Hnd4 & Hdeps4 & Hsh4).
  rewrite Hcoll. cbn [mbind option_bind]. rewrite Hret4.
  cbn [mbind option_bind].
  assert (exists ea4, deref s4 a = Some ea4) as [ea4 Ha4].
  { destruct (deref_Some _ _ _ Ha3) as (Hpb & Hpz & Hl).
    destruct Hsh4 as (Hb4 & _ & _ & Hl4).
    apply lookup_lt_Some in Hl. rewrite <- Hl4 in Hl.
    destruct (lookup_lt_is_Some_2 _ _ Hl) as [x Hx]. exists x.
    unfold deref. rewrite Hb4, bool_decide_eq_true_2 by assumption.
    apply Z.leb_le in Hpz. now rewrite Hpz. }
  destruct (assign_spec s4 a ea4 e4 Ha4) as (s5 & Hs5 & Ha5 & _ & Hsh5).
  exists s5, e4. split; [exact Hs5|]. split; [exact Ha5|].
  split; [exact Hv4|]. split; [exact Hnd4|]. split; [exact Hdeps4|].
  destruct Hsh2 as (_ & Hn2 & _). destruct Hsh3 as (_ & Hn3 & _).
  destruct Hsh4 as (_ & Hn4 & _). destruct Hsh5 as (_ & Hn5 & _).
  congruence.
Qed.

End Normalize.

Lemma normalizeLinExpr_at_most_one_dependency_witness :
  exists s' e,
    LinExprs.normalizeLinExpr zero_garbage (1%nat, 0) two_variables_store
    = Some s'
    /\ LinExprs.deref s' (1%nat, 0) = Some e
    /\ LinExprs.value e = 1%float
    /\ LinExprs.ndep e = 1
    /\ LinExprs.dependencies e = [(1, 1%float)]
    /\ LinExprs.n_linexpr s' = 3.
Proof.
  apply (normalizeLinExpr_at_most_one_dependency zero_garbage
           two_variables_store (1%nat, 0) (variable_entry 1%float 1));
    two_variables_hypotheses.
Defined.
Section Composition.
Import LinExprs.

Variable g : Garbage.

(** The end of the four arithmetic operations, as in
    [combination_with_value], with what the next operation needs. *)
Lemma combination_with_value_in_use k l (f : Scalar -> Scalar -> Scalar)
    s a b ea eb :
  has_room s -> in_use s a ea -> in_use s b eb ->
  ndep ea + ndep eb <= MAX_NDEP ->
  exists s' e,
    ('(res, s1) ← linearCombinationOfDependencies g k a l b s;
     va ← load_value s1 a; vb ← load_value s1 b;
     s2 ← store_value s1 res (f va vb);
     Some (res, s2)) = Some ((block s, n_linexpr s), s')
    /\ in_use s' (block s, n_linexpr s) e
    /\ ndep e = ndep ea + ndep eb
    /\ in_use s' a ea /\ in_use s' b eb
    /\ n_linexpr s' = n_linexpr s + 1
    /\ max_linexpr s' = max_linexpr s
    /\ (n_linexpr s' < max_linexpr s' -> has_room s').
Proof.
  intros Hroom Ha Hb Hsum.
  destruct (linearCombinationOfDependencies_computes g k l s a b ea eb
              Hroom Ha Hb Hsum)
    as (s1 & e1 & Hcomb & Hres1 & Hwf1 & Hnd1 & _ & Hframe1 & Hb1 & Hn1 & Hm1
        & Hl1).
  destruct Hroom as (Hn & Hmax & Hlen & Hwf).
  destruct Ha as (Hab & Hai & Ha & Hna). destruct Hb as (Hbb & Hbi & Hb & Hnb).
  set (res := (block s, n_linexpr s)) in *.
  assert (a <> res) as Har by (destruct a; unfold res; cbn in *; intros [=]; lia).
  assert (b <> res) as Hbr by (destruct b; unfold res; cbn in *; intros [=]; lia).
  destruct (update_spec s1 res
              (fun e => Some (set_value (f (value ea) (value eb)) e))
              e1 _ Hres1 eq_refl)
    as (s2 & Hs2 & Hres2 & Hframe2 & Hb2 & Hn2 & Hm2 & Hl2).
  exists s2. eexists. split.
  { rewrite Hcomb. cbn [mbind option_bind]. unfold load_value.
    rewrite !Hframe1, Ha, Hb by assumption.
    cbn [mbind option_bind fmap option_fmap option_map].
    unfold store_value. rewrite Hs2. reflexivity. }
  assert (forall q, q <> res -> deref s2 q = deref s q) as Hframe
    by (intros q Hq; now rewrite Hframe2, Hframe1).
  split.
  { repeat split; [cbn; congruence|cbn; lia|cbn; lia|exact Hres2|].
    cbn [ndep set_value]. lia. }
  split; [cbn [ndep set_value]; exact Hnd1|].
  split.
  { repeat split; [congruence|lia|lia|now rewrite Hframe|exact Hna]. }
  split.
  { repeat split; [congruence|lia|lia|now rewrite Hframe|exact Hnb]. }
  split; [lia|]. split; [lia|].
  intros Hroom'. repeat split; [lia|lia|lia|congruence|].
  apply Forall_lookup. intros i x Hx.
  assert (deref s2 (block s2, Z.of_nat i) = Some x) as Hd
    by (rewrite deref_in_block, Nat2Z.id by lia; exact Hx).
  destruct (decide ((block s2, Z.of_nat i) = res)) as [Heq|Hne].
  - rewrite Heq, Hres2 in Hd. injection Hd as <-.
    destruct Hwf1 as [? ?]. split; assumption.
  - rewrite (Hframe _ Hne) in Hd.
    destruct (deref_Some _ _ _ Hd) as (_ & _ & Hlk).
    exact (proj1 (Forall_lookup _ _) Hwf _ _ Hlk).
Qed.

(** How the arithmetic operations compose: the result of an operation is an
    entry in use whose number of dependencies is the sum of those of the
    operands, the operands are entries in use as before, and the store is
    as the next operation needs it if the buffer is not full. *)
Theorem arithmetic_result_is_an_operand
    (op : Ptr -> Ptr -> Store -> option (Ptr * Store))
    (s : Store) (a b : Ptr) (ea eb : LinExpr) :
  op = addLinExpr g \/ op = subLinExpr g \/ op = mulLinExpr g
  \/ op = divLinExpr g ->
  has_room s -> in_use s a ea -> in_use s b eb ->
  ndep ea + ndep eb <= MAX_NDEP ->
  exists s' e,
    op a b s = Some ((block s, n_linexpr s), s')
    /\ in_use s' (block s, n_linexpr s) e
    /\ ndep e = ndep ea + ndep eb
    /\ in_use s' a ea /\ in_use s' b eb
    /\ n_linexpr s' = n_linexpr s + 1
    /\ max_linexpr s' = max_linexpr s
    /\ (n_linexpr s' < max_linexpr s' -> has_room s').
Proof.
  intros Hop Hroom Ha Hb Hsum.
  destruct Hop as [ -> | [ -> | [ -> | -> ] ] ].
  - exact (combination_with_value_in_use 1%float 1%float
             (fun x y => (x + y)%float) s a b ea eb Hroom Ha Hb Hsum).
  - exact (combination_with_value_in_use 1%float (-1)%float
             (fun x y => (x - y)%float) s a b ea eb Hroom Ha Hb Hsum).
  - unfold mulLinExpr.
    rewrite (load_value_in_use _ _ _ Ha), (load_value_in_use _ _ _ Hb).
    cbn [mbind option_bind].
    exact (combination_with_value_in_use (value eb) (value ea)
             (fun x y => (x * y)%float) s a b ea eb Hroom Ha Hb Hsum).
  - unfold divLinExpr.
    rewrite (load_value_in_use _ _ _ Ha), (load_value_in_use _ _ _ Hb).
    cbn [mbind option_bind].
    exact (combination_with_value_in_use (-1 / value eb)%float
             (value ea / (value eb * value eb))%float
             (fun x y => (x / y)%float) s a b ea eb Hroom Ha Hb Hsum).
Qed.

End Composition.

Lemma arithmetic_result_is_an_operand_witness :
  exists s' e,
    LinExprs.mulLinExpr zero_garbage (1%nat, 0) (1%nat, 1) two_variables_store
    = Some ((1%nat, 2), s')
    /\ in_use s' (1%nat, 2) e
    /\ LinExprs.ndep e = 1 + 1
    /\ in_use s' (1%nat, 0) (variable_entry 1%float 1)
    /\ in_use s' (1%nat, 1) (variable_entry 2%float 2)
    /\ LinExprs.n_linexpr s' = 2 + 1
    /\ LinExprs.max_linexpr s' = 3
    /\ (LinExprs.n_linexpr s' < LinExprs.max_linexpr s' -> has_room s').
Proof.
  apply (arithmetic_result_is_an_operand zero_garbage
           (LinExprs.mulLinExpr zero_garbage) two_variables_store
           (1%nat, 0) (1%nat, 1)
           (variable_entry 1%float 1) (variable_entry 2%float 2));
    [right; right; left; reflexivity|..]; two_variables_hypotheses.
Defined.
(** * The instrumentation of a superblock by [nl_instrument] *)

Section Instrumentation.
Import VEX Run.

Variable typeOfIRExpr : list IRType -> IRExpr -> IRType.

Lemma bind_Ok {S A B} (m : M S A) (k : A -> M S B) s b s2 :
  bind m k s = Ok b s2 -> exists a s1, m s = Ok a s1 /\ k a s1 = Ok b s2.
Proof.
  unfold bind. destruct (m s) as [a s1| |]; [|discriminate..].
  intros H. exists a, s1. auto.
Qed.

(** A statement of the kinds that the instrumentation adds (an assignment
    to a temporary, a write to the guest state, a call of a helper) which
    assigns no temporary below [m]. *)
Definition writes_from (m : Z) (st : IRStmt) : Prop :=
  match st with
  | IRStmt_WrTmp t _ => m <= t
  | IRStmt_Dirty d => d_tmp d = IRTemp_INVALID \/ m <= d_tmp d
  | IRStmt_Put _ _ | IRStmt_PutI _ => True
  | _ => False
  end.

(** The output superblock of [s'] is that of [s] with more temporaries and
    with more statements behind, all of them [writes_from m]. *)
Definition grows_by (m : Z) (s s' : nl_main.St) : Prop :=
  (exists tys,
     tyenv (nl_main.sb_out s') = tyenv (nl_main.sb_out s) ++ tys)
  /\ exists added,
       stmts (nl_main.sb_out s') = stmts (nl_main.sb_out s) ++ added
       /\ Forall (writes_from m) added.

Lemma grows_by_same m s s' :
  nl_main.sb_out s' = nl_main.sb_out s -> grows_by m s s'.
Proof.
  intros H. unfold grows_by. rewrite H.
  split; [exists []|exists []]; rewrite app_nil_r; auto.
Qed.

Lemma grows_by_refl m s : grows_by m s s.
Proof. now apply grows_by_same. Qed.

Lemma grows_by_trans m s1 s2 s3 :
  grows_by m s1 s2 -> grows_by m s2 s3 -> grows_by m s1 s3.
Proof.
  intros [[t1 Ht1] (a1 & Ha1 & HP1)] [[t2 Ht2] (a2 & Ha2 & HP2)].
  split.
  - exists (t1 ++ t2). rewrite Ht2, Ht1, app_assoc. reflexivity.
  - exists (a1 ++ a2). rewrite Ha2, Ha1, app_assoc. split; [reflexivity|].
    apply Forall_app; auto.
Qed.

Lemma grows_by_length m s s' :
  grows_by m s s' ->
  (length (tyenv (nl_main.sb_out s)) <= length (tyenv (nl_main.sb_out s')))%nat.
Proof. intros [[t Ht] _]. rewrite Ht, length_app. lia. Qed.

(** A function of the instrumentation under which the output superblock
    only grows, whenever it returns. *)
Definition grower {A} (m : Z) (f : nl_main.M A) : Prop :=
  forall s a s',
    m <= Z.of_nat (length (tyenv (nl_main.sb_out s))) ->
    f s = Ok a s' -> grows_by m s s'.

Lemma grower_bind {A B} m (f : nl_main.M A) (k : A -> nl_main.M B) :
  grower m f -> (forall a, grower m (k a)) -> grower m (bind f k).
Proof.
  intros Hf Hk s b s2 Hm H.
  apply bind_Ok in H as (a & s1 & H1 & H2).
  pose proof (Hf s a s1 Hm H1) as G1.
  pose proof (grows_by_length _ _ _ G1) as Hlen.
  exact (grows_by_trans _ _ _ _ G1 (Hk a s1 b s2 ltac:(lia) H2)).
Qed.

Lemma grower_ret {A} m (a : A) : grower m (ret a).
Proof. intros s b s' _ [= _ <-]. apply grows_by_refl. Qed.

Lemma grower_lift {A} m (o : option A) : grower m (lift o).
Proof. destruct o; [apply grower_ret|intros s b s' _ H; discriminate H]. Qed.

Lemma grower_undefined {A} m : grower m (@undefined nl_main.St A).
Proof. intros s b s' _ H. discriminate H. Qed.

Lemma grower_tl_assert_False {A} m : grower m (@tl_assert_False nl_main.St A).
Proof. intros s b s' _ H. discriminate H. Qed.

Lemma grower_printf m format args : grower m (nl_main.printf format args).
Proof. intros s b s' _ [= _ <-]. now apply grows_by_same. Qed.

Lemma grower_ppIRExpr m e : grower m (nl_main.ppIRExpr e).
Proof.
  destruct e; [|apply grower_undefined].
  intros s b s' _ [= _ <-]. now apply grows_by_same.
Qed.

Lemma grower_add_stmt m st :
  writes_from m st -> grower m (nl_main.add_stmt st).
Proof.
  intros HP s b s' _ [= _ <-].
  split; [exists []|exists [st]]; cbn; rewrite ?app_nil_r; auto.
Qed.

(** A new temporary is behind all the temporaries that there are. *)
Lemma grower_new_temp {B} m ty (k : IRTemp -> nl_main.M B) :
  (forall t, m <= t -> grower m (k t)) ->
  grower m (bind (nl_main.new_temp ty) k).
Proof.
  intros Hk s b s2 Hm H.
  apply bind_Ok in H as (t & s1 & H1 & H2).
  injection H1 as <- <-.
  assert (grows_by m s
            (nl_main.mkSt (newIRTemp (nl_main.sb_out s) ty).2
                          (nl_main.output s) (nl_main.stmt_counter s))) as G1.
  { split; [exists [ty]|exists []]; cbn; rewrite ?app_nil_r; auto. }
  refine (grows_by_trans _ _ _ _ G1 (Hk _ Hm _ _ _ _ H2)).
  cbn. rewrite length_app. lia.
Qed.

Lemma grower_canConvertToI64 m ty : grower m (nl_main.canConvertToI64 ty).
Proof.
  destruct ty; cbn; try apply grower_ret.
  intros s b s' _ H. discriminate H.
Qed.

Lemma grower_load_helper m ty : grower m (nl_main.load_helper ty).
Proof.
  unfold nl_main.load_helper.
  repeat match goal with
         | |- context [match ?x with _ => _ end] => destruct x
         end;
    first [apply grower_ret|apply grower_tl_assert_False|apply grower_undefined].
Qed.

Lemma grower_store_helper m ty : grower m (nl_main.store_helper ty).
Proof.
  unfold nl_main.store_helper.
  repeat match goal with
         | |- context [match ?x with _ => _ end] => destruct x
         end;
    first [apply grower_ret|apply grower_tl_assert_False|apply grower_undefined].
Qed.

Lemma grower_convertToInteger m e ty :
  grower m (nl_main.convertToInteger e ty).
Proof.
  destruct ty; cbn; try apply grower_ret;
    intros s b s' _ H; discriminate H.
Qed.

Create HintDb grower.

#[local] Hint Resolve grower_ret grower_lift grower_undefined
  grower_tl_assert_False grower_printf grower_ppIRExpr
  grower_canConvertToI64 grower_load_helper grower_store_helper
  grower_convertToInteger : grower.

Ltac grower_steps :=
  repeat first
    [ progress auto with grower
    | apply grower_new_temp; intros ? ?
    | apply grower_bind; [|intros ?]
    | apply grower_add_stmt; cbn; solve [auto | lia]
    | match goal with
      | |- grower _ (match ?x with _ => _ end) => destruct x eqn:?
      | |- grower _ (nl_main.add_stmt (IRStmt_Dirty match ?x with _ => _ end))
        => destruct x
      end ].

(** [differentiate_expr] only adds to the output superblock, and what it
    adds assigns new temporaries only. *)
Lemma differentiate_expr_grows m ex diffenv :
  grower m (nl_main.differentiate_expr ex diffenv).
Proof.
  induction ex; cbn [nl_main.differentiate_expr]; grower_steps.
Qed.

(** The temporaries that the instrumentation of a statement of the input
    assigns for it (the shadow temporaries of the temporaries that the
    statement assigns) are not below [m]. *)
Definition shadow_from (m : Z) (diffenv : nl_main.DiffEnv) (st : IRStmt)
  : Prop :=
  match st with
  | IRStmt_WrTmp tmp _ => m <= add_IRTemp tmp (nl_main.t_offset diffenv)
  | IRStmt_LoadG det =>
      m <= add_IRTemp (lg_dst det) (nl_main.t_offset diffenv)
  | IRStmt_CAS details =>
      m <= add_IRTemp (oldLo details) (nl_main.t_offset diffenv)
      /\ (oldHi details <> IRTemp_INVALID ->
          m <= add_IRTemp (oldHi details) (nl_main.t_offset diffenv))
  | _ => True
  end.

Lemma differentiate_or_warn_grows m expr diffenv warn operation :
  grower m (nl_main.differentiate_or_warn expr diffenv warn operation).
Proof.
  unfold nl_main.differentiate_or_warn.
  apply grower_bind; [apply differentiate_expr_grows|intros d].
  grower_steps.
Qed.

#[local] Hint Resolve differentiate_or_warn_grows : grower.

Lemma instrument_store_grows m sb_in diffenv addr data guarded :
  grower m (nl_main.instrument_store typeOfIRExpr sb_in diffenv addr data
              guarded).
Proof.
  unfold nl_main.instrument_store. grower_steps.
Qed.

#[local] Hint Resolve instrument_store_grows : grower.

(** The instrumentation of one statement: statements that assign shadow
    temporaries or new temporaries, and then the statement itself. *)
Lemma instrument_stmt_grows m sb_in diffenv st s s' :
  shadow_from m diffenv st ->
  m <= Z.of_nat (length (tyenv (nl_main.sb_out s))) ->
  nl_main.instrument_stmt typeOfIRExpr sb_in diffenv st s = Ok tt s' ->
  (exists tys,
     tyenv (nl_main.sb_out s') = tyenv (nl_main.sb_out s) ++ tys)
  /\ exists added,
       stmts (nl_main.sb_out s') = stmts (nl_main.sb_out s) ++ added ++ [st]
       /\ Forall (writes_from m) added.
Proof.
  intros Hst Hm H. unfold nl_main.instrument_stmt in H.
  apply bind_Ok in H as (u0 & s0 & H0 & H).
  apply bind_Ok in H as (u1 & s1 & H1 & H2).
  injection H0 as _ <-. injection H2 as <-.
  match type of H1 with
  | ?f _ = _ => assert (grower m f) as G
  end.
  { destruct st; cbn in Hst; try solve [grower_steps].
    (* CAS *)
    destruct Hst as [Hlo Hhi]. grower_steps.
    apply grower_add_stmt. cbn. apply Hhi.
    match goal with
    | Hd : bool_decide _ = true |- _ => now apply bool_decide_eq_true in Hd
    end. }
  pose proof (fun Hm0 => G _ _ _ Hm0 H1) as G'. cbn [nl_main.sb_out] in G'.
  destruct (G' Hm) as [[tys Htys] (added & Hadded & HP)].
  cbn [nl_main.sb_out] in *.
  split.
  - exists tys. exact Htys.
  - exists added. cbn. rewrite Hadded, <- app_assoc. auto.
Qed.

(** The list [out] is the list [l] with statements put in between, each of
    which has the property [P]. *)
Inductive interleaved (P : IRStmt -> Prop)
  : list IRStmt -> list IRStmt -> Prop :=
| interleaved_nil : interleaved P [] []
| interleaved_keep st l out :
    interleaved P l out -> interleaved P (st :: l) (st :: out)
| interleaved_insert st l out :
    P st -> interleaved P l out -> interleaved P l (st :: out).

Lemma interleaved_sublist P l out : interleaved P l out -> sublist l out.
Proof.
  induction 1; [constructor|now apply sublist_skip|now apply sublist_cons].
Qed.

Lemma interleaved_added P added st l out :
  Forall P added -> interleaved P l out ->
  interleaved P (st :: l) (added ++ st :: out).
Proof.
  intros HP Hl. induction HP as [|x added Hx _ IH]; cbn.
  - now apply interleaved_keep.
  - now apply interleaved_insert.
Qed.

Lemma interleaved_same P pre l out :
  interleaved P l out -> interleaved P (pre ++ l) (pre ++ out).
Proof.
  intros H. induction pre; [exact H|]. cbn. now apply interleaved_keep.
Qed.

Lemma instrument_stmts_grows m sb_in diffenv sts :
  Forall (shadow_from m diffenv) sts ->
  forall s s',
    m <= Z.of_nat (length (tyenv (nl_main.sb_out s))) ->
    nl_main.instrument_stmts typeOfIRExpr sb_in diffenv sts s = Ok tt s' ->
    (exists tys,
       tyenv (nl_main.sb_out s') = tyenv (nl_main.sb_out s) ++ tys)
    /\ exists out,
         stmts (nl_main.sb_out s') = stmts (nl_main.sb_out s) ++ out
         /\ interleaved (writes_from m) sts out.
Proof.
  induction 1 as [|st sts Hst _ IH]; intros s s' Hm H;
    cbn [nl_main.instrument_stmts] in H.
  - injection H as <-. split; [exists []|exists []];
      rewrite app_nil_r; auto using interleaved_nil.
  - apply bind_Ok in H as ([] & s1 & H1 & H2).
    destruct (instrument_stmt_grows m sb_in diffenv st s s1 Hst Hm H1)
      as [[tys1 Ht1] (added & Ha & HP)].
    destruct (IH s1 s') as [[tys2 Ht2] (out & Ho & Hi)]; [|exact H2|].
    { rewrite Ht1, length_app. lia. }
    split.
    + exists (tys1 ++ tys2). now rewrite Ht2, Ht1, app_assoc.
    + exists (added ++ st :: out). split.
      * rewrite Ho, Ha, <- !app_assoc. reflexivity.
      * now apply interleaved_added.
Qed.

Lemma add_stmts_Ok sts s :
  nl_main.add_stmts sts s
  = Ok tt (nl_main.mkSt
             (mkIRSB (tyenv (nl_main.sb_out s))
                     (stmts (nl_main.sb_out s) ++ sts))
             (nl_main.output s) (nl_main.stmt_counter s)).
Proof.
  revert s. induction sts as [|st sts IH]; intros s; cbn.
  - rewrite app_nil_r. now destruct s as [[? ?] ? ?].
  - unfold bind. cbn. rewrite IH. cbn. now rewrite <- app_assoc.
Qed.

Lemma until_IMark_app sts pre rest :
  nl_main.until_IMark sts = (pre, rest) -> sts = pre ++ rest.
Proof.
  revert pre rest. induction sts as [|st sts IH]; intros pre rest H; cbn in H.
  - now injection H as <- <-.
  - destruct (is_IMark st).
    + now injection H as <- <-.
    + destruct (nl_main.until_IMark sts) as [pre' rest'].
      injection H as <- <-. cbn. f_equal. now apply IH.
Qed.

(** What [nl_instrument] returns: the types of the temporaries of the
    input, twice, followed by the types of new temporaries; and the
    statements of the input with statements put in between that assign no
    temporary below [m], as far as this holds for the shadow temporaries of
    the temporaries that the input assigns. *)
Lemma nl_instrument_interleaved m sb_in total s sb s' :
  m <= 2 * Z.of_nat (length (tyenv sb_in)) ->
  Forall (shadow_from m
            (nl_main.mkDiffEnv (Z.of_nat (length (tyenv sb_in))) total))
         (stmts sb_in) ->
  nl_main.nl_instrument typeOfIRExpr sb_in total s = Ok sb s' ->
  (exists tys, tyenv sb = tyenv sb_in ++ tyenv sb_in ++ tys)
  /\ interleaved (writes_from m) (stmts sb_in) (stmts sb).
Proof.
  intros Hm Hst H. unfold nl_main.nl_instrument in H.
  apply bind_Ok in H as (u0 & s0 & H0 & H). injection H0 as _ <-.
  destruct (nl_main.until_IMark (stmts sb_in)) as [pre rest] eqn:Hsplit.
  apply until_IMark_app in Hsplit.
  apply bind_Ok in H as (u1 & s1 & H1 & H).
  rewrite add_stmts_Ok in H1. injection H1 as _ <-.
  apply bind_Ok in H as ([] & s2 & H2 & H). injection H as <- <-.
  rewrite Hsplit in Hst. apply Forall_app in Hst as [_ Hrest].
  assert (m <= Z.of_nat (length (tyenv sb_in ++ tyenv sb_in))) as Hlen
    by (rewrite length_app; lia).
  pose proof (fun Hm0 => instrument_stmts_grows m sb_in _ rest Hrest _ _
                           Hm0 H2) as G.
  cbn [nl_main.sb_out tyenv stmts] in G.
  destruct (G Hlen) as [[tys Ht] (out & Ho & Hi)].
  cbn [app] in Ho. split.
  - exists tys. now rewrite Ht, <- app_assoc.
  - rewrite Ho, Hsplit. now apply interleaved_same.
Qed.

(** [nl_instrument] keeps the statements of the superblock: whenever it
    returns, the statements of the input are among the statements of the
    output, in the order of the input. *)
Theorem nl_instrument_keeps_the_statements (sb_in sb : IRSB) (total : Z)
    (s s' : nl_main.St) :
  nl_main.nl_instrument typeOfIRExpr sb_in total s = Ok sb s' ->
  sublist (stmts sb_in) (stmts sb).
Proof.
  intros H.
  apply (interleaved_sublist (writes_from 0)).
  refine (proj2 (nl_instrument_interleaved 0 sb_in total s sb s' _ _ H));
    [lia|].
  apply Forall_forall. intros st _.
  assert (forall t o, 0 <= add_IRTemp t o) as Hpos
    by (intros t o; unfold add_IRTemp, wrap; apply Z.mod_pos_bound; lia).
  destruct st; cbn; auto.
Qed.

(** Every temporary that a statement assigns is one of the [n] temporaries
    of its superblock. *)
Definition assigns_declared (n : Z) (st : IRStmt) : Prop :=
  match st with
  | IRStmt_WrTmp tmp _ => 0 <= tmp < n
  | IRStmt_LoadG det => 0 <= lg_dst det < n
  | IRStmt_CAS details =>
      0 <= oldLo details < n
      /\ (oldHi details <> IRTemp_INVALID -> 0 <= oldHi details < n)
  | _ => True
  end.

(** The statements that [nl_instrument] puts between the statements of the
    input are assignments to temporaries, writes to the guest state and
    calls of helpers, and none of them assigns one of the [n] temporaries
    of the input: an assigned temporary is a shadow temporary or a new
    one. *)
Theorem nl_instrument_assigns_shadow_temporaries_only (sb_in sb : IRSB)
    (total : Z) (s s' : nl_main.St) :
  2 * Z.of_nat (length (tyenv sb_in)) <= 2 ^ 32 ->
  Forall (assigns_declared (Z.of_nat (length (tyenv sb_in)))) (stmts sb_in) ->
  nl_main.nl_instrument typeOfIRExpr sb_in total s = Ok sb s' ->
  interleaved (writes_from (Z.of_nat (length (tyenv sb_in))))
              (stmts sb_in) (stmts sb).
Proof.
  intros Hn Hdecl H.
  refine (proj2 (nl_instrument_interleaved _ sb_in total s sb s' _ _ H));
    [lia|].
  eapply Forall_impl; [exact Hdecl|].
  assert (forall t, 0 <= t < Z.of_nat (length (tyenv sb_in)) ->
                    Z.of_nat (length (tyenv sb_in))
                    <= add_IRTemp t (Z.of_nat (length (tyenv sb_in))))
    as Hshadow.
  { intros t Ht. unfold add_IRTemp, wrap. rewrite Z.mod_small; lia. }
  intros st Hst. destruct st; cbn in *; auto.
  destruct Hst as [Hlo Hhi]. auto.
Qed.

(** The temporaries of the output of [nl_instrument]: a temporary of the
    input has its type, and its shadow temporary, [t_offset] further, has
    the same type. *)
Theorem nl_instrument_shadow_temporaries_typed (sb_in sb : IRSB) (total : Z)
    (s s' : nl_main.St) (t : IRTemp) (ty : IRType) :
  2 * Z.of_nat (length (tyenv sb_in)) <= 2 ^ 32 ->
  nl_main.nl_instrument typeOfIRExpr sb_in total s = Ok sb s' ->
  typeOfIRTemp sb_in t = Some ty ->
  typeOfIRTemp sb t = Some ty
  /\ typeOfIRTemp sb (add_IRTemp t (Z.of_nat (length (tyenv sb_in))))
     = Some ty.
Proof.
  intros Hn H Ht.
  destruct (nl_instrument_interleaved 0 sb_in total s sb s') as [[tys Hty] _];
    [lia| |exact H|].
  { apply Forall_forall. intros st _.
    assert (forall t o, 0 <= add_IRTemp t o) as Hpos
      by (intros t0 o; unfold add_IRTemp, wrap; apply Z.mod_pos_bound; lia).
    destruct st; cbn; auto. }
  unfold typeOfIRTemp in *.
  destruct (0 <=? t) eqn:Hpos; [|discriminate Ht]. apply Z.leb_le in Hpos.
  pose proof (lookup_lt_Some _ _ _ Ht) as Hlt.
  split.
  - rewrite Hty. now apply lookup_app_l_Some.
  - unfold add_IRTemp, wrap. rewrite Z.mod_small by lia.
    replace (0 <=? t + Z.of_nat (length (tyenv sb_in))) with true
      by (symmetry; apply Z.leb_le; lia).
    rewrite Hty.
    replace (Z.to_nat (t + Z.of_nat (length (tyenv sb_in))))
      with (length (tyenv sb_in) + Z.to_nat t)%nat by lia.
    rewrite lookup_app_r by lia.
    replace (length (tyenv sb_in) + Z.to_nat t - length (tyenv sb_in))%nat
      with (Z.to_nat t) by lia.
    now apply lookup_app_l_Some.
Qed.

Lemma until_IMark_none sts :
  Forall (fun st => is_IMark st = false) sts ->
  nl_main.until_IMark sts = (sts, []).
Proof.
  induction 1 as [|st sts Hst _ IH]; [reflexivity|].
  cbn. now rewrite Hst, IH.
Qed.

(** A superblock without an instruction mark: [nl_instrument] copies its
    statements and differentiates nothing; nothing is printed and
    [stmt_counter] stays. *)
Theorem nl_instrument_without_IMark (sb_in : IRSB) (total : Z)
    (s : nl_main.St) :
  Forall (fun st => is_IMark st = false) (stmts sb_in) ->
  nl_main.nl_instrument typeOfIRExpr sb_in total s
  = Ok (mkIRSB (tyenv sb_in ++ tyenv sb_in) (stmts sb_in))
       (nl_main.mkSt (mkIRSB (tyenv sb_in ++ tyenv sb_in) (stmts sb_in))
                     (nl_main.output s) (nl_main.stmt_counter s)).
Proof.
  intros H. unfold nl_main.nl_instrument.
  rewrite (until_IMark_none _ H).
  unfold bind at 1. unfold bind at 1. rewrite add_stmts_Ok. reflexivity.
Qed.

End Instrumentation.

(** A superblock that loads a [double] from the address in temporary 0
    into temporary 1. *)
Definition load_block : VEX.IRSB :=
  VEX.mkIRSB [VEX.Ity_I64; VEX.Ity_F64]
    [VEX.IRStmt_IMark 4096 4 0;
     VEX.IRStmt_WrTmp 1
       (VEX.IRExpr_Load VEX.Iend_LE VEX.Ity_F64 (VEX.IRExpr_RdTmp 0))].

(** What [nl_instrument] makes of [load_block]. *)
Definition instrumented_load_block : VEX.IRSB :=
  VEX.mkIRSB
    [VEX.Ity_I64; VEX.Ity_F64; VEX.Ity_I64; VEX.Ity_F64;
     VEX.Ity_I64; VEX.Ity_F64]
    [VEX.IRStmt_IMark 4096 4 0;
     VEX.IRStmt_Dirty
       (VEX.unsafeIRDirty_1_N 4 "nl_Load_diff8" [VEX.IRExpr_RdTmp 0]);
     VEX.IRStmt_WrTmp 5
       (VEX.IRExpr_Unop VEX.Iop_ReinterpI64asF64 (VEX.IRExpr_RdTmp 4));
     VEX.IRStmt_WrTmp 3 (VEX.IRExpr_RdTmp 5);
     VEX.IRStmt_WrTmp 1
       (VEX.IRExpr_Load VEX.Iend_LE VEX.Ity_F64 (VEX.IRExpr_RdTmp 0))].

Lemma nl_instrument_load_block :
  nl_main.nl_instrument (fun _ _ => VEX.Ity_I64) load_block 1000 empty_St
  = Run.Ok instrumented_load_block
      (nl_main.mkSt instrumented_load_block [] 2).
Proof. reflexivity. Qed.

Lemma nl_instrument_keeps_the_statements_witness :
  sublist (VEX.stmts load_block) (VEX.stmts instrumented_load_block).
Proof.
  apply (nl_instrument_keeps_the_statements (fun _ _ => VEX.Ity_I64)
           load_block instrumented_load_block 1000 empty_St
           (nl_main.mkSt instrumented_load_block [] 2)).
  reflexivity.
Defined.

Lemma nl_instrument_assigns_shadow_temporaries_only_witness :
  interleaved (writes_from 2)
    (VEX.stmts load_block) (VEX.stmts instrumented_load_block).
Proof.
  apply (nl_instrument_assigns_shadow_temporaries_only
           (fun _ _ => VEX.Ity_I64) load_block instrumented_load_block 1000
           empty_St (nl_main.mkSt instrumented_load_block [] 2)).
  - cbn. lia.
  - repeat constructor; cbn; lia.
  - reflexivity.
Defined.

Lemma nl_instrument_shadow_temporaries_typed_witness :
  VEX.typeOfIRTemp instrumented_load_block 1 = Some VEX.Ity_F64
  /\ VEX.typeOfIRTemp instrumented_load_block (VEX.add_IRTemp 1 2)
     = Some VEX.Ity_F64.
Proof.
  apply (nl_instrument_shadow_temporaries_typed
           (fun _ _ => VEX.Ity_I64) load_block instrumented_load_block 1000
           empty_St (nl_main.mkSt instrumented_load_block [] 2) 1 VEX.Ity_F64).
  - cbn. lia.
  - reflexivity.
  - reflexivity.
Defined.

(** A superblock without an instruction mark. *)
Definition unmarked_block : VEX.IRSB :=
  VEX.mkIRSB [VEX.Ity_F64; VEX.Ity_F64]
    [VEX.IRStmt_WrTmp 1 (VEX.IRExpr_Unop VEX.Iop_NegF64 (VEX.IRExpr_RdTmp 0))].

Lemma nl_instrument_without_IMark_witness :
  nl_main.nl_instrument (fun _ _ => VEX.Ity_I64) unmarked_block 1000 empty_St
  = Run.Ok
      (VEX.mkIRSB [VEX.Ity_F64; VEX.Ity_F64; VEX.Ity_F64; VEX.Ity_F64]
                  (VEX.stmts unmarked_block))
      (nl_main.mkSt
         (VEX.mkIRSB [VEX.Ity_F64; VEX.Ity_F64; VEX.Ity_F64; VEX.Ity_F64]
                     (VEX.stmts unmarked_block))
         [] 0).
Proof.
  apply (nl_instrument_without_IMark (fun _ _ => VEX.Ity_I64) unmarked_block
           1000 empty_St).
  repeat constructor.
Defined.
(** * The helpers for the shadow memory: [nl_Store_diff] and [nl_Load_diff] *)

Section Shadow_memory_properties.

Variable ShadowMap : Type.
Variable shadow_set_bits : ShadowMap -> Z -> Z -> ShadowMap.
Variable shadow_get_bits : ShadowMap -> Z -> Z.
Variable addr_bits : Z.

(** What the shadow memory library promises: a byte that was set is read
    back, and setting it leaves the bytes at the other addresses. *)
Hypothesis get_set :
  forall sm a v, shadow_get_bits (shadow_set_bits sm a v) a = v.
Hypothesis get_set_other :
  forall sm a a' v,
    a <> a' ->
    shadow_get_bits (shadow_set_bits sm a v) a' = shadow_get_bits sm a'.

(** There are at least eight addresses. *)
Hypothesis addr_bits_ge : 3 <= addr_bits.

#[local] Abbreviation nl_Store_diff :=
  (nl_main.nl_Store_diff ShadowMap shadow_set_bits addr_bits).
#[local] Abbreviation nl_Load_diff :=
  (nl_main.nl_Load_diff ShadowMap shadow_get_bits addr_bits).

Lemma seqZ_snoc (m : Z) (n : nat) :
  seqZ m (Z.of_nat (S n)) = seqZ m (Z.of_nat n) ++ [m + Z.of_nat n].
Proof.
  replace (Z.of_nat (S n)) with (Z.of_nat n + 1) by lia.
  rewrite seqZ_app by lia. reflexivity.
Qed.

Lemma wrap_addr_inj (addr i j : Z) :
  0 <= i < 8 -> 0 <= j < 8 ->
  wrap addr_bits (addr + i) = wrap addr_bits (addr + j) -> i = j.
Proof.
  intros Hi Hj H. unfold wrap in H.
  assert (8 <= 2 ^ addr_bits) as Hpow.
  { change 8 with (2 ^ 3). apply Z.pow_le_mono_r; lia. }
  assert ((i - j) mod 2 ^ addr_bits = 0) as Hmod.
  { replace (i - j) with ((addr + i) - (addr + j)) by lia.
    rewrite Zminus_mod, H, Z.sub_diag. apply Z.mod_0_l. lia. }
  destruct (Z.eq_dec i j) as [|Hne]; [assumption|exfalso].
  destruct (Z_lt_le_dec i j).
  - assert ((j - i) mod 2 ^ addr_bits = 0) as Hmod'.
    { replace (j - i) with ((addr + j) - (addr + i)) by lia.
      rewrite Zminus_mod, H, Z.sub_diag. apply Z.mod_0_l. lia. }
    rewrite Z.mod_small in Hmod' by lia. lia.
  - rewrite Z.mod_small in Hmod by lia. lia.
Qed.

Lemma U8s_of_ULong_lookup (x i : Z) :
  0 <= i < 8 ->
  nl_main.U8s_of_ULong x !! Z.to_nat i = Some ((x `div` 2 ^ (8 * i)) `mod` 256).
Proof.
  intros Hi. unfold nl_main.U8s_of_ULong.
  rewrite list_lookup_fmap, lookup_seqZ_lt by lia. cbn. repeat f_equal; lia.
Qed.

(** What [nl_Store_diff] stores. *)
Lemma nl_Store_diff_stores (addr derivative : Z) (sm : ShadowMap) (n : nat) :
  (n <= 8)%nat ->
  exists sm',
    nl_Store_diff addr derivative (Z.of_nat n) sm = Some sm'
    /\ (forall i, 0 <= i < Z.of_nat n ->
                  shadow_get_bits sm' (wrap addr_bits (addr + i))
                  = (derivative `div` 2 ^ (8 * i)) `mod` 256)
    /\ (forall a, (forall i, 0 <= i < Z.of_nat n ->
                             a <> wrap addr_bits (addr + i)) ->
                  shadow_get_bits sm' a = shadow_get_bits sm a).
Proof.
  unfold nl_main.nl_Store_diff.
  induction n as [|n IH]; intros Hn.
  - exists sm. cbn. split; [reflexivity|]. split; [intros; lia|auto].
  - destruct IH as (sm1 & Hs1 & Hget & Hframe); [lia|].
    rewrite seqZ_snoc, foldl_app, Hs1. cbn [foldl mbind option_bind].
    rewrite Z.add_0_l, U8s_of_ULong_lookup by lia.
    cbn [mbind option_bind].
    eexists. split; [reflexivity|]. split.
    + intros i Hi. destruct (Z.eq_dec i (Z.of_nat n)) as [->|Hne].
      * apply get_set.
      * rewrite get_set_other; [apply Hget; lia|].
        intros Heq. apply Hne. symmetry.
        apply (wrap_addr_inj addr); [lia|lia|exact Heq].
    + intros a Ha. rewrite get_set_other.
      * apply Hframe. intros i Hi. apply Ha. lia.
      * intros Heq. apply (Ha (Z.of_nat n)); [lia|]. now symmetry.
Qed.

Lemma ULong_of_U8s_zeros (bs : list Z) (k : nat) :
  nl_main.ULong_of_U8s (bs ++ replicate k 0) = nl_main.ULong_of_U8s bs.
Proof.
  unfold nl_main.ULong_of_U8s. rewrite foldr_app.
  replace (foldr (fun b x => b + 256 * x) 0 (replicate k 0)) with 0;
    [reflexivity|].
  induction k as [|k IH]; [reflexivity|]. cbn. rewrite <- IH. reflexivity.
Qed.

(** The bytes that the first loop of [nl_Load_diff] has loaded after [n]
    rounds, in front of the bytes that are still 0. *)
Lemma nl_Load_diff_loads (addr : Z) (sm : ShadowMap) (n : nat) :
  (n <= 8)%nat ->
  foldl (fun d i =>
           d ← d;
           if bool_decide (Z.to_nat i < length d)%nat then
             Some (<[Z.to_nat i :=
                       shadow_get_bits sm (wrap addr_bits (addr + i))]> d)
           else None)
        (Some (nl_main.U8s_of_ULong 0)) (seqZ 0 (Z.of_nat n))
  = Some (((fun i => shadow_get_bits sm (wrap addr_bits (addr + i)))
             <$> seqZ 0 (Z.of_nat n))
          ++ replicate (8 - n) 0).
Proof.
  induction n as [|n IH]; intros Hn; [reflexivity|].
  rewrite seqZ_snoc, foldl_app, IH by lia. cbn [foldl mbind option_bind].
  rewrite Z.add_0_l, Nat2Z.id.
  rewrite bool_decide_eq_true_2
    by (rewrite length_app, length_fmap, length_seqZ, length_replicate; lia).
  f_equal. rewrite fmap_app. cbn [fmap list_fmap].
  rewrite <- app_assoc. cbn [app].
  replace (8 - n)%nat with (S (8 - S n)) by lia. cbn [replicate].
  rewrite insert_app_r_alt by (rewrite length_fmap, length_seqZ; lia).
  rewrite length_fmap, length_seqZ.
  replace (n - Z.to_nat (Z.of_nat n))%nat with 0%nat by lia.
  reflexivity.
Qed.

Lemma zero_the_rest (bs : list Z) (n k : nat) :
  length bs = n ->
  foldl (fun d i => <[Z.to_nat i := 0]> d) (bs ++ replicate k 0)
        (seqZ (Z.of_nat n) (Z.of_nat k))
  = bs ++ replicate k 0.
Proof.
  intros Hlen.
  assert (forall j, (j <= k)%nat ->
            foldl (fun d i => <[Z.to_nat i := 0]> d) (bs ++ replicate k 0)
                  (seqZ (Z.of_nat n) (Z.of_nat j))
            = bs ++ replicate k 0) as H; [|apply H; lia].
  induction j as [|j IH]; intros Hj; [reflexivity|].
  rewrite seqZ_snoc, foldl_app, IH by lia. cbn [foldl].
  apply list_insert_id.
  rewrite lookup_app_r by lia.
  apply lookup_replicate_2. lia.
Qed.

(** What [nl_Load_diff] returns: the bytes at [addr], [addr+1], ..., the
    byte at [addr] lowest. *)
Lemma nl_Load_diff_value (addr : Z) (sm : ShadowMap) (n : nat) :
  (n <= 8)%nat ->
  nl_Load_diff addr (Z.of_nat n) sm
  = Some (nl_main.ULong_of_U8s
            ((fun i => shadow_get_bits sm (wrap addr_bits (addr + i)))
               <$> seqZ 0 (Z.of_nat n))).
Proof.
  intros Hn. unfold nl_main.nl_Load_diff.
  rewrite nl_Load_diff_loads by assumption. cbn [mbind option_bind].
  replace (8 - Z.of_nat n) with (Z.of_nat (8 - n)) by lia.
  rewrite zero_the_rest by (rewrite length_fmap, length_seqZ; lia).
  now rewrite ULong_of_U8s_zeros.
Qed.

(** The number that [n] bytes make, the first byte lowest. *)
Lemma ULong_of_U8s_bytes (x k : Z) (n : nat) :
  0 <= k ->
  nl_main.ULong_of_U8s
    ((fun i => (x `div` 2 ^ (8 * (k + i))) `mod` 256) <$> seqZ 0 (Z.of_nat n))
  = (x `div` 2 ^ (8 * k)) `mod` 2 ^ (8 * Z.of_nat n).
Proof.
  revert k. induction n as [|n IH]; intros k Hk.
  - cbn. now rewrite Z.mod_1_r.
  - replace (Z.of_nat (S n)) with (1 + Z.of_nat n) by lia.
    rewrite seqZ_app by lia. cbn [seqZ]. rewrite fmap_app.
    change (seqZ 0 1) with [0]. cbn [fmap list_fmap app Z.add].
    unfold nl_main.ULong_of_U8s in *. cbn [foldr].
    rewrite <- (fmap_add_seqZ 1 0), <- list_fmap_compose.
    assert (forall i,
              (compose (fun i0 => (x `div` 2 ^ (8 * (k + i0))) `mod` 256)
                       (Z.add 1)) i
              = (x `div` 2 ^ (8 * ((k + 1) + i))) `mod` 256) as Hf.
    { intros i. unfold compose.
      replace (k + (1 + i)) with (k + 1 + i) by lia. reflexivity. }
    rewrite (list_fmap_ext _ _ _ (fun _ i _ => Hf i)).
    rewrite IH by lia.
    rewrite Z.add_0_r.
    replace (8 * (1 + Z.of_nat n)) with (8 + 8 * Z.of_nat n) by lia.
    rewrite (Z.pow_add_r 2 8) by lia.
    rewrite Z.rem_mul_r by lia.
    replace (8 * (k + 1)) with (8 * k + 8) by lia.
    rewrite (Z.pow_add_r 2 (8 * k)) by lia.
    rewrite <- Z.div_div by lia.
    reflexivity.
Qed.

(** Round trip through the shadow memory: after [nl_Store_diff] has stored
    [size] bytes of [derivative] at [addr], [nl_Load_diff] of [n] bytes at
    [addr + k], inside of what was stored, returns these bytes of
    [derivative], the upper bytes of the result being 0; for the same
    address and size it returns the lower [size] bytes of [derivative]. *)
Theorem nl_Load_diff_after_nl_Store_diff (addr derivative size k n : Z)
    (sm : ShadowMap) :
  0 <= size <= 8 -> 0 <= k -> 0 <= n -> k + n <= size ->
  exists sm',
    nl_Store_diff addr derivative size sm = Some sm'
    /\ nl_Load_diff (addr + k) n sm'
       = Some ((derivative `div` 2 ^ (8 * k)) `mod` 2 ^ (8 * n))
    /\ nl_Load_diff addr size sm' = Some (derivative `mod` 2 ^ (8 * size)).
Proof.
  intros Hsize Hk Hn Hkn.
  destruct (nl_Store_diff_stores addr derivative sm (Z.to_nat size))
    as (sm' & Hstore & Hget & _); [lia|].
  rewrite Z2Nat.id in Hstore, Hget by lia.
  exists sm'. split; [exact Hstore|].
  assert (forall k n, 0 <= k -> 0 <= n -> k + n <= size ->
            nl_Load_diff (addr + k) n sm'
            = Some ((derivative `div` 2 ^ (8 * k)) `mod` 2 ^ (8 * n))) as H.
  { clear k n Hk Hn Hkn. intros k n Hk Hn Hkn.
    rewrite <- (Z2Nat.id n) at 1 by lia.
    rewrite nl_Load_diff_value by lia. f_equal.
    rewrite <- (Z2Nat.id n) at 2 by lia.
    rewrite <- ULong_of_U8s_bytes by lia. f_equal.
    apply list_fmap_ext. intros j i Hi.
    apply lookup_seqZ in Hi as [-> Hj].
    rewrite <- Z.add_assoc. apply Hget. lia. }
  split; [now apply H|].
  rewrite <- (Z.add_0_r addr) at 1. rewrite H by lia.
  now rewrite Z.mul_0_r, Z.pow_0_r, Z.div_1_r.
Qed.

(** [nl_Store_diff] leaves what [nl_Load_diff] returns for bytes that do
    not overlap with the bytes stored. *)
Theorem nl_Store_diff_leaves_other_bytes (addr derivative size addr' size' : Z)
    (sm sm' : ShadowMap) :
  0 <= size <= 8 -> 0 <= size' <= 8 ->
  (forall i j, 0 <= i < size -> 0 <= j < size' ->
               wrap addr_bits (addr' + j) <> wrap addr_bits (addr + i)) ->
  nl_Store_diff addr derivative size sm = Some sm' ->
  nl_Load_diff addr' size' sm' = nl_Load_diff addr' size' sm.
Proof.
  intros Hsize Hsize' Hdisjoint Hstore.
  destruct (nl_Store_diff_stores addr derivative sm (Z.to_nat size))
    as (sm1 & Hstore1 & _ & Hframe); [lia|].
  rewrite Z2Nat.id in Hstore1, Hframe by lia.
  assert (sm1 = sm') as -> by congruence.
  rewrite <- (Z2Nat.id size') by lia.
  rewrite !nl_Load_diff_value by lia. do 2 f_equal.
  apply list_fmap_ext. intros j i Hi.
  apply lookup_seqZ in Hi as [-> Hj].
  apply Hframe. intros i' Hi'. apply Hdisjoint; lia.
Qed.

End Shadow_memory_properties.

(** A shadow memory: the function from the addresses to the bytes. *)
Definition function_set_bits (sm : Z -> Z) (a v : Z) : Z -> Z :=
  fun a' => if a' =? a then v else sm a'.

Lemma function_get_set (sm : Z -> Z) (a v : Z) :
  function_set_bits sm a v a = v.
Proof. unfold function_set_bits. now rewrite Z.eqb_refl. Qed.

Lemma function_get_set_other (sm : Z -> Z) (a a' v : Z) :
  a <> a' -> function_set_bits sm a v a' = sm a'.
Proof.
  intros Hne. unfold function_set_bits.
  destruct (a' =? a) eqn:Heq; [|reflexivity].
  apply Z.eqb_eq in Heq. congruence.
Qed.

Lemma nl_Load_diff_after_nl_Store_diff_witness :
  exists sm',
    nl_main.nl_Store_diff (Z -> Z) function_set_bits 64
      4096 0x3ff0000000000000 8 (fun _ => 0) = Some sm'
    /\ nl_main.nl_Load_diff (Z -> Z) (fun sm a => sm a) 64 (4096 + 4) 4 sm'
       = Some ((0x3ff0000000000000 `div` 2 ^ (8 * 4)) `mod` 2 ^ (8 * 4))
    /\ nl_main.nl_Load_diff (Z -> Z) (fun sm a => sm a) 64 4096 8 sm'
       = Some (0x3ff0000000000000 `mod` 2 ^ (8 * 8)).
Proof.
  apply (nl_Load_diff_after_nl_Store_diff (Z -> Z) function_set_bits
           (fun sm a => sm a) 64 function_get_set function_get_set_other);
    lia.
Defined.

Lemma nl_Store_diff_leaves_other_bytes_witness :
  nl_main.nl_Load_diff (Z -> Z) (fun sm a => sm a) 64 4104 8
    (default (fun _ => 0)
       (nl_main.nl_Store_diff (Z -> Z) function_set_bits 64
          4096 0x3ff0000000000000 8 (fun _ => 7)))
  = nl_main.nl_Load_diff (Z -> Z) (fun sm a => sm a) 64 4104 8 (fun _ => 7).
Proof.
  apply (nl_Store_diff_leaves_other_bytes (Z -> Z) function_set_bits
           (fun sm a => sm a) 64 function_get_set function_get_set_other
           ltac:(lia) 4096 0x3ff0000000000000 8 4104 8 (fun _ => 7)).
  - lia.
  - lia.
  - intros i j Hi Hj. unfold wrap. rewrite !Z.mod_small by lia. lia.
  - reflexivity.
Defined.
(** * The indices at which the recording stops ([dg_post_clo_init]) *)

Section Stop_indices.
Import dg_main.

Variable strtoull10 : string -> Z.
Variable garbage : Z -> Z.
Variable VG_N_THREADS : Z.

(** The tokens that the calls of [VG_(strtok_r)] find one after the other. *)
Fixpoint tokens (fuel : nat) (s : string) : list string :=
  match fuel with
  | O => []
  | S fuel' =>
      match strtok_r "," s with
      | None => []
      | Some (token, rest) => token :: tokens fuel' rest
      end
  end.

Lemma skip_delimiters_length delim s :
  (String.length (skip_delimiters delim s) <= String.length s)%nat.
Proof.
  induction s as [|c s IH]; cbn; [lia|].
  destruct (Ascii.eqb c delim); cbn; lia.
Qed.

Lemma skip_delimiters_head delim s c s' :
  skip_delimiters delim s = String c s' -> Ascii.eqb c delim = false.
Proof.
  induction s as [|d s IH]; cbn; [discriminate|].
  destruct (Ascii.eqb d delim) eqn:Hd; [exact IH|].
  intros [= -> ->]. exact Hd.
Qed.

(** A token is followed by a delimiter, which is not among the characters
    left, or it goes up to the end. *)
Lemma split_token_length delim s token rest :
  split_token delim s = (token, rest) ->
  (String.length token + String.length rest + 1 = String.length s)%nat
  \/ (rest = EmptyString /\ String.length token = String.length s).
Proof.
  revert token rest. induction s as [|c s IH]; intros token rest H; cbn in H.
  - injection H as <- <-. right. auto.
  - destruct (Ascii.eqb c delim).
    + injection H as <- <-. left. cbn. lia.
    + destruct (split_token delim s) as [token' rest'].
      injection H as <- <-.
      destruct (IH token' rest' eq_refl) as [Hl|[-> Hl]]; cbn.
      * left. lia.
      * right. split; [reflexivity|lia].
Qed.

Lemma strtok_r_length s token rest :
  strtok_r "," s = Some (token, rest) ->
  (String.length rest + 2 <= String.length s)%nat
  \/ (rest = EmptyString /\ (1 <= String.length s)%nat).
Proof.
  unfold strtok_r. pose proof (skip_delimiters_length "," s) as Hskip.
  destruct (skip_delimiters "," s) as [|c s'] eqn:Hs; [discriminate|].
  intros [= H].
  pose proof (split_token_length "," (String c s') token rest H) as Hsplit.
  assert (1 <= String.length token)%nat as Htok.
  { cbn in H. rewrite (skip_delimiters_head _ _ _ _ Hs) in H.
    destruct (split_token "," s') as [t r]. injection H as <- <-. cbn. lia. }
  cbn [String.length] in *.
  destruct Hsplit as [Hl|[-> Hl]]; [left|right]; [lia|split; [reflexivity|lia]].
Qed.

Lemma store_index_Some indices i v :
  0 <= i -> (Z.to_nat i < length indices)%nat ->
  store_index indices i v = Some (<[Z.to_nat i := v]> indices).
Proof.
  intros Hi Hlt. unfold store_index.
  rewrite bool_decide_eq_true_2 by assumption.
  apply Z.leb_le in Hi. now rewrite Hi.
Qed.

(** The loop stays inside of the array: with [i] indices read and the
    characters of [s] left, [2*i + strlen(s)] is at most the length [len]
    of the whole string, or nothing is left and [2*i] is at most
    [len + 1]. *)
Lemma read_indices_in_bounds (len : Z) (Hlen0 : 0 <= len) :
  forall fuel s i indices,
    (String.length s < fuel)%nat ->
    0 <= i ->
    2 * i + Z.of_nat (String.length s) <= len
    \/ (s = EmptyString /\ 2 * i <= len + 1) ->
    Z.of_nat (length indices) = len `div` 2 + 2 ->
    len `div` 2 + 2 <= INT_MAX ->
    exists out,
      read_indices strtoull10 fuel (strtok_r "," s) i indices = Some out
      /\ length out = length indices
      /\ take (Z.to_nat i + length (tokens fuel s) + 1) out
         = take (Z.to_nat i) indices
           ++ (strtoull10 <$> tokens fuel s) ++ [0].
Proof.
  induction fuel as [|fuel IH]; intros s i indices Hfuel Hi Hinv Hlen Hmax;
    [lia|].
  assert (2 * (len `div` 2) <= len < 2 * (len `div` 2) + 2) as Hdiv.
  { pose proof (Z.div_mod len 2 ltac:(lia)).
    pose proof (Z.mod_pos_bound len 2 ltac:(lia)). lia. }
  cbn [tokens].
  destruct (strtok_r "," s) as [[token rest]|] eqn:Htok; cbn [read_indices].
  - (* a token: [s] is not empty *)
    pose proof (strtok_r_length _ _ _ Htok) as Hrest.
    assert (2 * i + Z.of_nat (String.length s) <= len) as Hinv'.
    { destruct Hinv as [?|[-> _]]; [assumption|]. discriminate Htok. }
    rewrite store_index_Some by lia. cbn [mbind option_bind].
    rewrite int_of_in_range by (unfold INT_MIN; lia).
    cbn [mbind option_bind].
    destruct (IH rest (i + 1) (<[Z.to_nat i := strtoull10 token]> indices))
      as (out & Hout & Hlout & Htake).
    + destruct Hrest as [?|[-> ?]]; cbn; lia.
    + lia.
    + destruct Hrest as [?|[-> ?]]; [left; lia|right; split; [reflexivity|lia]].
    + rewrite length_insert. exact Hlen.
    + exact Hmax.
    + exists out. split; [exact Hout|].
      rewrite length_insert in Hlout. split; [exact Hlout|].
      cbn [length fmap list_fmap app].
      replace (Z.to_nat i + S (length (tokens fuel rest)) + 1)%nat
        with (Z.to_nat (i + 1) + length (tokens fuel rest) + 1)%nat by lia.
      rewrite Htake.
      replace (Z.to_nat (i + 1)) with (S (Z.to_nat i)) by lia.
      rewrite (take_S_r _ _ (strtoull10 token))
        by (apply list_lookup_insert_eq; lia).
      rewrite take_insert_ge by lia.
      rewrite <- app_assoc. reflexivity.
  - (* no token is left *)
    rewrite store_index_Some by (destruct Hinv as [?|[_ ?]]; lia).
    eexists. split; [reflexivity|].
    rewrite length_insert. split; [reflexivity|].
    cbn [length fmap list_fmap app]. rewrite Nat.add_0_r.
    replace (Z.to_nat i + 1)%nat with (S (Z.to_nat i)) by lia.
    rewrite (take_S_r _ _ 0)
      by (apply list_lookup_insert_eq; destruct Hinv as [?|[_ ?]]; lia).
    rewrite take_insert_ge by lia. reflexivity.
Qed.

(** The parsing of the list of indices stays inside of the array of
    [strlen/2+2] indices, whatever the string is. *)
Lemma parse_recording_stop_indices_in_bounds (str : string) :
  Z.of_nat (String.length str) `div` 2 + 2 <= INT_MAX ->
  exists indices,
    parse_recording_stop_indices strtoull10 garbage str = Some indices
    /\ Z.of_nat (length indices) = Z.of_nat (String.length str) `div` 2 + 2
    /\ take (length (tokens (S (String.length str)) str) + 1) indices
       = (strtoull10 <$> tokens (S (String.length str)) str) ++ [0].
Proof.
  intros Hmax. unfold parse_recording_stop_indices.
  assert (0 <= Z.of_nat (String.length str) `div` 2)
    by (apply Z.div_pos; lia).
  rewrite int_of_in_range by (unfold INT_MIN; lia).
  cbn [mbind option_bind].
  destruct (read_indices_in_bounds (Z.of_nat (String.length str))
              ltac:(lia)
              (S (String.length str)) str 0
              (garbage <$> seqZ 0 (Z.of_nat (String.length str) `div` 2 + 2)))
    as (out & Hout & Hlout & Htake);
    [lia|lia|left; lia| |exact Hmax|].
  { rewrite length_fmap, length_seqZ. lia. }
  exists out. split; [exact Hout|]. split.
  - rewrite Hlout, length_fmap, length_seqZ. lia.
  - exact Htake.
Qed.

(** [dg_post_clo_init] in recording mode with a list of stop indices,
    whatever the string is: the checks of the options pass, the parsing
    stays inside of the array of [strlen/2+2] indices, which gets the
    number of each token of the string, in the order of the tokens, and a
    0 behind them; [dg_disable] is set to zeros and the recording is
    initialized. *)
Theorem dg_post_clo_init_reads_the_stop_indices (g : Globals) (str : string) :
  mode (settings g) = "b"%char ->
  recording_stop_indices_str g = Some str ->
  Z.of_nat (String.length str) `div` 2 + 2 <= INT_MAX ->
  0 <= VG_N_THREADS < INT_MAX ->
  exists indices,
    dg_post_clo_init strtoull10 garbage VG_N_THREADS g
    = Run.Ok tt
        (mkGlobals (settings g) (typegrind g) (Some str) (Some indices)
           (Some (replicate (Z.to_nat (VG_N_THREADS + 1)) 0))
           (printed g) (initialized g ++ ["dg_bar"; "dg_bar_tape"]%string))
    /\ Z.of_nat (length indices) = Z.of_nat (String.length str) `div` 2 + 2
    /\ take (length (tokens (S (String.length str)) str) + 1) indices
       = (strtoull10 <$> tokens (S (String.length str)) str) ++ [0].
Proof.
  intros Hmode Hstr Hmax Hthreads.
  destruct (parse_recording_stop_indices_in_bounds str Hmax)
    as (indices & Hparse & Hlen & Htake).
  exists indices. split; [|split; assumption].
  unfold dg_post_clo_init. rewrite Hmode, Hstr, Hparse.
  rewrite bool_decide_eq_true_2 by reflexivity.
  rewrite !andb_false_r.
  rewrite (bool_decide_eq_false_2 ("b"%char = "d"%char)) by discriminate.
  unfold Run.bind, Run.ret, Run.lift, initialize. cbn.
  rewrite int_of_in_range by (unfold INT_MIN; lia). cbn.
  rewrite <- app_assoc, Hstr. reflexivity.
Qed.

End Stop_indices.

(** The globals after the options [--record=dir --record-stop=12,,345,6]. *)
Definition recording_globals : dg_main.Globals :=
  dg_main.mkGlobals (dg_main.mkSettings "b" false) false
                    (Some "12,,345,6"%string) None None [] [].

Lemma dg_post_clo_init_reads_the_stop_indices_witness :
  exists indices,
    dg_main.dg_post_clo_init (fun s => Z.of_nat (String.length s))
      (fun _ => 7) 500 recording_globals
    = Run.Ok tt
        (dg_main.mkGlobals (dg_main.mkSettings "b" false) false
           (Some "12,,345,6"%string) (Some indices)
           (Some (replicate (Z.to_nat (500 + 1)) 0))
           [] ([] ++ ["dg_bar"; "dg_bar_tape"]%string))
    /\ Z.of_nat (length indices)
       = Z.of_nat (String.length "12,,345,6") `div` 2 + 2
    /\ take (length (tokens 10 "12,,345,6") + 1) indices
       = ((fun s => Z.of_nat (String.length s)) <$> tokens 10 "12,,345,6")
         ++ [0].
Proof.
  apply (dg_post_clo_init_reads_the_stop_indices
           (fun s => Z.of_nat (String.length s)) (fun _ => 7) 500
           recording_globals "12,,345,6").
  - reflexivity.
  - reflexivity.
  - vm_compute. discriminate.
  - unfold INT_MAX. lia.
Defined.

(** * The two layers of the indices in recording mode *)

Section Layers.
Import VEX Run bar_dg_bar.

(** The values of the types [I32] and [I64]. *)
Inductive IntValue := IV32 (n : Z) | IV64 (n : Z).

(** The value of an expression made of temporaries, of constants of the
    types [I32] and [I64], of [Iop_64to32] (the lower half of an [I64]), of
    [Iop_64HIto32] (its upper half) and of [Iop_32HLto64] (an [I64] from
    its two halves, the upper half first), as [libvex_ir.h] describes
    them; [None] for any other expression. *)
Fixpoint eval_int (tmps : IRTemp -> option IntValue) (e : IRExpr)
  : option IntValue :=
  match e with
  | IRExpr_RdTmp t => tmps t
  | IRExpr_Const (IRConst_U32 n) => Some (IV32 (wrap 32 n))
  | IRExpr_Const (IRConst_U64 n) => Some (IV64 (wrap 64 n))
  | IRExpr_Unop Iop_64to32 a =>
      match eval_int tmps a with
      | Some (IV64 n) => Some (IV32 (n `mod` 2 ^ 32))
      | _ => None
      end
  | IRExpr_Unop Iop_64HIto32 a =>
      match eval_int tmps a with
      | Some (IV64 n) => Some (IV32 (n `div` 2 ^ 32))
      | _ => None
      end
  | IRExpr_Binop Iop_32HLto64 hi lo =>
      match eval_int tmps hi, eval_int tmps lo with
      | Some (IV32 h), Some (IV32 l) => Some (IV64 (h * 2 ^ 32 + l))
      | _, _ => None
      end
  | _ => None
  end.

(** The index that [dg_bar_writeToTape_call] returns comes back: the code
    that [dg_bar_writeToTape] adds calls the helper with a new temporary of
    type [I64] for its result [r], and the expressions that it returns for
    the two layers have values from which a later call of
    [dg_bar_writeToTape_call] puts [r] together again, as the index of the
    first operand and as the index of the second. *)
Theorem dg_bar_writeToTape_layers_give_back_the_index
    (index1Lo index1Hi index2Lo index2Hi diff1 diff2 : IRExpr) (sb_out : IRSB)
    (tmps : IRTemp -> option IntValue) (r : Z) :
  0 <= r < 2 ^ 64 ->
  tmps (Z.of_nat (length (tyenv sb_out))) = Some (IV64 r) ->
  exists exLo exHi sb_out' lo hi,
    dg_bar_writeToTape index1Lo index1Hi index2Lo index2Hi diff1 diff2 sb_out
    = ((exLo, exHi), sb_out')
    /\ typeOfIRTemp sb_out' (Z.of_nat (length (tyenv sb_out))) = Some Ity_I64
    /\ stmts sb_out'
       = stmts sb_out
         ++ [IRStmt_Dirty
               (unsafeIRDirty_1_N (Z.of_nat (length (tyenv sb_out)))
                  "dg_bar_writeToTape_call"
                  [index1Lo; index1Hi; index2Lo; index2Hi;
                   IRExpr_Unop Iop_ReinterpF64asI64 diff1;
                   IRExpr_Unop Iop_ReinterpF64asI64 diff2])]
    /\ eval_int tmps exLo = Some (IV64 lo)
    /\ eval_int tmps exHi = Some (IV64 hi)
    /\ forall otherLo otherHi d1 d2 t,
         dg_main.dg_bar_writeToTape_call lo hi otherLo otherHi d1 d2 t
         = dg_bar_tape.tapeAddStatement r
             (wrap 32 otherLo + 2 ^ 32 * wrap 32 otherHi)
             (dg_main.double_of_bits d1) (dg_main.double_of_bits d2) t
         /\ dg_main.dg_bar_writeToTape_call otherLo otherHi lo hi d1 d2 t
            = dg_bar_tape.tapeAddStatement
                (wrap 32 otherLo + 2 ^ 32 * wrap 32 otherHi) r
                (dg_main.double_of_bits d1) (dg_main.double_of_bits d2) t.
Proof.
  intros Hr Htmp.
  eexists _, _, _, _, _. split; [reflexivity|].
  split.
  { unfold typeOfIRTemp. cbn [tyenv newIRTemp addStmtToIRSB fst snd].
    replace (0 <=? Z.of_nat (length (tyenv sb_out))) with true
      by (symmetry; apply Z.leb_le; lia).
    rewrite Nat2Z.id. apply list_lookup_middle. reflexivity. }
  split; [reflexivity|].
  cbn [eval_int]. rewrite Htmp.
  split; [reflexivity|]. split; [reflexivity|].
  assert (wrap 32 0 * 2 ^ 32 + r `mod` 2 ^ 32 = r `mod` 2 ^ 32) as Hlo
    by (unfold wrap; rewrite Z.mod_0_l by lia; lia).
  assert (wrap 32 0 * 2 ^ 32 + r `div` 2 ^ 32 = r `div` 2 ^ 32) as Hhi
    by (unfold wrap; rewrite Z.mod_0_l by lia; lia).
  rewrite Hlo, Hhi.
  assert (wrap 32 (r `mod` 2 ^ 32) + 2 ^ 32 * wrap 32 (r `div` 2 ^ 32) = r)
    as Hr'.
  { unfold wrap. rewrite Z.mod_mod by lia.
    rewrite (Z.mod_small (r `div` 2 ^ 32)).
    - rewrite Z.add_comm. symmetry. apply Z.div_mod. lia.
    - split; [apply Z.div_pos; lia|].
      apply Z.div_lt_upper_bound; [lia|].
      change (2 ^ 32 * 2 ^ 32) with (2 ^ 64). lia. }
  intros otherLo otherHi d1 d2 t.
  unfold dg_main.dg_bar_writeToTape_call. rewrite Hr'. auto.
Qed.

End Layers.

Lemma dg_bar_writeToTape_layers_give_back_the_index_witness :
  exists exLo exHi sb_out' lo hi,
    bar_dg_bar.dg_bar_writeToTape
      (VEX.IRExpr_RdTmp 0) (VEX.IRExpr_RdTmp 1)
      (VEX.IRExpr_RdTmp 0) (VEX.IRExpr_RdTmp 1)
      (VEX.IRExpr_Const (VEX.IRConst_F64 2))
      (VEX.IRExpr_Const (VEX.IRConst_F64 2))
      (VEX.mkIRSB [VEX.Ity_I64; VEX.Ity_I64] [])
    = ((exLo, exHi), sb_out')
    /\ VEX.typeOfIRTemp sb_out' (Z.of_nat 2) = Some VEX.Ity_I64
    /\ VEX.stmts sb_out'
       = []
         ++ [VEX.IRStmt_Dirty
               (VEX.unsafeIRDirty_1_N (Z.of_nat 2) "dg_bar_writeToTape_call"
                  [VEX.IRExpr_RdTmp 0; VEX.IRExpr_RdTmp 1;
                   VEX.IRExpr_RdTmp 0; VEX.IRExpr_RdTmp 1;
                   VEX.IRExpr_Unop VEX.Iop_ReinterpF64asI64
                     (VEX.IRExpr_Const (VEX.IRConst_F64 2));
                   VEX.IRExpr_Unop VEX.Iop_ReinterpF64asI64
                     (VEX.IRExpr_Const (VEX.IRConst_F64 2))])]
    /\ eval_int (fun _ => Some (IV64 0x500000007)) exLo = Some (IV64 lo)
    /\ eval_int (fun _ => Some (IV64 0x500000007)) exHi = Some (IV64 hi)
    /\ forall otherLo otherHi d1 d2 t,
         dg_main.dg_bar_writeToTape_call lo hi otherLo otherHi d1 d2 t
         = dg_bar_tape.tapeAddStatement 0x500000007
             (wrap 32 otherLo + 2 ^ 32 * wrap 32 otherHi)
             (dg_main.double_of_bits d1) (dg_main.double_of_bits d2) t
         /\ dg_main.dg_bar_writeToTape_call otherLo otherHi lo hi d1 d2 t
            = dg_bar_tape.tapeAddStatement
                (wrap 32 otherLo + 2 ^ 32 * wrap 32 otherHi) 0x500000007
                (dg_main.double_of_bits d1) (dg_main.double_of_bits d2) t.
Proof.
  apply (dg_bar_writeToTape_layers_give_back_the_index
           (VEX.IRExpr_RdTmp 0) (VEX.IRExpr_RdTmp 1)
           (VEX.IRExpr_RdTmp 0) (VEX.IRExpr_RdTmp 1)
           (VEX.IRExpr_Const (VEX.IRConst_F64 2))
           (VEX.IRExpr_Const (VEX.IRConst_F64 2))
           (VEX.mkIRSB [VEX.Ity_I64; VEX.Ity_I64] [])
           (fun _ => Some (IV64 0x500000007)) 0x500000007).
  - lia.
  - reflexivity.
Defined.

(** * The instrumentation of a superblock by the tool *)

Section Dg_instrument.
Import VEX Run Run.Notations bar_dg_bar dg_instrumentation.

Variable typeOfIRExpr : list IRType -> IRExpr -> IRType.
Variable addressesOfCAS : IRCAS -> M IRSB (IRExpr * IRExpr).
Variable dg_dot_handle_statement : DiffEnv -> IRStmt -> M IRSB DiffEnv.
Variable dg_bar_handle_statement : DiffEnv -> IRStmt -> M IRSB DiffEnv.
Variable dg_trick_handle_statement : DiffEnv -> IRStmt -> M IRSB DiffEnv.

(** A computation on the output superblock that only adds temporaries and
    statements to it. *)
Definition extends {A : Type} (m : M IRSB A) : Prop :=
  forall s a s',
    m s = Ok a s' ->
    exists tys sts,
      tyenv s' = tyenv s ++ tys /\ stmts s' = stmts s ++ sts.

(** What is not among the files only adds to the output superblock. *)
Hypothesis addressesOfCAS_extends : forall det, extends (addressesOfCAS det).
Hypothesis dg_dot_handle_statement_extends :
  forall diffenv st, extends (dg_dot_handle_statement diffenv st).
Hypothesis dg_bar_handle_statement_extends :
  forall diffenv st, extends (dg_bar_handle_statement diffenv st).
Hypothesis dg_trick_handle_statement_extends :
  forall diffenv st, extends (dg_trick_handle_statement diffenv st).

Definition is_CAS (st : IRStmt) : bool :=
  match st with IRStmt_CAS _ => true | _ => false end.

#[local] Abbreviation dg_original_statement :=
  (dg_instrumentation.dg_original_statement typeOfIRExpr addressesOfCAS).
#[local] Abbreviation instrument_stmts :=
  (dg_instrumentation.instrument_stmts typeOfIRExpr addressesOfCAS
     dg_dot_handle_statement dg_bar_handle_statement
     dg_trick_handle_statement).
#[local] Abbreviation dg_instrument :=
  (dg_instrumentation.dg_instrument typeOfIRExpr addressesOfCAS
     dg_dot_handle_statement dg_bar_handle_statement
     dg_trick_handle_statement).

Lemma extends_ret {A : Type} (a : A) : extends (ret a : M IRSB A).
Proof.
  intros s a' s' [= <- <-]. exists [], []. now rewrite !app_nil_r.
Qed.

Lemma extends_add_stmt st : extends (add_stmt st).
Proof. intros s a s' [= <- <-]. exists [], [st]. now rewrite app_nil_r. Qed.

Lemma extends_bind {A B : Type} (m : M IRSB A) (k : A -> M IRSB B) :
  extends m -> (forall a, extends (k a)) -> extends (bind m k).
Proof.
  intros Hm Hk s b s' H. unfold bind in H.
  destruct (m s) as [a s1| |] eqn:E; try discriminate.
  destruct (Hm _ _ _ E) as (tys1 & sts1 & Ht1 & Hs1).
  destruct (Hk _ _ _ _ H) as (tys2 & sts2 & Ht2 & Hs2).
  exists (tys1 ++ tys2), (sts1 ++ sts2).
  rewrite Ht2, Hs2, Ht1, Hs1, !app_assoc. auto.
Qed.

(** The original statement is added as it is unless it is a CAS. *)
Lemma dg_original_statement_adds diffenv st s s' :
  dg_original_statement diffenv st s = Ok tt s' ->
  exists tys sts,
    tyenv s' = tyenv s ++ tys /\ stmts s' = stmts s ++ sts
    /\ (is_CAS st = false -> sts = [st]).
Proof.
  intros H.
  assert (forall s s', add_stmt st s = Ok tt s' ->
          exists tys sts,
            tyenv s' = tyenv s ++ tys /\ stmts s' = stmts s ++ sts
            /\ (is_CAS st = false -> sts = [st])) as Hadd.
  { intros s0 s0' [= <-]. exists [], [st]. now rewrite app_nil_r. }
  destruct st; try (now apply Hadd).
  cbn [dg_instrumentation.dg_original_statement] in H.
  destruct (bool_decide _); [|now apply Hadd].
  cbv zeta in H.
  set (type := typeOfIRExpr (tyenv s) (expdLo details)) in H. clearbody type.
  match type of H with ?m s = _ => assert (extends m) as Hm end.
  { apply extends_bind; [apply addressesOfCAS_extends|]. intros addrs.
    repeat first
      [ apply extends_bind; [|intros ?]
      | apply extends_add_stmt
      | apply extends_ret
      | match goal with |- extends (if ?b then _ else _) => destruct b end
      ]. }
  destruct (Hm _ _ _ H) as (tys & sts & Ht & Hs).
  exists tys, sts. repeat split; [assumption..|discriminate].
Qed.

Lemma handle_statement_extends mode diffenv st :
  extends
    (if bool_decide (mode = "d"%char) then
       dg_dot_handle_statement diffenv st
     else if bool_decide (mode = "b"%char) then
       dg_bar_handle_statement diffenv st
     else if bool_decide (mode = "t"%char) then
       dg_trick_handle_statement diffenv st
     else ret diffenv).
Proof.
  repeat match goal with
         | |- extends (if ?b then _ else _) => destruct b
         end; auto using @extends_ret.
Qed.

Lemma instrument_stmts_adds mode sts :
  forall diffenv stmt_counter s stmt_counter' s',
    instrument_stmts mode diffenv sts stmt_counter s = Ok stmt_counter' s' ->
    exists tys out,
      tyenv s' = tyenv s ++ tys /\ stmts s' = stmts s ++ out
      /\ sublist (filter (fun st => is_CAS st = false) sts) out.
Proof.
  induction sts as [|st sts IH]; intros diffenv c s c' s' H;
    cbn [dg_instrumentation.instrument_stmts] in H.
  - injection H as <- <-. exists [], []. rewrite !app_nil_r.
    repeat split. constructor.
  - unfold bind at 1 in H.
    match type of H with
    | match ?m s with _ => _ end = _ =>
        pose proof (handle_statement_extends mode
                      (mkDiffEnv (tmp_offset diffenv) (gs_offset diffenv)
                         IRTemp_INVALID) st) as Hh;
        destruct (m s) as [d1 s1| |] eqn:E1; try discriminate
    end.
    destruct (Hh _ _ _ E1) as (tys1 & sts1 & Ht1 & Hs1).
    unfold bind in H.
    destruct (dg_instrumentation.dg_original_statement _ _ d1 st s1)
      as [[] s2| |] eqn:E2; try discriminate.
    destruct (dg_original_statement_adds _ _ _ _ E2)
      as (tys2 & sts2 & Ht2 & Hs2 & Hst).
    destruct (IH _ _ _ _ _ H) as (tys3 & out & Ht3 & Hs3 & Hsub).
    exists (tys1 ++ tys2 ++ tys3), (sts1 ++ sts2 ++ out).
    rewrite Ht3, Hs3, Ht2, Hs2, Ht1, Hs1, <- !app_assoc.
    repeat split.
    apply sublist_inserts_l. rewrite filter_cons.
    destruct (decide (is_CAS st = false)) as [Hc|Hc].
    + rewrite (Hst Hc). cbn. now apply sublist_skip.
    + now apply sublist_inserts_l.
Qed.

Lemma dg_instrument_adds mode sb_in layout_total_sizeB stmt_counter
    stmt_counter' sb_out :
  dg_instrument mode sb_in layout_total_sizeB stmt_counter
  = Ok stmt_counter' sb_out ->
  exists tys out,
    tyenv sb_out
    = tyenv sb_in
      ++ (if bool_decide (mode = "b"%char) || bool_decide (mode = "t"%char)
          then tyenv sb_in ++ tyenv sb_in else tyenv sb_in)
      ++ tys
    /\ stmts sb_out = out
    /\ sublist (filter (fun st => is_CAS st = false) (stmts sb_in)) out.
Proof.
  unfold dg_instrumentation.dg_instrument. intros H.
  destruct (nl_main.until_IMark (stmts sb_in)) as [pre rest] eqn:E.
  apply until_IMark_app in E.
  destruct (instrument_stmts_adds _ _ _ _ _ _ _ H)
    as (tys & out & Ht & Hs & Hsub).
  cbn [tyenv stmts] in Ht, Hs.
  exists tys, (pre ++ out). rewrite Ht, Hs, E, <- app_assoc.
  repeat split. rewrite filter_app.
  apply sublist_app; [apply sublist_filter|exact Hsub].
Qed.

(** In whatever mode, the superblock that [dg_instrument] returns has the
    statements of the input superblock that are not a CAS, in their order
    (the tool's code is put in between), provided that the handlers of the
    statements only add to the output superblock. *)
Theorem dg_instrument_keeps_the_statements mode sb_in layout_total_sizeB
    stmt_counter stmt_counter' sb_out :
  dg_instrument mode sb_in layout_total_sizeB stmt_counter
  = Ok stmt_counter' sb_out ->
  sublist (filter (fun st => is_CAS st = false) (stmts sb_in))
          (stmts sb_out).
Proof.
  intros H. destruct (dg_instrument_adds _ _ _ _ _ _ H)
    as (tys & out & _ & -> & Hsub). exact Hsub.
Qed.

(** The shadow temporaries exist and have the type of their temporary: in
    the superblock that [dg_instrument] returns, a temporary [t] of the
    input keeps its type, and the temporary [t + nTmp] has the same type,
    where [nTmp] is the number of temporaries of the input; in recording
    mode and in bit-trick-finding mode so has [t + 2 * nTmp]. If three
    times [nTmp] fits a [UInt], these are the temporaries that
    [dg_bar_rdtmp] reads and that [dg_bar_wrtmp] assigns, in this order. *)
Theorem dg_instrument_shadow_temporaries_typed mode sb_in layout_total_sizeB
    stmt_counter stmt_counter' sb_out (t : IRTemp) (ty : IRType) :
  dg_instrument mode sb_in layout_total_sizeB stmt_counter
  = Ok stmt_counter' sb_out ->
  typeOfIRTemp sb_in t = Some ty ->
  let nTmp := Z.of_nat (length (tyenv sb_in)) in
  typeOfIRTemp sb_out t = Some ty
  /\ typeOfIRTemp sb_out (t + nTmp) = Some ty
  /\ (mode = "b"%char \/ mode = "t"%char ->
      typeOfIRTemp sb_out (t + 2 * nTmp) = Some ty)
  /\ (3 * nTmp <= 2 ^ 32 ->
      forall cas expr sb,
        let diffenv := mkDiffEnv nTmp layout_total_sizeB cas in
        dg_bar_rdtmp diffenv t
        = (IRExpr_RdTmp (t + nTmp), IRExpr_RdTmp (t + 2 * nTmp))
        /\ dg_bar_wrtmp diffenv t expr sb
           = mkIRSB (tyenv sb)
               (stmts sb ++ [IRStmt_WrTmp (t + nTmp) expr.1;
                             IRStmt_WrTmp (t + 2 * nTmp) expr.2])).
Proof.
  intros H Ht nTmp.
  destruct (dg_instrument_adds _ _ _ _ _ _ H) as (tys & out & Hty & _ & _).
  unfold typeOfIRTemp in *. rewrite Hty.
  destruct (0 <=? t) eqn:E0; [|discriminate].
  apply Z.leb_le in E0.
  pose proof (lookup_lt_Some _ _ _ Ht) as Hlt.
  assert ((0 <=? t + nTmp) = true) as -> by (apply Z.leb_le; lia).
  assert (Z.to_nat (t + nTmp) = length (tyenv sb_in) + Z.to_nat t)%nat
    as -> by lia.
  split; [now apply lookup_app_l_Some|].
  split.
  { rewrite lookup_app_r by lia.
    replace (length (tyenv sb_in) + Z.to_nat t - length (tyenv sb_in))%nat
      with (Z.to_nat t) by lia.
    apply lookup_app_l_Some.
    destruct (_ || _); [|exact Ht]. now apply lookup_app_l_Some. }
  split.
  { intros Hmode.
    assert (bool_decide (mode = "b"%char) || bool_decide (mode = "t"%char)
            = true) as ->.
    { destruct Hmode as [-> | ->]; reflexivity. }
    assert ((0 <=? t + 2 * nTmp) = true) as -> by (apply Z.leb_le; lia).
    rewrite lookup_app_r by lia.
    rewrite <- app_assoc, lookup_app_r by lia.
    replace (Z.to_nat (t + 2 * nTmp) - length (tyenv sb_in)
             - length (tyenv sb_in))%nat with (Z.to_nat t) by lia.
    now apply lookup_app_l_Some. }
  intros Hn cas expr sb. cbv zeta.
  unfold dg_bar_rdtmp, dg_bar_wrtmp, addStmtToIRSB.
  cbn [tmp_offset tyenv stmts]. unfold wrap.
  rewrite !Z.mod_small by lia.
  split; [reflexivity|]. now rewrite <- app_assoc.
Qed.

End Dg_instrument.

(** A handler of statements that gives the two shadow temporaries of an
    assigned temporary the value zero. *)
Definition zero_shadow_handler (diffenv : bar_dg_bar.DiffEnv)
    (st : VEX.IRStmt) : Run.M VEX.IRSB bar_dg_bar.DiffEnv :=
  fun sb_out =>
    match st with
    | VEX.IRStmt_WrTmp t _ =>
        Run.Ok diffenv
          (bar_dg_bar.dg_bar_wrtmp diffenv t
             (VEX.IRExpr_Const (VEX.IRConst_U64 0),
              VEX.IRExpr_Const (VEX.IRConst_U64 0)) sb_out)
    | _ => Run.Ok diffenv sb_out
    end.

Lemma zero_shadow_handler_extends diffenv st :
  extends (zero_shadow_handler diffenv st).
Proof.
  intros s a s' H. unfold zero_shadow_handler in H.
  destruct st; injection H as <- <-;
    try (exists [], []; now rewrite !app_nil_r).
  eexists [], [_; _]. cbn. now rewrite app_nil_r, <- app_assoc.
Qed.

Definition no_addresses (det : VEX.IRCAS)
  : Run.M VEX.IRSB (VEX.IRExpr * VEX.IRExpr) :=
  Run.ret (VEX.IRExpr_NULL, VEX.IRExpr_NULL).

(** What [dg_instrument] makes of [load_block] in recording mode with this
    handler. *)
Definition recorded_load_block : VEX.IRSB :=
  VEX.mkIRSB
    [VEX.Ity_I64; VEX.Ity_F64; VEX.Ity_I64; VEX.Ity_F64;
     VEX.Ity_I64; VEX.Ity_F64]
    [VEX.IRStmt_IMark 4096 4 0;
     VEX.IRStmt_WrTmp 3 (VEX.IRExpr_Const (VEX.IRConst_U64 0));
     VEX.IRStmt_WrTmp 5 (VEX.IRExpr_Const (VEX.IRConst_U64 0));
     VEX.IRStmt_WrTmp 1
       (VEX.IRExpr_Load VEX.Iend_LE VEX.Ity_F64 (VEX.IRExpr_RdTmp 0))].

Lemma dg_instrument_load_block :
  dg_instrumentation.dg_instrument (fun _ _ => VEX.Ity_I64) no_addresses
    zero_shadow_handler zero_shadow_handler zero_shadow_handler
    "b" load_block 1000 0
  = Run.Ok 2 recorded_load_block.
Proof. reflexivity. Qed.

Lemma dg_instrument_keeps_the_statements_witness :
  sublist (filter (fun st => is_CAS st = false) (VEX.stmts load_block))
          (VEX.stmts recorded_load_block).
Proof.
  apply (dg_instrument_keeps_the_statements (fun _ _ => VEX.Ity_I64)
           no_addresses zero_shadow_handler zero_shadow_handler
           zero_shadow_handler
           (fun det => extends_ret _)
           zero_shadow_handler_extends zero_shadow_handler_extends
           zero_shadow_handler_extends
           "b"%char load_block 1000 0 2 recorded_load_block).
  reflexivity.
Defined.

Lemma dg_instrument_shadow_temporaries_typed_witness :
  VEX.typeOfIRTemp recorded_load_block 1 = Some VEX.Ity_F64
  /\ VEX.typeOfIRTemp recorded_load_block (1 + 2) = Some VEX.Ity_F64
  /\ ("b"%char = "b"%char \/ "b"%char = "t"%char ->
      VEX.typeOfIRTemp recorded_load_block (1 + 2 * 2) = Some VEX.Ity_F64)
  /\ (3 * 2 <= 2 ^ 32 ->
      forall cas expr sb,
        bar_dg_bar.dg_bar_rdtmp (bar_dg_bar.mkDiffEnv 2 1000 cas) 1
        = (VEX.IRExpr_RdTmp (1 + 2), VEX.IRExpr_RdTmp (1 + 2 * 2))
        /\ bar_dg_bar.dg_bar_wrtmp (bar_dg_bar.mkDiffEnv 2 1000 cas) 1 expr sb
           = VEX.mkIRSB (VEX.tyenv sb)
               (VEX.stmts sb ++ [VEX.IRStmt_WrTmp (1 + 2) expr.1;
                                 VEX.IRStmt_WrTmp (1 + 2 * 2) expr.2])).
Proof.
  apply (dg_instrument_shadow_temporaries_typed (fun _ _ => VEX.Ity_I64)
           no_addresses zero_shadow_handler zero_shadow_handler
           zero_shadow_handler
           (fun det => extends_ret _)
           zero_shadow_handler_extends zero_shadow_handler_extends
           zero_shadow_handler_extends
           "b"%char load_block 1000 0 2 recorded_load_block 1 VEX.Ity_F64).
  - reflexivity.
  - reflexivity.
Defined.
